(** * The auto-parallel Partitioner: a shallow embedding

    This development embeds
    [python/paddle/distributed/auto_parallel/partitioner.py] and states the
    properties of its variable partitioning, operator dispatch, forward
    transpilation and backward transpilation.

    Conventions of the embedding:
    - Python integers are [Z]; [//] and [%] are [Z.div] and [Z.modulo]
      (both round towards minus infinity, as Python does), with the
      [ZeroDivisionError] of a zero divisor written out.
    - Python lists are [list]; [l[i]] is [py_getitem], which accepts negative
      indices and raises [IndexError] out of range.
    - Python dicts used as plain maps are [gmap]; the variables of a block
      keep their insertion order and are an association list.
    - Mutable objects (the partitioner, the distributed context, the
      destination programs) live in an explicit [World]; a raised exception
      leaves the mutations done so far in place, so a computation returns the
      world together with either a [Fault] or a value. *)

From Stdlib Require Import ZArith List String Bool Lia.
From stdpp Require Import base option list gmap strings fin_maps.

Local Open Scope string_scope.
Local Open Scope Z_scope.

(** ** Faults *)

(** Every exception the module can raise, by the condition that raises it. *)
Inductive Fault : Type :=
  | ConfigurationTypeError  (* TypeError of the isinstance guards *)
  | IncompleteAnnotation    (* RuntimeError: Not all vars or ops are annotated *)
  | MissingDistAttr         (* assert dist_attr is not None *)
  | ShapeMismatch           (* assert len(var_shape) == len(mapping) *)
  | UnevenPartition         (* assert var_shape[idx] % mesh[mapping[idx]] == 0 *)
  | ConsistencyFault        (* assert serial_input_varname in __varname_not_in_block__ *)
  | InitializerFault        (* the two assertions on startup initializers *)
  | LookupFailure           (* assert serial_varname in self._serial2dist_varname_mapping *)
  | DistVarNotFound         (* assert dist_program.global_block().has_var(dist_varname) *)
  | InvalidLoss             (* assert len(loss.shape) == 1 and loss.shape[0] == 1 *)
  | NoBackwardOps           (* assert first_backward_op_idx >= 0 *)
  | NoForwardOps            (* assert len(forward_op_id2forward_op) > 0 *)
  | NotSupported            (* NotImplementedError: Sharding is NOT support in AutoParallel yet! *)
  | NotImplemented          (* RuntimeError: transpile NOT implemented ! *)
  | PyAttributeError        (* attribute access on None or on a non-Parameter *)
  | PyIndexError
  | PyKeyError
  | PyValueError            (* Block.var on an unknown name *)
  | PyZeroDivisionError
  | PyNameError             (* use of an unbound name *)
  | PyTypeError             (* a keyword passed twice *)
  | CollaboratorFault (code : nat).

(** ** Pure fallible computations *)

Definition Result (A : Type) : Type := (Fault + A)%type.

Definition bindR {A B} (c : Result A) (k : A -> Result B) : Result B :=
  match c with
  | inl f => inl f
  | inr a => k a
  end.

Notation "x <-r c ;; k" := (bindR c (fun x => k))
  (at level 100, c at next level, right associativity).

Definition assertR (b : bool) (f : Fault) : Result unit :=
  if b then inr tt else inl f.

Fixpoint mapR {A B} (f : A -> Result B) (l : list A) : Result (list B) :=
  match l with
  | [] => inr []
  | x :: l' =>
      y <-r f x ;;
      ys <-r mapR f l' ;;
      inr (y :: ys)
  end.

(** [l[i]] on a Python list. *)
Definition py_getitem {A} (l : list A) (i : Z) : Result A :=
  let n := Z.of_nat (length l) in
  let j := if i <? 0 then i + n else i in
  if (j <? 0) || (n <=? j) then inl PyIndexError
  else match l !! Z.to_nat j with
       | Some x => inr x
       | None => inl PyIndexError
       end.

(** [a % b] and [a // b] on Python integers. *)
Definition py_mod (a b : Z) : Result Z :=
  if b =? 0 then inl PyZeroDivisionError else inr (a mod b).

Definition py_floordiv (a b : Z) : Result Z :=
  if b =? 0 then inl PyZeroDivisionError else inr (a / b).

(** ** Data model *)

Inductive VarType : Type :=
  | LOD_TENSOR | SELECTED_ROWS | LOD_TENSOR_ARRAY | STEP_SCOPES | READER | RAW.

Inductive DType : Type := BOOL | INT32 | INT64 | FP16 | FP32 | FP64.

Global Instance VarType_eq_dec : EqDecision VarType.
Proof. solve_decision. Defined.

Global Instance DType_eq_dec : EqDecision DType.
Proof. solve_decision. Defined.

(** The keyword arguments only a [Parameter] carries.  Policy objects
    (optimize attributes, regularizer) are opaque handles. *)
Record ParameterKwargs : Type := {
  trainable : bool;
  optimize_attr : Z;
  regularizer : option Z;
  do_model_average : option bool;
  need_clip : bool }.

(** A framework variable ([Variable] in the source, a reserved word here);
    [parameter] is [Some _] exactly when the object is an
    instance of [Parameter].  [desc_id] is [var.desc.id()], the identity the
    distributed context keys its attributes by.  The fields are total, where
    the framework's [lod_level] accessor raises on a [SELECTED_ROWS]
    variable and its [shape] accessor on a [RAW] or [STEP_SCOPES] one: what
    is stated below of a partition that returns, or of the faults of one that
    raises, is stated of [LOD_TENSOR] and [READER] variables. *)
Record Var : Type := {
  desc_id : nat;
  name : string;
  type : VarType;
  shape : list Z;
  dtype : option DType;
  lod_level : option Z;
  persistable : bool;
  error_clip : option Z;
  stop_gradient : bool;
  is_data : bool;
  belong_to_optimizer : bool;
  parameter : option ParameterKwargs }.

(** An operator: its type tag, [desc.id()], the [op_role] attribute, the
    named input and output slots and the [shape] attribute of initializers. *)
Record Operator : Type := {
  op_id : nat;
  op_type : string;
  op_role : Z;
  inputs : list (string * list string);
  outputs : list (string * list string);
  attr_shape : option (list Z) }.

Definition input_arg_names (op : Operator) : list string :=
  concat (map snd (inputs op)).

Definition output_arg_names (op : Operator) : list string :=
  concat (map snd (outputs op)).

(** A block: its variables in insertion order and its operators in execution
    order.  A program is its global block. *)
Record Block : Type := {
  vars : list (string * Var);
  ops : list Operator }.

Record Program : Type := { global_block : Block }.

Definition empty_program : Program :=
  {| global_block := {| vars := []; ops := [] |} |}.

Fixpoint find_var (vs : list (string * Var)) (n : string) : option Var :=
  match vs with
  | [] => None
  | (k, v) :: vs' => if String.eqb k n then Some v else find_var vs' n
  end.

Definition has_var (b : Block) (n : string) : bool :=
  match find_var (vars b) n with Some _ => true | None => false end.

(** [Block.var(name)]: raises [ValueError] when the name is unknown. *)
Definition block_var (b : Block) (n : string) : Result Var :=
  match find_var (vars b) n with
  | Some v => inr v
  | None => inl PyValueError
  end.

Definition list_vars (p : Program) : list Var :=
  map snd (vars (global_block p)).

(** Registering a variable under its name: an existing entry is replaced in
    place, a new one goes last. *)
Fixpoint set_var (vs : list (string * Var)) (v : Var)
  : list (string * Var) :=
  match vs with
  | [] => [(name v, v)]
  | (k, w) :: vs' =>
      if String.eqb k (name v) then (k, v) :: vs' else (k, w) :: set_var vs' v
  end.

(** ** Distribution attributes *)

(** The attribute of a tensor: the topology of its process mesh and its
    dimension mapping, with the owner links the partitioner rewrites. *)
Record TensorDistributedAttribute : Type := {
  t_topology : list Z;
  t_dims_mapping : list Z;
  _owner_tensor : nat;
  _owner_context : nat }.

Record OperatorDistributedAttribute : Type := {
  o_owner_op : nat;
  o_topology : option (list Z);
  o_impl_idx : Z;
  o_input_dims_mapping : list (string * list Z);
  o_output_dims_mapping : list (string * list Z) }.

(** ** Shape partitioning *)

(** One iteration of the loop of [_get_dist_shape]. *)
Definition dist_dim (var_shape mapping mesh : list Z) (idx : nat) : Result Z :=
  s <-r py_getitem var_shape (Z.of_nat idx) ;;
  if s =? -1 then inr s
  else
    m <-r py_getitem mapping (Z.of_nat idx) ;;
    if m =? -1 then inr s
    else
      e <-r py_getitem mesh m ;;
      r <-r py_mod s e ;;
      _ <-r assertR (r =? 0) UnevenPartition ;;
      e' <-r py_getitem mesh m ;;
      py_floordiv s e'.

Definition _get_dist_shape (var : Var)
    (dist_attr : option TensorDistributedAttribute) : Result (list Z) :=
  let var_shape := shape var in
  match dist_attr with
  | None => inl PyAttributeError
  | Some a =>
      let mapping := t_dims_mapping a in
      let mesh := t_topology a in
      _ <-r assertR (Nat.eqb (length var_shape) (length mapping)) ShapeMismatch ;;
      mapR (dist_dim var_shape mapping mesh) (seq 0 (length var_shape))
  end.

(** ** Stateful fallible computations *)

(** A computation over a mutable state [S]: the state it leaves behind and
    either the fault it raised or its value.  The state is returned in both
    cases, as Python keeps the mutations made before an exception. *)
Definition M (S A : Type) : Type := S -> S * Result A.

Definition ret {S A} (a : A) : M S A := fun s => (s, inr a).

Definition raise {S A} (f : Fault) : M S A := fun s => (s, inl f).

Definition bind {S A B} (c : M S A) (k : A -> M S B) : M S B :=
  fun s =>
    match c s with
    | (s', inl f) => (s', inl f)
    | (s', inr a) => k a s'
    end.

Notation "x <- c ;; k" := (bind c (fun x => k))
  (at level 100, c at next level, right associativity).

Definition gets {S A} (f : S -> A) : M S A := fun s => (s, inr (f s)).

Definition modify {S} (f : S -> S) : M S unit := fun s => (f s, inr tt).

Definition liftR {S A} (r : Result A) : M S A := fun s => (s, r).

Definition assert_ {S} (b : bool) (f : Fault) : M S unit :=
  if b then ret tt else raise f.

(** [for x in l: body(x)] *)
Fixpoint for_each {S A} (body : A -> M S unit) (l : list A) : M S unit :=
  match l with
  | [] => ret tt
  | x :: l' => _ <- body x ;; for_each body l'
  end.

(** [[f(x) for x in l]] *)
Fixpoint mapM {S A B} (f : A -> M S B) (l : list A) : M S (list B) :=
  match l with
  | [] => ret []
  | x :: l' =>
      y <- f x ;;
      ys <- mapM f l' ;;
      ret (y :: ys)
  end.

(** ** The distributed context and the destination programs *)

(** The part of [DistOpHelper] the partitioner touches.  Its references to the
    destination programs and to the renaming table are aliases of the objects
    held in [Env] and in the partitioner. *)
Record DistOpHelper : Type := {
  h_rank_id : Z;
  h_cur_src_op : option Operator;
  gradopidx2opidx : gmap nat nat }.

(** Modelled from the spec: the Distribution-Attribute Store
    ([DistributedContext], whose class is not part of this module):
    [get_tensor_attr(var) -> attr|null], [set_tensor_attr(var, attr)],
    [get_op_attr(op) -> attr|null], [set_op_attr(op, attr)], keyed by the
    identity of the tensor or operator. *)
Record DistributedContext : Type := {
  _tensor_distributed_attr_map_for_program : gmap nat TensorDistributedAttribute;
  _op_distributed_attr_map_for_program : gmap nat OperatorDistributedAttribute;
  _dist_op_helper : DistOpHelper }.

Definition get_tensor_distributed_attr_for_program
    (c : DistributedContext) (v : Var) : option TensorDistributedAttribute :=
  _tensor_distributed_attr_map_for_program c !! desc_id v.

Definition get_op_distributed_attr_for_program
    (c : DistributedContext) (op : Operator) : option OperatorDistributedAttribute :=
  _op_distributed_attr_map_for_program c !! op_id op.

Definition set_tensor_distributed_attr_for_program
    (v : Var) (a : TensorDistributedAttribute) (c : DistributedContext)
  : DistributedContext :=
  {| _tensor_distributed_attr_map_for_program :=
       <[desc_id v := a]> (_tensor_distributed_attr_map_for_program c);
     _op_distributed_attr_map_for_program := _op_distributed_attr_map_for_program c;
     _dist_op_helper := _dist_op_helper c |}.

Definition set_op_distributed_attr_for_program
    (op : Operator) (a : OperatorDistributedAttribute) (c : DistributedContext)
  : DistributedContext :=
  {| _tensor_distributed_attr_map_for_program := _tensor_distributed_attr_map_for_program c;
     _op_distributed_attr_map_for_program :=
       <[op_id op := a]> (_op_distributed_attr_map_for_program c);
     _dist_op_helper := _dist_op_helper c |}.

Definition set_helper (h : DistOpHelper) (c : DistributedContext) : DistributedContext :=
  {| _tensor_distributed_attr_map_for_program := _tensor_distributed_attr_map_for_program c;
     _op_distributed_attr_map_for_program := _op_distributed_attr_map_for_program c;
     _dist_op_helper := h |}.

(** Everything the partitioner mutates besides its own renaming table: the
    distributed context, the two destination programs (the startup one is
    [None] when no startup program is given) and the counter descriptor ids
    are drawn from. *)
Record Env : Type := {
  auto_parallel_context : DistributedContext;
  dist_main_program : Program;
  dist_startup_program : option Program;
  next_desc_id : nat }.

Definition with_context (f : DistributedContext -> DistributedContext) (e : Env) : Env :=
  {| auto_parallel_context := f (auto_parallel_context e);
     dist_main_program := dist_main_program e;
     dist_startup_program := dist_startup_program e;
     next_desc_id := next_desc_id e |}.

Definition with_main (f : Program -> Program) (e : Env) : Env :=
  {| auto_parallel_context := auto_parallel_context e;
     dist_main_program := f (dist_main_program e);
     dist_startup_program := dist_startup_program e;
     next_desc_id := next_desc_id e |}.

Definition with_startup (f : option Program -> option Program) (e : Env) : Env :=
  {| auto_parallel_context := auto_parallel_context e;
     dist_main_program := dist_main_program e;
     dist_startup_program := f (dist_startup_program e);
     next_desc_id := next_desc_id e |}.

Definition fresh_id : M Env nat :=
  fun e =>
    ({| auto_parallel_context := auto_parallel_context e;
        dist_main_program := dist_main_program e;
        dist_startup_program := dist_startup_program e;
        next_desc_id := S (next_desc_id e) |},
     inr (next_desc_id e)).

(** Which destination block a variable or operator is created in. *)
Inductive Dst : Type := DstMain | DstStartup.

Definition add_var (v : Var) (p : Program) : Program :=
  {| global_block :=
       {| vars := set_var (vars (global_block p)) v; ops := ops (global_block p) |} |}.

Definition add_op (op : Operator) (p : Program) : Program :=
  {| global_block :=
       {| vars := vars (global_block p); ops := ops (global_block p) ++ [op] |} |}.

Definition dst_block (d : Dst) : M Env Block :=
  fun e =>
    match d with
    | DstMain => (e, inr (global_block (dist_main_program e)))
    | DstStartup =>
        match dist_startup_program e with
        | Some p => (e, inr (global_block p))
        | None => (e, inl PyAttributeError)
        end
    end.

Definition update_dst (d : Dst) (f : Program -> Program) : M Env unit :=
  match d with
  | DstMain => modify (with_main f)
  | DstStartup => modify (with_startup (option_map f))
  end.

(** Modelled from the spec: the framework constructors ([Block.create_var],
    [Parameter]) create a new variable descriptor in the destination graph
    from the keyword arguments they receive and register it under its name;
    a keyword that is not passed keeps the constructor's default.  The
    descriptor gets a fresh identity. *)
Definition create_var (d : Dst) (ty : VarType) (nm : string) (shp : list Z)
    (dt : option DType) (lod : option Z) (pers : bool) (clip : option Z)
    (stop is_d opt : bool) (kw : option ParameterKwargs) : M Env Var :=
  i <- fresh_id ;;
  let v := {| desc_id := i; name := nm; type := ty; shape := shp; dtype := dt;
              lod_level := lod; persistable := pers; error_clip := clip;
              stop_gradient := stop; is_data := is_d; belong_to_optimizer := opt;
              parameter := kw |} in
  _ <- update_dst d (add_var v) ;;
  ret v.

(** ** Variable partitioning *)

(** The common tail of [_partition_parameter] and
    [_partition_intermediate_var]: deep-copy the attribute of the source,
    re-own it and register it for the new variable. *)
Definition copy_dist_attr (src_var dst_var : Var) : M Env unit :=
  src_attr <- gets (fun e => get_tensor_distributed_attr_for_program
                               (auto_parallel_context e) src_var) ;;
  match src_attr with
  | None => raise MissingDistAttr
  | Some a =>
      let dist_attr :=
        {| t_topology := t_topology a;
           t_dims_mapping := t_dims_mapping a;
           _owner_tensor := desc_id dst_var;
           _owner_context := _owner_context a |} in
      modify (with_context (set_tensor_distributed_attr_for_program dst_var dist_attr))
  end.

Definition _partition_parameter (src_var : Var) (dst : Dst)
    (dst_varname : string) (dst_shape : list Z) : M Env unit :=
  match parameter src_var with
  | None => raise PyAttributeError
  | Some copied_kwargs =>
      param <- create_var dst (type src_var) dst_varname dst_shape (dtype src_var)
                 (lod_level src_var) true (error_clip src_var)
                 (stop_gradient src_var) (is_data src_var)
                 (belong_to_optimizer src_var) (Some copied_kwargs) ;;
      copy_dist_attr src_var param
  end.

Definition _partition_intermediate_var (src_var : Var) (dst : Dst)
    (dst_varname : string) (dst_shape : list Z) : M Env unit :=
  var <- create_var dst (type src_var) dst_varname dst_shape (dtype src_var)
           (lod_level src_var) (persistable src_var) (error_clip src_var)
           (stop_gradient src_var) (is_data src_var)
           (belong_to_optimizer src_var) None ;;
  copy_dist_attr src_var var.

Definition is_Parameter (v : Var) : bool :=
  match parameter v with Some _ => true | None => false end.

Definition is_READER (v : Var) : bool :=
  match type v with READER => true | _ => false end.

Definition _partition_var (src_block : Block) (dst : Dst)
    (src_varname dst_varname : string) : M Env unit :=
  src_var <- liftR (block_var src_block src_varname) ;;
  if is_READER src_var then
    _ <- create_var dst (type src_var) dst_varname [] None None true None
           true false false None ;;
    ret tt
  else
    dist_attr <- gets (fun e => get_tensor_distributed_attr_for_program
                                  (auto_parallel_context e) src_var) ;;
    target_shape <- liftR (_get_dist_shape src_var dist_attr) ;;
    if is_Parameter src_var then
      _partition_parameter src_var dst dst_varname target_shape
    else
      _partition_intermediate_var src_var dst dst_varname target_shape.

(** ** The partitioner object and its collaborators *)

Record DistributedStrategy : Type := { sharding : bool }.

(** The fields of a [Partitioner].  Its [_auto_parallel_context] is the
    context held in [Env]. *)
Record Partitioner : Type := {
  _dist_strategy : DistributedStrategy;
  _rank_id : Z;
  _serial2dist_varname_mapping : gmap string string;
  _dist_varname_suffix : string;
  _compatible_with_auto_backward : bool }.

Record World : Type := { self : Partitioner; env : Env }.

(** [Partitioner.__init__].  The two [isinstance] guards hold by typing. *)
Definition __init__ (dist_strategy : DistributedStrategy) (rank_id : Z) : Partitioner :=
  {| _dist_strategy := dist_strategy;
     _rank_id := rank_id;
     _serial2dist_varname_mapping := ∅;
     _dist_varname_suffix := "";
     _compatible_with_auto_backward := true |}.

Definition set_mapping (m : gmap string string) (w : World) : World :=
  {| self := {| _dist_strategy := _dist_strategy (self w);
                _rank_id := _rank_id (self w);
                _serial2dist_varname_mapping := m;
                _dist_varname_suffix := _dist_varname_suffix (self w);
                _compatible_with_auto_backward := _compatible_with_auto_backward (self w) |};
     env := env w |}.

(** Running a computation on the environment inside the world: the
    partitioner's own fields are out of its reach. *)
Definition liftEnv {A} (c : M Env A) : M World A :=
  fun w =>
    match c (env w) with
    | (e', r) => ({| self := self w; env := e' |}, r)
    end.

(** The keyword arguments handed to a distributed implementation: slot name
    to variable names. *)
Definition Kwargs : Type := list (string * list string).

(** Unpacking [kinputs] and [koutputs] as keyword arguments of one call: a
    slot name present on both sides is a [TypeError]. *)
Definition merge_kwargs (kinputs koutputs : Kwargs) : Result Kwargs :=
  if forallb (fun k => negb (existsb (String.eqb k) (map fst koutputs)))
       (map fst kinputs)
  then inr (kinputs ++ koutputs)%list
  else inl PyTypeError.

(** One registered implementation of a distributed operator: its two
    capability flags and its two transforms.  A transform reads the renaming
    table through the helper and works on the context and the destination
    programs. *)
Record DistributedOperatorImpl : Type := {
  _forward_implemented : bool;
  _backward_implemented : bool;
  forward : gmap string string -> Kwargs -> M Env unit;
  backward : gmap string string -> Kwargs -> M Env unit }.

Record DistributedOperator : Type := { _impls : list DistributedOperatorImpl }.

(** Modelled from the spec: [implementation_set.get(index) -> implementation],
    the registry's container being a Python list of implementations. *)
Definition get_impl (d : DistributedOperator) (impl_idx : Z)
  : Result DistributedOperatorImpl :=
  py_getitem (_impls d) impl_idx.

Definition Callback : Type := nat.

(** The collaborators the module imports: the registry of distributed
    operators, the two context-preparation methods of the helper, the
    autodiff entry point, the completion pass, the default callback and the
    values of the operator-role enumeration. *)
Record Collaborators : Type := {
  get_distributed_operator : string -> option DistributedOperator;
  prepare_forward_context : gmap string string -> Operator -> M Env (Kwargs * Kwargs);
  prepare_backward_context : gmap string string -> Operator -> M Env (Kwargs * Kwargs);
  append_backward :
    Var -> option (list Var) -> gset string -> list Callback -> M Env (list (Var * Var));
  complete_backward_annotation : M Env unit;
  error_clip_callback : Callback;
  OpRole_Forward : Z;
  OpRole_Backward : Z;
  OpRole_Loss : Z }.

Definition __varname_not_in_block__ : list string := ["lod_tensor_blocking_queue_0"].

Definition in_names (n : string) (l : list string) : bool := existsb (String.eqb n) l.

Section Partitioner.

Context (K : Collaborators).

(** *** Operator dispatch *)

Definition _is_dist_op_forward_implement (c : DistributedContext) (op : Operator)
  : Result bool :=
  let dist_attr := get_op_distributed_attr_for_program c op in
  let dist_ops := get_distributed_operator K (op_type op) in
  match dist_ops with
  | None => inr false
  | Some d =>
      match dist_attr with
      | None => inl PyAttributeError
      | Some a =>
          if 0 <=? o_impl_idx a then
            impl <-r get_impl d (o_impl_idx a) ;;
            inr (_forward_implemented impl)
          else inr false
      end
  end.

Definition _is_dist_op_backward_implement (c : DistributedContext) (op : Operator)
  : Result bool :=
  let dist_attr := get_op_distributed_attr_for_program c op in
  let dist_ops := get_distributed_operator K (op_type op) in
  match dist_ops with
  | None => inr false
  | Some d =>
      match dist_attr with
      | None => inl PyAttributeError
      | Some a =>
          if 0 <=? o_impl_idx a then
            impl <-r get_impl d (o_impl_idx a) ;;
            inr (_backward_implemented impl)
          else inr false
      end
  end.

(** [get_distributed_operator(t).get_impl(idx)] *)
Definition lookup_impl (t : string) (idx : Z) : Result DistributedOperatorImpl :=
  match get_distributed_operator K t with
  | None => inl PyAttributeError
  | Some d => get_impl d idx
  end.

(** [dist_attr.get_impl_idx()] on what the store returned. *)
Definition get_impl_idx (a : option OperatorDistributedAttribute) : Result Z :=
  match a with
  | None => inl PyAttributeError
  | Some a => inr (o_impl_idx a)
  end.

(** The implementation the forward loop hands the operator to: the registered
    one when [_is_dist_op_forward_implement] answers yes, otherwise the
    implementation 0 of the reserved type ["default"]. *)
Definition select_forward_impl (c : DistributedContext) (op : Operator)
  : Result DistributedOperatorImpl :=
  let dist_attr := get_op_distributed_attr_for_program c op in
  b <-r _is_dist_op_forward_implement c op ;;
  if b then
    idx <-r get_impl_idx dist_attr ;;
    lookup_impl (op_type op) idx
  else
    lookup_impl "default" 0.

(** The [# partition op] part of the forward loop body. *)
Definition partition_op (op : Operator) : M World unit :=
  mapping <- gets (fun w => _serial2dist_varname_mapping (self w)) ;;
  kio <- liftEnv (prepare_forward_context K mapping op) ;;
  c <- gets (fun w => auto_parallel_context (env w)) ;;
  dist_op_impl <- liftR (select_forward_impl c op) ;;
  kwargs <- liftR (merge_kwargs (fst kio) (snd kio)) ;;
  liftEnv (forward dist_op_impl mapping kwargs).

(** *** Forward transpilation *)

(** The body of the [# partititon input variables] loop. *)
Definition partition_input_var (serial_main_block : Block)
    (serial_input_varname : string) : M World unit :=
  mapping <- gets (fun w => _serial2dist_varname_mapping (self w)) ;;
  match mapping !! serial_input_varname with
  | Some _ => ret tt
  | None =>
      suffix <- gets (fun w => _dist_varname_suffix (self w)) ;;
      let new_varname := String.append serial_input_varname suffix in
      _ <- (if has_var serial_main_block serial_input_varname then
              liftEnv (_partition_var serial_main_block DstMain
                         serial_input_varname new_varname)
            else
              assert_ (in_names serial_input_varname __varname_not_in_block__)
                ConsistencyFault) ;;
      modify (fun w => set_mapping
                (<[serial_input_varname := new_varname]>
                   (_serial2dist_varname_mapping (self w))) w)
  end.

(** The body of the [# partition output vars] loop. *)
Definition partition_output_var (serial_main_block : Block)
    (serial_output_varname : string) : M World unit :=
  mapping <- gets (fun w => _serial2dist_varname_mapping (self w)) ;;
  match mapping !! serial_output_varname with
  | Some _ => ret tt
  | None =>
      suffix <- gets (fun w => _dist_varname_suffix (self w)) ;;
      let new_varname := String.append serial_output_varname suffix in
      _ <- liftEnv (_partition_var serial_main_block DstMain
                      serial_output_varname new_varname) ;;
      modify (fun w => set_mapping
                (<[serial_output_varname := new_varname]>
                   (_serial2dist_varname_mapping (self w))) w)
  end.

(** The body of the [# transpile main program] loop. *)
Definition transpile_op (serial_main_block : Block) (op : Operator) : M World unit :=
  _ <- for_each (partition_input_var serial_main_block) (input_arg_names op) ;;
  _ <- for_each (partition_output_var serial_main_block) (output_arg_names op) ;;
  partition_op op.

(** [for x in l: acc = body(acc, x)], for loops that thread local variables. *)
Fixpoint foldM {S A B} (body : B -> A -> M S B) (l : list A) (acc : B) : M S B :=
  match l with
  | [] => ret acc
  | x :: l' => acc' <- body acc x ;; foldM body l' acc'
  end.

(** The body of the [# create parameter] loop over the startup variables; the
    accumulator is the pair of locals [(temp_varname_map, param2shape)]. *)
Definition partition_startup_param (serial_main_block : Block)
    (acc : gmap string string * gmap string (list Z)) (var : Var)
  : M World (gmap string string * gmap string (list Z)) :=
  if is_Parameter var then
    serial_main_var <- liftR (block_var serial_main_block (name var)) ;;
    dist_attr <- gets (fun w => get_tensor_distributed_attr_for_program
                                  (auto_parallel_context (env w)) serial_main_var) ;;
    target_shape <- liftR (_get_dist_shape serial_main_var dist_attr) ;;
    suffix <- gets (fun w => _dist_varname_suffix (self w)) ;;
    let new_name := String.append (name var) suffix in
    let temp_varname_map := <[name var := new_name]> (fst acc) in
    _ <- liftEnv (_partition_parameter serial_main_var DstStartup new_name target_shape) ;;
    ret (temp_varname_map, <[new_name := target_shape]> (snd acc))
  else ret acc.

(** [new_op_desc._rename_output(old, new)] *)
Definition _rename_output (old new : string) (slots : list (string * list string))
  : list (string * list string) :=
  map (fun slot => (fst slot,
                    map (fun n => if String.eqb n old then new else n) (snd slot)))
      slots.

(** [d[k]] on a dict. *)
Definition dict_getitem {V} (d : gmap string V) (k : string) : Result V :=
  match d !! k with
  | Some v => inr v
  | None => inl PyKeyError
  end.

(** The body of the [# copy initializer] loop. *)
Definition copy_initializer (temp_varname_map : gmap string string)
    (param2shape : gmap string (list Z)) (op : Operator) : M World unit :=
  let output_vars := output_arg_names op in
  _ <- assert_ (Nat.eqb (length output_vars) 1) InitializerFault ;;
  out0 <- liftR (py_getitem output_vars 0) ;;
  new_out <- liftR (dict_getitem temp_varname_map out0) ;;
  _ <- assert_ (bool_decide (is_Some (param2shape !! new_out))) InitializerFault ;;
  i <- liftEnv fresh_id ;;
  new_shape <- liftR (dict_getitem param2shape new_out) ;;
  let new_op :=
    {| op_id := i; op_type := op_type op; op_role := op_role op;
       inputs := inputs op;
       outputs := _rename_output out0 new_out (outputs op);
       attr_shape := Some new_shape |} in
  _ <- liftEnv (update_dst DstStartup (add_op new_op)) ;;
  startup_block <- liftEnv (dst_block DstStartup) ;;
  output_var <- liftR (block_var startup_block out0) ;;
  output_var_attr <- gets (fun w => get_tensor_distributed_attr_for_program
                                      (auto_parallel_context (env w)) output_var) ;;
  match output_var_attr with
  | None => raise PyAttributeError
  | Some a =>
      let op_attr :=
        {| o_owner_op := op_id new_op;
           o_topology := Some (t_topology a);
           o_impl_idx := -1;
           o_input_dims_mapping := [(name output_var, t_dims_mapping a)];
           o_output_dims_mapping := [(name output_var, t_dims_mapping a)] |} in
      liftEnv (modify (with_context (set_op_distributed_attr_for_program new_op op_attr)))
  end.

Definition set_rank_id (r : Z) (c : DistributedContext) : DistributedContext :=
  set_helper {| h_rank_id := r;
                h_cur_src_op := h_cur_src_op (_dist_op_helper c);
                gradopidx2opidx := gradopidx2opidx (_dist_op_helper c) |} c.

Definition _dist_var_op_forward_transpile (serial_main_program : Program)
    (serial_startup_program : option Program) : M World (Program * option Program) :=
  _ <- liftEnv (modify (with_main (fun _ => empty_program))) ;;
  let serial_main_block := global_block serial_main_program in
  let serial_ops := ops (global_block serial_main_program) in
  _ <- match serial_startup_program with
       | None => liftEnv (modify (with_startup (fun _ => None)))
       | Some startup =>
           _ <- liftEnv (modify (with_startup (fun _ => Some empty_program))) ;;
           locals <- foldM (partition_startup_param serial_main_block)
                       (list_vars startup) (∅, ∅) ;;
           for_each (copy_initializer (fst locals) (snd locals))
             (ops (global_block startup))
       end ;;
  rank_id <- gets (fun w => _rank_id (self w)) ;;
  _ <- liftEnv (modify (with_context (set_rank_id rank_id))) ;;
  _ <- for_each (transpile_op serial_main_block) serial_ops ;;
  gets (fun w => (dist_main_program (env w), dist_startup_program (env w))).

(** *** The forward phase *)

Definition _is_valid_annotated_program (c : DistributedContext) (program : Program)
  : bool :=
  let op_dist_attrs :=
    map (get_op_distributed_attr_for_program c) (ops (global_block program)) in
  let var_dist_attrs :=
    map (get_tensor_distributed_attr_for_program c) (list_vars program) in
  let all_ops_annotated := forallb (fun a => bool_decide (is_Some a)) op_dist_attrs in
  let all_vars_annotated := forallb (fun a => bool_decide (is_Some a)) var_dist_attrs in
  all_ops_annotated && all_vars_annotated.

Definition _sharding_forward_transpile (main_prog : Program)
    (startup_program : option Program) : M World (Program * option Program) :=
  raise NotSupported.

(** [transpile_forward_impl]; its two [isinstance] guards hold by typing.  A
    startup program is always given here. *)
Definition transpile_forward_impl (main_program startup_program : Program)
  : M World (Program * option Program) :=
  c <- gets (fun w => auto_parallel_context (env w)) ;;
  _ <- assert_ (_is_valid_annotated_program c main_program) IncompleteAnnotation ;;
  progs <- _dist_var_op_forward_transpile main_program (Some startup_program) ;;
  do_sharding <- gets (fun w => sharding (_dist_strategy (self w))) ;;
  if do_sharding then
    _sharding_forward_transpile (fst progs) (snd progs)
  else ret progs.

Definition transpile_forward (serial_main_program serial_startup_program : Program)
  : M World (Program * option Program) :=
  transpile_forward_impl serial_main_program serial_startup_program.

(** *** Backward transpilation *)

(** In the backward phase the arguments [dist_main_program] and
    [dist_startup_program] are references to the destination programs held in
    [Env]: the phase reads and extends them in place. *)

Definition _serial_varname2dist_var (serial_varname : string) : M World Var :=
  mapping <- gets (fun w => _serial2dist_varname_mapping (self w)) ;;
  _ <- assert_ (bool_decide (is_Some (mapping !! serial_varname))) LookupFailure ;;
  dist_varname <- liftR (dict_getitem mapping serial_varname) ;;
  dist_block <- gets (fun w => global_block (dist_main_program (env w))) ;;
  _ <- assert_ (has_var dist_block dist_varname) DistVarNotFound ;;
  liftR (block_var dist_block dist_varname).

(** [len(shape) == 1 and shape[0] == 1] *)
Definition is_scalar_shape (s : list Z) : bool :=
  match s with
  | [d] => d =? 1
  | _ => false
  end.

Definition _get_no_grad_set_name (no_grad_set : option (list Var)) : gset string :=
  match no_grad_set with
  | None => ∅
  | Some l => list_to_set (map name l)
  end.

Definition all_parameters (b : Block) : list Var :=
  filter (fun v => is_Parameter v = true) (map snd (vars b)).

Definition not_trainable (v : Var) : bool :=
  match parameter v with
  | Some kw => negb (trainable kw)
  | None => false
  end.

Definition _get_no_grad_set (program : Program) (no_grad_set : option (list Var))
  : gset string :=
  let no_grad_set_name := _get_no_grad_set_name no_grad_set in
  let parameters := all_parameters (global_block program) in
  let param_no_trainable : gset string :=
    list_to_set (map name (filter (fun v => not_trainable v = true) parameters)) in
  no_grad_set_name ∪ param_no_trainable.

Definition _auto_backward (loss : Var) (parameter_list no_grad_set : option (list Var))
    (callbacks : option (list Callback)) : M Env (list (Var * Var)) :=
  program <- gets dist_main_program ;;
  let act_no_grad_set := _get_no_grad_set program no_grad_set in
  let callbacks :=
    match callbacks with
    | None => [error_clip_callback K]
    | Some cbs => cbs
    end in
  _ <- assert_ (is_scalar_shape (shape loss)) InvalidLoss ;;
  append_backward K loss parameter_list act_no_grad_set callbacks.

Definition is_forward_op (op : Operator) : bool :=
  let role1 := Z.lor (OpRole_Forward K) (OpRole_Loss K) in
  let role2 := OpRole_Forward K in
  (op_role op =? role2) || (op_role op =? role1).

(** The scan for the first backward operator: the index it stops at (or -1)
    and the forward operators recorded on the way, by id. *)
Fixpoint scan_first_backward (l : list Operator) (idx : Z)
    (forward_op_id2forward_op : gmap nat Operator) : Z * gmap nat Operator :=
  match l with
  | [] => (-1, forward_op_id2forward_op)
  | op :: l' =>
      let seen :=
        if is_forward_op op then <[op_id op := op]> forward_op_id2forward_op
        else forward_op_id2forward_op in
      if op_role op =? OpRole_Backward K then (idx, seen)
      else scan_first_backward l' (idx + 1) seen
  end.

(** The implementation the backward loop hands a gradient operator to. *)
Definition select_backward_impl (c : DistributedContext) (forward_op : Operator)
  : Result DistributedOperatorImpl :=
  let forward_op_dist_attr := get_op_distributed_attr_for_program c forward_op in
  b <-r _is_dist_op_backward_implement c forward_op ;;
  if b then
    idx <-r get_impl_idx forward_op_dist_attr ;;
    lookup_impl (op_type forward_op) idx
  else
    lookup_impl "default" 0.

(** The body of the loop over the backward operators. *)
Definition transpile_backward_op (forward_op_id2forward_op : gmap nat Operator)
    (backward_op : Operator) : M World unit :=
  xref <- gets (fun w => gradopidx2opidx
                           (_dist_op_helper (auto_parallel_context (env w)))) ;;
  match xref !! op_id backward_op with
  | None => ret tt
  | Some forward_op_id =>
      forward_op <- liftR (match forward_op_id2forward_op !! forward_op_id with
                           | Some op => inr op
                           | None => inl PyKeyError
                           end) ;;
      mapping <- gets (fun w => _serial2dist_varname_mapping (self w)) ;;
      kio <- liftEnv (prepare_backward_context K mapping backward_op) ;;
      c <- gets (fun w => auto_parallel_context (env w)) ;;
      dist_op_impl <- liftR (select_backward_impl c forward_op) ;;
      kwargs <- liftR (merge_kwargs (fst kio) (snd kio)) ;;
      liftEnv (backward dist_op_impl mapping kwargs)
  end.

Definition _dist_var_op_backward_transpile (serial_loss : Var)
    (serial_main_program serial_startup_program : Program)
    (parameter_list no_grad_set : option (list Var))
    (callbacks : option (list Callback)) : M World (list (Var * Var)) :=
  compatible <- gets (fun w => _compatible_with_auto_backward (self w)) ;;
  if compatible then
    dist_loss <- _serial_varname2dist_var (name serial_loss) ;;
    _ <- assert_ (is_scalar_shape (shape dist_loss)) InvalidLoss ;;
    parameter_list <-
      match parameter_list with
      | Some (p :: ps) =>
          l <- mapM (fun param => _serial_varname2dist_var (name param)) (p :: ps) ;;
          ret (Some l)
      | other => ret other
      end ;;
    no_grad_set <-
      match no_grad_set with
      | Some (p :: ps) =>
          l <- mapM (fun param => _serial_varname2dist_var (name param)) (p :: ps) ;;
          ret (Some l)
      | other => ret other
      end ;;
    params_and_grads <-
      liftEnv (_auto_backward dist_loss parameter_list no_grad_set callbacks) ;;
    _ <- liftEnv (complete_backward_annotation K) ;;
    dist_ops <- gets (fun w => ops (global_block (dist_main_program (env w)))) ;;
    let scan := scan_first_backward dist_ops 0 ∅ in
    let first_backward_op_idx := fst scan in
    let forward_op_id2forward_op := snd scan in
    _ <- assert_ (0 <=? first_backward_op_idx) NoBackwardOps ;;
    _ <- assert_ (negb (Nat.eqb (size forward_op_id2forward_op) 0)) NoForwardOps ;;
    let backward_ops := drop (Z.to_nat first_backward_op_idx) dist_ops in
    _ <- for_each (transpile_backward_op forward_op_id2forward_op) backward_ops ;;
    ret params_and_grads
  else raise NotImplemented.

Definition _sharding_backward_transpile : M World unit :=
  raise NotSupported.

(** [apply_backward_impl].  With the sharding flag set, the call of the
    sharding hook evaluates two names that are bound nowhere. *)
Definition apply_backward_impl (serial_loss : Var)
    (serial_main_program serial_startup_program : Program)
    (parameter_list no_grad_set : option (list Var))
    (callbacks : option (list Callback)) : M World (list (Var * Var)) :=
  params_grads <- _dist_var_op_backward_transpile serial_loss serial_main_program
                    serial_startup_program None None None ;;
  do_sharding <- gets (fun w => sharding (_dist_strategy (self w))) ;;
  _ <- (if do_sharding then raise PyNameError else ret tt) ;;
  ret params_grads.

Definition apply_backward (serial_loss : Var)
    (serial_main_program serial_startup_program : Program)
    (parameter_list no_grad_set : option (list Var))
    (callbacks : option (list Callback)) : M World (list (Var * Var)) :=
  apply_backward_impl serial_loss serial_main_program serial_startup_program
    None None None.

End Partitioner.

(** ** Sessions *)

(** A partitioning session is a sequence of steps run on one partitioner:
    the public phases, and the units of work the forward phase is made of. *)
Inductive Step : Type :=
  | TranspileForward (serial_main_program serial_startup_program : Program)
  | ForwardTranspile (serial_main_program : Program)
      (serial_startup_program : option Program)
  | TranspileOp (serial_main_block : Block) (op : Operator)
  | PartitionInputVar (serial_main_block : Block) (serial_input_varname : string)
  | PartitionOutputVar (serial_main_block : Block) (serial_output_varname : string)
  | PartitionOp (op : Operator)
  | ApplyBackward (serial_loss : Var)
      (serial_main_program serial_startup_program : Program)
      (parameter_list no_grad_set : option (list Var))
      (callbacks : option (list Callback)).

(** The world a step leaves behind, whether it returned or raised. *)
Definition run_step (K : Collaborators) (s : Step) (w : World) : World :=
  match s with
  | TranspileForward m st => fst (transpile_forward K m st w)
  | ForwardTranspile m st => fst (_dist_var_op_forward_transpile K m st w)
  | TranspileOp b op => fst (transpile_op K b op w)
  | PartitionInputVar b n => fst (partition_input_var b n w)
  | PartitionOutputVar b n => fst (partition_output_var b n w)
  | PartitionOp op => fst (partition_op K op w)
  | ApplyBackward l m st pl ngs cb => fst (apply_backward K l m st pl ngs cb w)
  end.

Definition run_steps (K : Collaborators) (steps : list Step) (w : World) : World :=
  fold_left (fun w s => run_step K s w) steps w.

(** The renaming table of the partitioner in a world. *)
Definition renaming_table (w : World) : gmap string string :=
  _serial2dist_varname_mapping (self w).

(** The destination program a [Dst] designates, when it exists. *)
Definition dst_program (d : Dst) (e : Env) : option Program :=
  match d with
  | DstMain => Some (dist_main_program e)
  | DstStartup => dist_startup_program e
  end.

(** The variable registered under a name in a destination program. *)
Definition dst_var (d : Dst) (e : Env) (n : string) : option Var :=
  match dst_program d e with
  | Some p => find_var (vars (global_block p)) n
  | None => None
  end.

(** ** Vocabulary of the statements *)

(** In a well-formed attribute every distributed dimension names an existing
    mesh axis of non-zero extent. *)
Definition axes_resolve (var : Var) (a : TensorDistributedAttribute) : Prop :=
  forall (idx : nat) (s m : Z),
    shape var !! idx = Some s -> t_dims_mapping a !! idx = Some m ->
    s = -1 \/ m = -1 \/ exists e, py_getitem (t_topology a) m = inr e /\ e <> 0.

(** The fields of a partitioner that are set once, at construction. *)
Definition config (p : Partitioner) : DistributedStrategy * Z * string * bool :=
  (_dist_strategy p, _rank_id p, _dist_varname_suffix p,
   _compatible_with_auto_backward p).

(** [grows p p']: [p'] is [p] with a renaming table that keeps every entry of
    [p] and has, for any other name, either no entry or the name followed by
    the suffix. *)
Definition grows (p p' : Partitioner) : Prop :=
  config p' = config p /\
  forall k : string,
    match _serial2dist_varname_mapping p !! k with
    | Some v => _serial2dist_varname_mapping p' !! k = Some v
    | None =>
        _serial2dist_varname_mapping p' !! k = None \/
        _serial2dist_varname_mapping p' !! k
        = Some (String.append k (_dist_varname_suffix p))
    end.

(** A computation whose every run, returning or raising, grows the
    partitioner. *)
Definition extends {A} (c : M World A) : Prop :=
  forall w : World, grows (self w) (self (fst (c w))).

(** The cases in which the forward loop hands an operator to the default
    implementation: nothing is registered for its type; or its attribute
    carries a negative implementation index; or the implementation its index
    selects does not declare the forward transform. *)
Definition falls_back (K : Collaborators) (c : DistributedContext) (op : Operator)
  : Prop :=
  get_distributed_operator K (op_type op) = None \/
  (exists a, get_op_distributed_attr_for_program c op = Some a /\ o_impl_idx a < 0) \/
  (exists d a impl,
      get_distributed_operator K (op_type op) = Some d /\
      get_op_distributed_attr_for_program c op = Some a /\
      0 <= o_impl_idx a /\
      get_impl d (o_impl_idx a) = inr impl /\
      _forward_implemented impl = false).

(** ** The remaining functions of the module *)

(** [for x in l: if test(x): return True] followed by [return False]. *)
Fixpoint anyR {A} (test : A -> Result bool) (l : list A) : Result bool :=
  match l with
  | [] => inr false
  | x :: l' =>
      b <-r test x ;;
      if b then inr true else anyR test l'
  end.

(** The test of the loop of [_is_distributed]:
    [mapping[idx] >= 0 and mesh[mapping[idx]] > 1]. *)
Definition is_distributed_dim (mapping mesh : list Z) (idx : nat) : Result bool :=
  m <-r py_getitem mapping (Z.of_nat idx) ;;
  if 0 <=? m then
    m' <-r py_getitem mapping (Z.of_nat idx) ;;
    e <-r py_getitem mesh m' ;;
    inr (1 <? e)
  else inr false.

Definition _is_distributed (dist_attr : TensorDistributedAttribute) : Result bool :=
  let mapping := t_dims_mapping dist_attr in
  let mesh := t_topology dist_attr in
  anyR (is_distributed_dim mapping mesh) (seq 0 (length mapping)).

(** [Partitioner._is_var_distributed] *)
Definition _is_var_distributed (c : DistributedContext) (var : Var) : Result bool :=
  let dist_attr := get_tensor_distributed_attr_for_program c var in
  match dist_attr with
  | None => inl MissingDistAttr
  | Some a => _is_distributed a
  end.

(** [new_op_desc._rename_input(old, new)] *)
Definition _rename_input (old new : string) (slots : list (string * list string))
  : list (string * list string) :=
  map (fun slot => (fst slot,
                    map (fun n => if String.eqb n old then new else n) (snd slot)))
      slots.

(** Updating the operator descriptor appended last to a program. *)
Definition modify_last_op (f : Operator -> Operator) (p : Program) : Program :=
  {| global_block :=
       {| vars := vars (global_block p);
          ops := alter f (Nat.pred (length (ops (global_block p))))
                   (ops (global_block p)) |} |}.

Definition set_inputs (f : list (string * list string) -> list (string * list string))
    (op : Operator) : Operator :=
  {| op_id := op_id op; op_type := op_type op; op_role := op_role op;
     inputs := f (inputs op); outputs := outputs op;
     attr_shape := attr_shape op |}.

Definition set_outputs (f : list (string * list string) -> list (string * list string))
    (op : Operator) : Operator :=
  {| op_id := op_id op; op_type := op_type op; op_role := op_role op;
     inputs := inputs op; outputs := f (outputs op);
     attr_shape := attr_shape op |}.

(** [_insert_src_op]: the descriptor is appended to the destination block
    first and renamed in place, one argument name after the other, so a
    [KeyError] leaves the partly renamed descriptor behind.  The block of
    the embedding is the descriptor the final [_sync_with_cpp] exposes. *)
Definition _insert_src_op (src_op : Operator) (dst : Dst)
    (varname_mapping : gmap string string) : M Env unit :=
  i <- fresh_id ;;
  _ <- update_dst dst
         (add_op {| op_id := i; op_type := op_type src_op; op_role := op_role src_op;
                    inputs := inputs src_op; outputs := outputs src_op;
                    attr_shape := attr_shape src_op |}) ;;
  _ <- for_each
         (fun local_varname =>
            new <- liftR (dict_getitem varname_mapping local_varname) ;;
            update_dst dst (modify_last_op (set_inputs (_rename_input local_varname new))))
         (input_arg_names src_op) ;;
  for_each
    (fun local_varname =>
       new <- liftR (dict_getitem varname_mapping local_varname) ;;
       update_dst dst (modify_last_op (set_outputs (_rename_output local_varname new))))
    (output_arg_names src_op).

(** *** The optimize phase *)

(** The optimizer handed to [apply_optimize]: its [apply_gradients], run
    under the guard of the two destination programs. *)
Definition Optimizer : Type := list (Var * Var) -> M Env (list Operator).

Section Optimize.

(** The completion pass of the update phase, imported by the module. *)
Context (complete_update_annotation : M Env unit).

Definition _optimize_transpile (user_define_optimizer : Optimizer)
    (params_grads : list (Var * Var)) : M World (list Operator) :=
  optimize_ops <- liftEnv (user_define_optimizer params_grads) ;;
  _ <- liftEnv complete_update_annotation ;;
  ret optimize_ops.

(** [apply_optimize_impl].  With the sharding flag set it calls a name that
    is bound nowhere in the module. *)
Definition apply_optimize_impl (user_define_optimizer : Optimizer)
    (params_grads : list (Var * Var)) : M World (list Operator) :=
  do_sharding <- gets (fun w => sharding (_dist_strategy (self w))) ;;
  params_grads <- (if do_sharding then raise PyNameError else ret params_grads) ;;
  _optimize_transpile user_define_optimizer params_grads.

Definition apply_optimize (user_define_optimizer : Optimizer)
    (params_grads : list (Var * Var)) : M World (list Operator) :=
  apply_optimize_impl user_define_optimizer params_grads.

End Optimize.

(** *** Vocabulary of the further statements *)

(** A computation whose every run relates the partitioner before to the
    partitioner after. *)
Definition respects {A} (R : Partitioner -> Partitioner -> Prop) (c : M World A)
  : Prop :=
  forall w : World, R (self w) (self (fst (c w))).

(** [within N p p']: every key of the renaming table of [p'] is a key of the
    table of [p] or satisfies [N]. *)
Definition within (N : string -> Prop) (p p' : Partitioner) : Prop :=
  forall k : string,
    is_Some (_serial2dist_varname_mapping p' !! k) ->
    is_Some (_serial2dist_varname_mapping p !! k) \/ N k.

(** The names the operators of a block refer to. *)
Definition referenced (b : Block) (k : string) : Prop :=
  exists op, op ∈ ops b /\ (k ∈ input_arg_names op \/ k ∈ output_arg_names op).

(** A well-formed attribute: every mapping entry is -1 or an axis of the mesh,
    and every extent of the mesh is positive. *)
Definition well_formed_attr (a : TensorDistributedAttribute) : Prop :=
  (forall m, m ∈ t_dims_mapping a ->
             m = -1 \/ (0 <= m < Z.of_nat (length (t_topology a)))) /\
  (forall e, e ∈ t_topology a -> 0 < e).

(** The faults of the shape loop. *)
Definition shape_fault (f : Fault) : Prop :=
  f = PyIndexError \/ f = PyZeroDivisionError \/ f = UnevenPartition.


(** The cross-reference from gradient operator id to forward operator id
    held by the helper. *)
Definition cross_reference (w : World) : gmap nat nat :=
  gradopidx2opidx (_dist_op_helper (auto_parallel_context (env w))).

(** The invariant of the two locals of the startup handling: every
    destination name recorded in [temp_varname_map] has its shape recorded in
    [param2shape]. *)
Definition startup_locals_ok (acc : gmap string string * gmap string (list Z))
  : Prop :=
  forall k v, fst acc !! k = Some v -> is_Some (snd acc !! v).

(** Applying one function to every variable name of a list of slots. *)
Definition map_slots (f : string -> string) (slots : list (string * list string))
  : list (string * list string) :=
  map (fun slot => (fst slot, map f (snd slot))) slots.

(** The image of a name under a renaming table, the name itself when the
    table does not hold it. *)
Definition image (m : gmap string string) (n : string) : string :=
  default n (m !! n).

(** A table does not interfere on a list of names when none of them is mapped
    to another name of the list. *)
Definition non_interfering (m : gmap string string) (names : list string) : Prop :=
  forall a, a ∈ names -> image m a ∈ names -> image m a = a.

(** The environment with one destination program replaced. *)
Definition put_dst (d : Dst) (q : Program) (e : Env) : Env :=
  match d with
  | DstMain => with_main (fun _ => q) e
  | DstStartup => with_startup (fun _ => Some q) e
  end.

(** The distributed main block of a world. *)
Definition dist_block_of (w : World) : Block :=
  global_block (dist_main_program (env w)).

(** Every listed variable whose name is in the renaming table has its
    distributed counterpart in the distributed main block. *)
Definition counterparts_exist (w : World) (l : list Var) : Prop :=
  forall p d, p ∈ l -> renaming_table w !! name p = Some d ->
              is_Some (find_var (vars (dist_block_of w)) d).

(** *** The backward transpilation past the check of the loss *)

(** The update of [parameter_list] and of [no_grad_set] (lines 442-454):
    [if l: l = [self._serial_varname2dist_var(param.name, ...) for param in l]].
    A list that is not empty is replaced by the list of the distributed
    counterparts of its variables; [None] and the empty list are kept. *)
Definition translate_list (l : option (list Var)) : M World (option (list Var)) :=
  match l with
  | Some (p :: ps) =>
      l' <- mapM (fun param => _serial_varname2dist_var (name param)) (p :: ps) ;;
      ret (Some l')
  | other => ret other
  end.

(** Lines 465-514 of [_dist_var_op_backward_transpile]: what it runs once
    the autodiff driver has returned [params_and_grads]. *)
Definition backward_transpile_after_autodiff (K : Collaborators)
    (params_and_grads : list (Var * Var)) : M World (list (Var * Var)) :=
  _ <- liftEnv (complete_backward_annotation K) ;;
  dist_ops <- gets (fun w => ops (global_block (dist_main_program (env w)))) ;;
  let scan := scan_first_backward K dist_ops 0 ∅ in
  let first_backward_op_idx := fst scan in
  let forward_op_id2forward_op := snd scan in
  _ <- assert_ (0 <=? first_backward_op_idx) NoBackwardOps ;;
  _ <- assert_ (negb (Nat.eqb (size forward_op_id2forward_op) 0)) NoForwardOps ;;
  let backward_ops := drop (Z.to_nat first_backward_op_idx) dist_ops in
  _ <- for_each (transpile_backward_op K forward_op_id2forward_op) backward_ops ;;
  ret params_and_grads.

(** Lines 442-514 of [_dist_var_op_backward_transpile]: what it runs once
    the distributed loss [dist_loss] has passed the assertion of line 437. *)
Definition backward_transpile_after_loss_check (K : Collaborators) (dist_loss : Var)
    (parameter_list no_grad_set : option (list Var))
    (callbacks : option (list Callback)) : M World (list (Var * Var)) :=
  parameter_list <- translate_list parameter_list ;;
  no_grad_set <- translate_list no_grad_set ;;
  params_and_grads <-
    liftEnv (_auto_backward K dist_loss parameter_list no_grad_set callbacks) ;;
  backward_transpile_after_autodiff K params_and_grads.

(** ** Concrete scenarios *)

(** The inputs the scenarios of the specification and the examples below are
    run on. *)
Module Scenario.

Definition default_kwargs : ParameterKwargs :=
  {| trainable := true; optimize_attr := 1; regularizer := None;
     do_model_average := None; need_clip := true |}.

Definition tensor (i : nat) (nm : string) (shp : list Z)
    (kw : option ParameterKwargs) : Var :=
  {| desc_id := i; name := nm; type := LOD_TENSOR; shape := shp;
     dtype := Some FP32; lod_level := Some 0; persistable := false;
     error_clip := None; stop_gradient := false; is_data := false;
     belong_to_optimizer := false; parameter := kw |}.

(** A 4-way mesh and a mapping that splits dimension 0 over its axis 0. *)
Definition split_dim0_mesh4 : TensorDistributedAttribute :=
  {| t_topology := [4]; t_dims_mapping := [0; -1];
     _owner_tensor := 1; _owner_context := 0 |}.

Definition param_256_64 : Var := tensor 1 "w" [256; 64] (Some default_kwargs).

Definition param_255_64 : Var := tensor 1 "w" [255; 64] (Some default_kwargs).

(** A block that declares the uneven parameter and an environment whose
    context annotates it. *)
Definition block_255 : Block := {| vars := [("w", param_255_64)]; ops := [] |}.

Definition env_255 : Env :=
  {| auto_parallel_context :=
       {| _tensor_distributed_attr_map_for_program := {[ 1%nat := split_dim0_mesh4 ]};
          _op_distributed_attr_map_for_program := ∅;
          _dist_op_helper :=
            {| h_rank_id := 0; h_cur_src_op := None; gradopidx2opidx := ∅ |} |};
     dist_main_program := empty_program;
     dist_startup_program := None;
     next_desc_id := 100 |}.

End Scenario.

(** *** A registry, a helper and an autodiff engine to run the phases with *)

Module Demo.

Import Scenario.

Definition rename_slots (mapping : gmap string string)
    (slots : list (string * list string)) : Result Kwargs :=
  mapR (fun slot =>
          names <-r mapR (dict_getitem mapping) (snd slot) ;;
          inr (fst slot, names))
       slots.

Definition set_cur_src_op (op : Operator) (c : DistributedContext) : DistributedContext :=
  set_helper {| h_rank_id := h_rank_id (_dist_op_helper c);
                h_cur_src_op := Some op;
                gradopidx2opidx := gradopidx2opidx (_dist_op_helper c) |} c.

(** The helper renames every slot of the operator through the table. *)
Definition prepare_forward (mapping : gmap string string) (op : Operator)
  : M Env (Kwargs * Kwargs) :=
  _ <- modify (with_context (set_cur_src_op op)) ;;
  kinputs <- liftR (rename_slots mapping (inputs op)) ;;
  koutputs <- liftR (rename_slots mapping (outputs op)) ;;
  ret (kinputs, koutputs).

Definition prepare_backward (mapping : gmap string string) (op : Operator)
  : M Env (Kwargs * Kwargs) :=
  _ <- modify (with_context (set_cur_src_op op)) ;;
  ret (inputs op, outputs op).

(** The replicate transform: the current source operator, with the renamed
    slots it is handed, appended to the destination main program. *)
Definition replicate_forward (mapping : gmap string string) (kwargs : Kwargs)
  : M Env unit :=
  cur <- gets (fun e => h_cur_src_op (_dist_op_helper (auto_parallel_context e))) ;;
  match cur with
  | None => raise (CollaboratorFault 0)
  | Some op =>
      i <- fresh_id ;;
      update_dst DstMain
        (add_op {| op_id := i; op_type := op_type op; op_role := op_role op;
                   inputs := take (length (inputs op)) kwargs;
                   outputs := drop (length (inputs op)) kwargs;
                   attr_shape := attr_shape op |})
  end.

Definition no_backward (mapping : gmap string string) (kwargs : Kwargs) : M Env unit :=
  ret tt.

Definition replicate_impl : DistributedOperatorImpl :=
  {| _forward_implemented := true; _backward_implemented := true;
     forward := replicate_forward; backward := no_backward |}.

(** An implementation that declares the forward transform only. *)
Definition matmul_impl : DistributedOperatorImpl :=
  {| _forward_implemented := true; _backward_implemented := false;
     forward := replicate_forward; backward := no_backward |}.

Definition registry (t : string) : option DistributedOperator :=
  if String.eqb t "default" then Some {| _impls := [replicate_impl] |}
  else if String.eqb t "matmul" then Some {| _impls := [matmul_impl] |}
  else None.

(** An autodiff engine that appends one backward operator and pairs every
    selected parameter with itself: the parameters of the list when one is
    given, all parameters of the program otherwise, minus the no-grad set. *)
Definition autodiff (loss : Var) (parameter_list : option (list Var))
    (no_grad_set : gset string) (callbacks : list Callback)
  : M Env (list (Var * Var)) :=
  i <- fresh_id ;;
  _ <- update_dst DstMain
         (add_op {| op_id := i; op_type := "mean_grad"; op_role := 1;
                    inputs := [("Out@GRAD", [name loss])];
                    outputs := [("X@GRAD", [name loss])];
                    attr_shape := None |}) ;;
  program <- gets dist_main_program ;;
  let params :=
    match parameter_list with
    | Some l => l
    | None => all_parameters (global_block program)
    end in
  ret (map (fun p => (p, p))
         (filter (fun p => name p ∉ no_grad_set) params)).

Definition K : Collaborators :=
  {| get_distributed_operator := registry;
     prepare_forward_context := prepare_forward;
     prepare_backward_context := prepare_backward;
     append_backward := autodiff;
     complete_backward_annotation := ret tt;
     error_clip_callback := 0%nat;
     OpRole_Forward := 0;
     OpRole_Backward := 1;
     OpRole_Loss := 256 |}.

(** A serial program: [y = matmul(x, w)], [loss = mean(y)], with [w] split
    four ways along its rows and the loss, of shape [4], split four ways. *)
Definition x : Var := tensor 1 "x" [8; 256] None.
Definition w : Var := tensor 2 "w" [256; 64] (Some default_kwargs).
Definition y : Var := tensor 3 "y" [8; 64] None.
Definition loss : Var := tensor 4 "loss" [4] None.

Definition matmul_op : Operator :=
  {| op_id := 10; op_type := "matmul"; op_role := 0;
     inputs := [("X", ["x"]); ("Y", ["w"])]; outputs := [("Out", ["y"])];
     attr_shape := None |}.

Definition mean_op : Operator :=
  {| op_id := 11; op_type := "mean"; op_role := 256;
     inputs := [("X", ["y"])]; outputs := [("Out", ["loss"])];
     attr_shape := None |}.

Definition fill_op : Operator :=
  {| op_id := 12; op_type := "fill_constant"; op_role := 0;
     inputs := []; outputs := [("Out", ["w"])];
     attr_shape := Some [256; 64] |}.

Definition serial_main : Program :=
  {| global_block :=
       {| vars := [("x", x); ("w", w); ("y", y); ("loss", loss)];
          ops := [matmul_op; mean_op] |} |}.

Definition serial_startup : Program :=
  {| global_block :=
       {| vars := [("w", tensor 5 "w" [256; 64] (Some default_kwargs))];
          ops := [fill_op] |} |}.

Definition tensor_attr (i : nat) (mapping : list Z) : TensorDistributedAttribute :=
  {| t_topology := [4]; t_dims_mapping := mapping;
     _owner_tensor := i; _owner_context := 0 |}.

Definition op_attr (i : nat) (idx : Z) : OperatorDistributedAttribute :=
  {| o_owner_op := i; o_topology := Some [4]; o_impl_idx := idx;
     o_input_dims_mapping := []; o_output_dims_mapping := [] |}.

Definition context : DistributedContext :=
  {| _tensor_distributed_attr_map_for_program :=
       <[1%nat := tensor_attr 1 [-1; -1]]>
         (<[2%nat := tensor_attr 2 [0; -1]]>
            (<[3%nat := tensor_attr 3 [-1; -1]]>
               (<[4%nat := tensor_attr 4 [0]]>
                  (<[6%nat := tensor_attr 6 [-1; -1]]> ∅))));
     _op_distributed_attr_map_for_program :=
       <[10%nat := op_attr 10 0]> (<[11%nat := op_attr 11 (-1)]> ∅);
     _dist_op_helper :=
       {| h_rank_id := 0; h_cur_src_op := None; gradopidx2opidx := ∅ |} |}.

Definition env0 : Env :=
  {| auto_parallel_context := context;
     dist_main_program := empty_program;
     dist_startup_program := None;
     next_desc_id := 100 |}.

(** A fresh partitioner, without and with the sharding flag. *)
Definition fresh : World :=
  {| self := __init__ {| sharding := false |} 0; env := env0 |}.

Definition fresh_sharding : World :=
  {| self := __init__ {| sharding := true |} 0; env := env0 |}.

(** A program with an operator the context holds no attribute for. *)
Definition relu_op : Operator :=
  {| op_id := 13; op_type := "relu"; op_role := 0;
     inputs := [("X", ["x"])]; outputs := [("Out", ["y"])];
     attr_shape := None |}.

Definition unannotated_main : Program :=
  {| global_block := {| vars := [("x", x); ("y", y)]; ops := [relu_op] |} |}.

(** An operator of a registered type the context holds no attribute for. *)
Definition matmul_unannotated : Operator :=
  {| op_id := 14; op_type := "matmul"; op_role := 0;
     inputs := [("X", ["x"]); ("Y", ["w"])]; outputs := [("Out", ["y"])];
     attr_shape := None |}.

(** The same program with a loss of shape [8, 1], not distributed. *)
Definition loss_8_1 : Var := tensor 6 "loss" [8; 1] None.

Definition serial_main_rank2 : Program :=
  {| global_block :=
       {| vars := [("x", x); ("w", w); ("y", y); ("loss", loss_8_1)];
          ops := [matmul_op; mean_op] |} |}.

(** A parameter that no program declares. *)
Definition ghost : Var := tensor 7 "ghost" [3] (Some default_kwargs).

(** A reader variable that takes part in gradients and has an element type. *)
Definition reader : Var :=
  {| desc_id := 8; name := "reader"; type := READER; shape := [];
     dtype := Some FP32; lod_level := None; persistable := false;
     error_clip := None; stop_gradient := false; is_data := false;
     belong_to_optimizer := false; parameter := None |}.

Definition reader_block : Block := {| vars := [("reader", reader)]; ops := [] |}.

(** The world after the forward phase. *)
Definition forwarded : World :=
  fst (transpile_forward K serial_main serial_startup fresh).

(** The world after the forward phase on the program with the rank-2 loss. *)
Definition forwarded_rank2 : World :=
  fst (transpile_forward K serial_main_rank2 serial_startup fresh).

End Demo.

(** ** Further scenarios *)

Module Scenario2.

Import Scenario.

Definition mesh_attr (mesh mapping : list Z) : TensorDistributedAttribute :=
  {| t_topology := mesh; t_dims_mapping := mapping;
     _owner_tensor := 20; _owner_context := 0 |}.

(** A tensor of shape [8, 6], both dimensions mapped. *)
Definition t_8_6 : Var := tensor 20 "t" [8; 6] None.

(** Dimension 1 mapped to an axis the mesh does not have, to an axis of
    extent zero, and to an axis of extent 4. *)
Definition axis_missing : TensorDistributedAttribute := mesh_attr [4] [0; 1].
Definition axis_empty : TensorDistributedAttribute := mesh_attr [4; 0] [0; 1].
Definition axis_uneven : TensorDistributedAttribute := mesh_attr [4; 4] [0; 1].

(** A replicated attribute and an attribute over a mesh of one process. *)
Definition replicated : TensorDistributedAttribute := mesh_attr [4] [-1; -1].
Definition single_process : TensorDistributedAttribute := mesh_attr [1; 1] [0; 1].

(** A context that annotates [t_8_6] over the mesh of one process, and an
    environment around it. *)
Definition single_process_context : DistributedContext :=
  {| _tensor_distributed_attr_map_for_program := {[ 20%nat := single_process ]};
     _op_distributed_attr_map_for_program := ∅;
     _dist_op_helper :=
       {| h_rank_id := 0; h_cur_src_op := None; gradopidx2opidx := ∅ |} |}.

(** A gradient operator, and a frozen parameter in a program of its own. *)
Definition mean_grad_op : Operator :=
  {| op_id := 30; op_type := "mean_grad"; op_role := 1;
     inputs := [("Out@GRAD", ["loss"])]; outputs := [("X@GRAD", ["y"])];
     attr_shape := None |}.

Definition frozen : Var :=
  tensor 31 "frozen" [4]
    (Some {| trainable := false; optimize_attr := 1; regularizer := None;
             do_model_average := None; need_clip := true |}).

Definition frozen_program : Program :=
  {| global_block := {| vars := [("w", Demo.w); ("frozen", frozen)]; ops := [] |} |}.

End Scenario2.

(** * Properties *)

(** ** Generic facts about the two monads *)

Lemma mapR_inr {A B} (f : A -> Result B) (l : list A) (r : list B) :
  mapR f l = inr r ->
  length r = length l /\
  forall (i : nat) x, l !! i = Some x -> exists y, r !! i = Some y /\ f x = inr y.
Proof.
  revert r. induction l as [|a l IH]; intros r H; simpl in H.
  - injection H as <-. split; [reflexivity|]. intros i x Hi. discriminate.
  - destruct (f a) as [e|y] eqn:Hfa; simpl in H; [discriminate|].
    destruct (mapR f l) as [e|ys] eqn:Hl; simpl in H; [discriminate|].
    injection H as <-. destruct (IH ys eq_refl) as [Hlen Hall].
    split; [simpl; congruence|].
    intros [|i] x Hi; simpl in Hi.
    + injection Hi as <-. exists y. split; [reflexivity|assumption].
    + apply Hall in Hi. exact Hi.
Qed.

Lemma mapR_total {A B} (f : A -> Result B) (l : list A) :
  (forall x, x ∈ l -> exists y, f x = inr y) ->
  exists r, mapR f l = inr r.
Proof.
  induction l as [|a l IH]; intros H; simpl.
  - exists []. reflexivity.
  - destruct (H a) as [y Hy]; [left|]. rewrite Hy. simpl.
    destruct IH as [ys Hys]; [intros x Hx; apply H; right; exact Hx|].
    rewrite Hys. simpl. exists (y :: ys). reflexivity.
Qed.

(** When every element either succeeds or raises [e], and one raises [e], the
    comprehension raises [e]. *)
Lemma mapR_raises {A B} (f : A -> Result B) (l : list A) (e : Fault) :
  (forall x, x ∈ l -> (exists y, f x = inr y) \/ f x = inl e) ->
  (exists x, x ∈ l /\ f x = inl e) ->
  mapR f l = inl e.
Proof.
  induction l as [|a l IH]; intros Hall [x [Hx Hfx]].
  - inversion Hx.
  - simpl. destruct (Hall a) as [[y Hy]|Ha]; [left| |].
    + rewrite Hy. simpl. rewrite IH; [reflexivity| |].
      * intros z Hz. apply Hall. right. exact Hz.
      * apply elem_of_cons in Hx as [->|Hx]; [congruence|].
        exists x. split; assumption.
    + rewrite Ha. reflexivity.
Qed.

Lemma py_getitem_nat {A} (l : list A) (i : nat) (x : A) :
  l !! i = Some x -> py_getitem l (Z.of_nat i) = inr x.
Proof.
  intros H. unfold py_getitem.
  pose proof (lookup_lt_Some _ _ _ H) as Hlt.
  destruct (Z.ltb_spec (Z.of_nat i) 0) as [Hneg|_]; [lia|].
  destruct (Z.ltb_spec (Z.of_nat i) 0) as [Hneg|_]; [lia|].
  destruct (Z.leb_spec (Z.of_nat (length l)) (Z.of_nat i)) as [Hge|_]; [lia|].
  simpl. rewrite Nat2Z.id, H. reflexivity.
Qed.

(** ** Shape partitioning *)

(** What one iteration of the shape loop computes, by cases. *)
Lemma dist_dim_eq (var_shape mapping mesh : list Z) (idx : nat) (s m : Z) :
  var_shape !! idx = Some s ->
  mapping !! idx = Some m ->
  dist_dim var_shape mapping mesh idx =
    if s =? -1 then inr s
    else if m =? -1 then inr s
    else
      e <-r py_getitem mesh m ;;
      r <-r py_mod s e ;;
      _ <-r assertR (r =? 0) UnevenPartition ;;
      e' <-r py_getitem mesh m ;;
      py_floordiv s e'.
Proof.
  intros Hs Hm. unfold dist_dim.
  rewrite (py_getitem_nat _ _ _ Hs). simpl.
  destruct (s =? -1); [reflexivity|].
  rewrite (py_getitem_nat _ _ _ Hm). reflexivity.
Qed.

Lemma dist_dim_even (var_shape mapping mesh : list Z) (idx : nat) (s m e : Z) :
  var_shape !! idx = Some s ->
  mapping !! idx = Some m ->
  s <> -1 -> m <> -1 ->
  py_getitem mesh m = inr e -> e <> 0 -> s mod e = 0 ->
  dist_dim var_shape mapping mesh idx = inr (s / e).
Proof.
  intros Hs Hm Hs1 Hm1 He He0 Hmod.
  rewrite (dist_dim_eq _ _ _ _ _ _ Hs Hm).
  destruct (Z.eqb_spec s (-1)); [contradiction|].
  destruct (Z.eqb_spec m (-1)); [contradiction|].
  rewrite He. simpl. unfold py_mod, py_floordiv.
  destruct (Z.eqb_spec e 0); [contradiction|]. simpl.
  rewrite Hmod. reflexivity.
Qed.

Lemma dist_dim_uneven (var_shape mapping mesh : list Z) (idx : nat) (s m e : Z) :
  var_shape !! idx = Some s ->
  mapping !! idx = Some m ->
  s <> -1 -> m <> -1 ->
  py_getitem mesh m = inr e -> e <> 0 -> s mod e <> 0 ->
  dist_dim var_shape mapping mesh idx = inl UnevenPartition.
Proof.
  intros Hs Hm Hs1 Hm1 He He0 Hmod.
  rewrite (dist_dim_eq _ _ _ _ _ _ Hs Hm).
  destruct (Z.eqb_spec s (-1)); [contradiction|].
  destruct (Z.eqb_spec m (-1)); [contradiction|].
  rewrite He. simpl. unfold py_mod.
  destruct (Z.eqb_spec e 0); [contradiction|]. simpl.
  destruct (Z.eqb_spec (s mod e) 0); [contradiction|]. reflexivity.
Qed.

Lemma dist_dim_keep (var_shape mapping mesh : list Z) (idx : nat) (s m : Z) :
  var_shape !! idx = Some s ->
  mapping !! idx = Some m ->
  s = -1 \/ m = -1 ->
  dist_dim var_shape mapping mesh idx = inr s.
Proof.
  intros Hs Hm Hkeep.
  rewrite (dist_dim_eq _ _ _ _ _ _ Hs Hm).
  destruct (Z.eqb_spec s (-1)); [reflexivity|].
  destruct (Z.eqb_spec m (-1)); [reflexivity|].
  destruct Hkeep; contradiction.
Qed.

Lemma lookup_both (var_shape mapping : list Z) (idx : nat) :
  length var_shape = length mapping ->
  idx ∈ seq 0 (length var_shape) ->
  exists s m, var_shape !! idx = Some s /\ mapping !! idx = Some m.
Proof.
  intros Hlen Hin. apply elem_of_seq in Hin as [_ Hlt]. simpl in Hlt.
  destruct (lookup_lt_is_Some_2 var_shape idx Hlt) as [s Hs].
  destruct (lookup_lt_is_Some_2 mapping idx) as [m Hm]; [lia|].
  exists s, m. split; assumption.
Qed.

Lemma get_dist_shape_unfold (var : Var) (a : TensorDistributedAttribute) :
  length (shape var) = length (t_dims_mapping a) ->
  _get_dist_shape var (Some a) =
    mapR (dist_dim (shape var) (t_dims_mapping a) (t_topology a))
      (seq 0 (length (shape var))).
Proof.
  intros Hlen. unfold _get_dist_shape. rewrite Hlen, Nat.eqb_refl. simpl.
  rewrite <- Hlen. reflexivity.
Qed.

(** C1: for a variable whose shape and dimension mapping have the same
    length, and whose distributed dimensions are evenly divisible by the
    extent of the mesh axis they map to, [_get_dist_shape] returns a shape of
    the same rank computed dimension by dimension: a wildcard dimension or a
    dimension mapped to -1 keeps its size; any other dimension gets the
    global size divided by the extent, so that local size times extent is the
    global size. *)
Theorem get_dist_shape_dimension_wise (var : Var) (a : TensorDistributedAttribute) :
  length (shape var) = length (t_dims_mapping a) ->
  (forall (idx : nat) (s m : Z),
      shape var !! idx = Some s -> t_dims_mapping a !! idx = Some m ->
      s = -1 \/ m = -1 \/
      exists e, py_getitem (t_topology a) m = inr e /\ e <> 0 /\ s mod e = 0) ->
  exists new_shape : list Z,
    _get_dist_shape var (Some a) = inr new_shape /\
    length new_shape = length (shape var) /\
    forall (idx : nat) (s m : Z),
      shape var !! idx = Some s -> t_dims_mapping a !! idx = Some m ->
      (s = -1 \/ m = -1 -> new_shape !! idx = Some s) /\
      (s <> -1 -> m <> -1 ->
       exists e, py_getitem (t_topology a) m = inr e /\
                 new_shape !! idx = Some (s / e) /\ (s / e) * e = s).
Proof.
  intros Hlen Hdims.
  rewrite (get_dist_shape_unfold _ _ Hlen).
  set (f := dist_dim (shape var) (t_dims_mapping a) (t_topology a)).
  assert (Hdim : forall (idx : nat) s m,
             shape var !! idx = Some s -> t_dims_mapping a !! idx = Some m ->
             (s = -1 \/ m = -1 -> f idx = inr s) /\
             (s <> -1 -> m <> -1 ->
              exists e, py_getitem (t_topology a) m = inr e /\
                        f idx = inr (s / e) /\ (s / e) * e = s)).
  { intros idx s m Hs Hm. split.
    - intros Hkeep. apply (dist_dim_keep _ _ _ _ _ _ Hs Hm Hkeep).
    - intros Hs1 Hm1.
      destruct (Hdims idx s m Hs Hm) as [?|[?|[e [He [He0 Hmod]]]]];
        [contradiction|contradiction|].
      exists e. split; [exact He|]. split.
      + apply (dist_dim_even _ _ _ _ _ _ _ Hs Hm Hs1 Hm1 He He0 Hmod).
      + pose proof (Z.div_mod s e He0) as Hdm. lia. }
  destruct (mapR_total f (seq 0 (length (shape var)))) as [r Hr].
  { intros idx Hin.
    destruct (lookup_both _ _ _ Hlen Hin) as [s [m [Hs Hm]]].
    destruct (Hdim idx s m Hs Hm) as [Hkeep Hsplit].
    destruct (Z.eq_dec s (-1)) as [Hs1|Hs1]; [exists s; auto|].
    destruct (Z.eq_dec m (-1)) as [Hm1|Hm1]; [exists s; auto|].
    destruct (Hsplit Hs1 Hm1) as [e [_ [He _]]]. exists (s / e). exact He. }
  exists r. split; [exact Hr|].
  destruct (mapR_inr _ _ _ Hr) as [Hlr Hall].
  split; [rewrite Hlr; apply length_seq|].
  intros idx s m Hs Hm.
  assert (Hseq : seq 0 (length (shape var)) !! idx = Some idx).
  { apply lookup_seq. split; [reflexivity|]. apply (lookup_lt_Some _ _ _ Hs). }
  destruct (Hall idx idx Hseq) as [y [Hy Hfy]].
  destruct (Hdim idx s m Hs Hm) as [Hkeep Hsplit]. split.
  - intros Hk. rewrite (Hkeep Hk) in Hfy. congruence.
  - intros Hs1 Hm1. destruct (Hsplit Hs1 Hm1) as [e [He [Hfe Hmul]]].
    exists e. split; [exact He|]. split; [|exact Hmul]. congruence.
Qed.

(** The scenario of the specification: shape [256, 64], mapping [0, -1], a
    mesh axis of extent 4. *)
Example get_dist_shape_256_64 :
  _get_dist_shape Scenario.param_256_64 (Some Scenario.split_dim0_mesh4)
  = inr [64; 64].
Proof. reflexivity. Qed.

Lemma get_dist_shape_dimension_wise_witness :
  length (shape Scenario.param_256_64)
  = length (t_dims_mapping Scenario.split_dim0_mesh4) /\
  exists new_shape : list Z,
    _get_dist_shape Scenario.param_256_64 (Some Scenario.split_dim0_mesh4)
    = inr new_shape /\
    length new_shape = length (shape Scenario.param_256_64) /\
    forall (idx : nat) (s m : Z),
      shape Scenario.param_256_64 !! idx = Some s ->
      t_dims_mapping Scenario.split_dim0_mesh4 !! idx = Some m ->
      (s = -1 \/ m = -1 -> new_shape !! idx = Some s) /\
      (s <> -1 -> m <> -1 ->
       exists e, py_getitem (t_topology Scenario.split_dim0_mesh4) m = inr e /\
                 new_shape !! idx = Some (s / e) /\ (s / e) * e = s).
Proof.
  split; [reflexivity|].
  apply (get_dist_shape_dimension_wise Scenario.param_256_64
           Scenario.split_dim0_mesh4); [reflexivity|].
  intros [|[|idx]] s m Hs Hm; simpl in Hs, Hm.
  - injection Hs as <-. injection Hm as <-.
    right. right. exists 4.
    split; [reflexivity|]. split; [lia|reflexivity].
  - injection Hm as <-. right. left. reflexivity.
  - discriminate Hs.
Defined.

Lemma get_dist_shape_uneven (var : Var) (a : TensorDistributedAttribute)
    (idx : nat) (s m e : Z) :
  length (shape var) = length (t_dims_mapping a) ->
  axes_resolve var a ->
  shape var !! idx = Some s -> t_dims_mapping a !! idx = Some m ->
  s <> -1 -> m <> -1 ->
  py_getitem (t_topology a) m = inr e -> s mod e <> 0 ->
  _get_dist_shape var (Some a) = inl UnevenPartition.
Proof.
  intros Hlen Hres Hs Hm Hs1 Hm1 He Hmod.
  assert (He0 : e <> 0).
  { destruct (Hres idx s m Hs Hm) as [?|[?|[e' [He' He0]]]];
      [contradiction|contradiction|congruence]. }
  rewrite (get_dist_shape_unfold _ _ Hlen).
  apply mapR_raises.
  - intros j Hin.
    destruct (lookup_both _ _ _ Hlen Hin) as [sj [mj [Hsj Hmj]]].
    destruct (Hres j sj mj Hsj Hmj) as [Hk|[Hk|[ej [Hej Hej0]]]].
    + left. exists sj. apply (dist_dim_keep _ _ _ _ _ _ Hsj Hmj). auto.
    + left. exists sj. apply (dist_dim_keep _ _ _ _ _ _ Hsj Hmj). auto.
    + destruct (Z.eq_dec sj (-1)) as [Hs1'|Hs1'].
      { left. exists sj. apply (dist_dim_keep _ _ _ _ _ _ Hsj Hmj). auto. }
      destruct (Z.eq_dec mj (-1)) as [Hm1'|Hm1'].
      { left. exists sj. apply (dist_dim_keep _ _ _ _ _ _ Hsj Hmj). auto. }
      destruct (Z.eq_dec (sj mod ej) 0) as [Hev|Hev].
      * left. exists (sj / ej).
        apply (dist_dim_even _ _ _ _ _ _ _ Hsj Hmj Hs1' Hm1' Hej Hej0 Hev).
      * right.
        apply (dist_dim_uneven _ _ _ _ _ _ _ Hsj Hmj Hs1' Hm1' Hej Hej0 Hev).
  - exists idx. split.
    + apply elem_of_seq. split; [lia|]. simpl. apply (lookup_lt_Some _ _ _ Hs).
    + apply (dist_dim_uneven _ _ _ _ _ _ _ Hs Hm Hs1 Hm1 He He0 Hmod).
Qed.

(** C2: when a dimension of a variable is mapped to a mesh axis whose extent
    does not evenly divide its global size (the attribute being well formed:
    ranks agree and every mapped axis exists with a non-zero extent),
    [_get_dist_shape] raises [UnevenPartition], and so does [_partition_var]
    on that variable, leaving the destination untouched. *)
Theorem uneven_partition_faults (var : Var) (a : TensorDistributedAttribute)
    (idx : nat) (s m e : Z) :
  length (shape var) = length (t_dims_mapping a) ->
  axes_resolve var a ->
  shape var !! idx = Some s -> t_dims_mapping a !! idx = Some m ->
  s <> -1 -> m <> -1 ->
  py_getitem (t_topology a) m = inr e -> s mod e <> 0 ->
  _get_dist_shape var (Some a) = inl UnevenPartition /\
  forall (src_block : Block) (dst : Dst) (src_varname dst_varname : string)
         (e0 : Env),
    block_var src_block src_varname = inr var ->
    is_READER var = false ->
    get_tensor_distributed_attr_for_program (auto_parallel_context e0) var = Some a ->
    _partition_var src_block dst src_varname dst_varname e0
    = (e0, inl UnevenPartition).
Proof.
  intros Hlen Hres Hs Hm Hs1 Hm1 He Hmod.
  pose proof (get_dist_shape_uneven _ _ _ _ _ _ Hlen Hres Hs Hm Hs1 Hm1 He Hmod)
    as Hfault.
  split; [exact Hfault|].
  intros src_block dst src_varname dst_varname e0 Hvar Hreader Hattr.
  unfold _partition_var, bind, liftR, gets.
  rewrite Hvar, Hreader, Hattr, Hfault. reflexivity.
Qed.

(** The scenario of the specification: shape [255, 64], mapping [0, -1], a
    mesh axis of extent 4. *)
Lemma uneven_partition_faults_witness :
  _get_dist_shape Scenario.param_255_64 (Some Scenario.split_dim0_mesh4)
  = inl UnevenPartition /\
  _partition_var Scenario.block_255 DstMain "w" "w" Scenario.env_255
  = (Scenario.env_255, inl UnevenPartition).
Proof.
  assert (Hres : axes_resolve Scenario.param_255_64 Scenario.split_dim0_mesh4).
  { intros [|[|idx]] s m Hs Hm; simpl in Hs, Hm.
    - injection Hm as <-. right. right. exists 4. split; [reflexivity|lia].
    - injection Hm as <-. right. left. reflexivity.
    - discriminate Hs. }
  assert (Hmod : 255 mod 4 <> 0) by (vm_compute; discriminate).
  pose proof (uneven_partition_faults Scenario.param_255_64
                Scenario.split_dim0_mesh4 0%nat 255 0 4
                eq_refl Hres eq_refl eq_refl
                ltac:(lia) ltac:(lia) eq_refl Hmod) as [Hshape Hvar].
  split; [exact Hshape|].
  apply Hvar; reflexivity.
Defined.

(** ** The renaming table only grows *)

Lemma grows_refl (p : Partitioner) : grows p p.
Proof.
  split; [reflexivity|]. intros k.
  destruct (_serial2dist_varname_mapping p !! k); [reflexivity|left; reflexivity].
Qed.

Lemma grows_trans (p q r : Partitioner) : grows p q -> grows q r -> grows p r.
Proof.
  intros [Hc1 H1] [Hc2 H2]. split; [congruence|].
  assert (Hsuf : _dist_varname_suffix q = _dist_varname_suffix p).
  { unfold config in Hc1. congruence. }
  intros k. specialize (H1 k). specialize (H2 k).
  destruct (_serial2dist_varname_mapping p !! k) as [v|].
  - rewrite H1 in H2. exact H2.
  - destruct H1 as [H1|H1]; rewrite H1 in H2.
    + rewrite Hsuf in H2. exact H2.
    + right. exact H2.
Qed.

Lemma grows_insert (w : World) (k : string) :
  renaming_table w !! k = None ->
  grows (self w)
    (self (set_mapping
             (<[k := String.append k (_dist_varname_suffix (self w))]>
                (_serial2dist_varname_mapping (self w))) w)).
Proof.
  intros Hk. split; [reflexivity|]. intros j. simpl.
  destruct (decide (k = j)) as [<-|Hne].
  - unfold renaming_table in Hk. rewrite Hk. right. apply lookup_insert_eq.
  - rewrite (lookup_insert_ne _ _ _ _ Hne).
    destruct (_serial2dist_varname_mapping (self w) !! j);
      [reflexivity|left; reflexivity].
Qed.

Section Extends.

Context {A B : Type}.

Lemma extends_ret (a : A) : extends (ret a).
Proof. intros w. apply grows_refl. Qed.

Lemma extends_raise (f : Fault) : extends (@raise World A f).
Proof. intros w. apply grows_refl. Qed.

Lemma extends_gets (f : World -> A) : extends (gets f).
Proof. intros w. apply grows_refl. Qed.

Lemma extends_liftR (r : Result A) : extends (liftR r).
Proof. intros w. apply grows_refl. Qed.

Lemma extends_liftEnv (c : M Env A) : extends (liftEnv c).
Proof.
  intros w. unfold liftEnv. destruct (c (env w)) as [e' r]. apply grows_refl.
Qed.

Lemma extends_bind (c : M World A) (k : A -> M World B) :
  extends c -> (forall a, extends (k a)) -> extends (bind c k).
Proof.
  intros Hc Hk w. unfold bind. specialize (Hc w).
  destruct (c w) as [w' [f|a]]; simpl in *; [exact Hc|].
  apply (grows_trans _ _ _ Hc). apply Hk.
Qed.

End Extends.

Lemma extends_assert (b : bool) (f : Fault) : extends (assert_ b f).
Proof. destruct b; [apply extends_ret|apply extends_raise]. Qed.

Lemma extends_for_each {A} (body : A -> M World unit) (l : list A) :
  (forall x, extends (body x)) -> extends (for_each body l).
Proof.
  intros Hbody. induction l as [|x l IH]; simpl.
  - apply extends_ret.
  - apply extends_bind; [apply Hbody|intros _; exact IH].
Qed.

Lemma extends_foldM {A B} (body : B -> A -> M World B) (l : list A) (acc : B) :
  (forall b x, extends (body b x)) -> extends (foldM body l acc).
Proof.
  intros Hbody. revert acc. induction l as [|x l IH]; intros acc; simpl.
  - apply extends_ret.
  - apply extends_bind; [apply Hbody|intros acc'; apply IH].
Qed.

Lemma extends_mapM {A B} (f : A -> M World B) (l : list A) :
  (forall x, extends (f x)) -> extends (mapM f l).
Proof.
  intros Hf. induction l as [|x l IH]; simpl.
  - apply extends_ret.
  - apply extends_bind; [apply Hf|]. intros y.
    apply extends_bind; [exact IH|]. intros ys. apply extends_ret.
Qed.

Create HintDb extends.

#[local] Hint Resolve extends_ret extends_raise extends_gets extends_liftR
  extends_liftEnv extends_assert : extends.

(** Solves [extends] goals on straight-line monadic code. *)
Ltac extends_step :=
  first
    [ solve [auto with extends]
    | apply extends_bind; [|intros ?]
    | apply extends_for_each; intros ?
    | apply extends_foldM; intros ? ?
    | apply extends_mapM; intros ? ].

Lemma extends_partition_input_var (b : Block) (n : string) :
  extends (partition_input_var b n).
Proof.
  intros w. unfold partition_input_var, bind, gets. simpl.
  destruct (_serial2dist_varname_mapping (self w) !! n) as [v|] eqn:Hn; simpl.
  - apply grows_refl.
  - destruct (has_var b n).
    + unfold liftEnv.
      destruct (_partition_var b DstMain n _ (env w)) as [e' [f|[]]]; simpl.
      * apply grows_refl.
      * apply (grows_insert {| self := self w; env := e' |} n Hn).
    + match goal with |- context [assert_ ?c _ _] => destruct c end; simpl.
      * apply (grows_insert w n Hn).
      * apply grows_refl.
Qed.

Lemma extends_partition_output_var (b : Block) (n : string) :
  extends (partition_output_var b n).
Proof.
  intros w. unfold partition_output_var, bind, gets. simpl.
  destruct (_serial2dist_varname_mapping (self w) !! n) as [v|] eqn:Hn; simpl.
  - apply grows_refl.
  - unfold liftEnv.
    destruct (_partition_var b DstMain n _ (env w)) as [e' [f|[]]]; simpl.
    + apply grows_refl.
    + apply (grows_insert {| self := self w; env := e' |} n Hn).
Qed.

#[local] Hint Resolve extends_partition_input_var extends_partition_output_var
  : extends.

Section ExtendsPhases.

Context (K : Collaborators).

Lemma extends_partition_op (op : Operator) : extends (partition_op K op).
Proof. unfold partition_op. repeat extends_step. Qed.

#[local] Hint Resolve extends_partition_op : extends.

Lemma extends_transpile_op (b : Block) (op : Operator) :
  extends (transpile_op K b op).
Proof.
  unfold transpile_op. repeat extends_step.
Qed.

#[local] Hint Resolve extends_transpile_op : extends.

Lemma extends_partition_startup_param (b : Block)
    (acc : gmap string string * gmap string (list Z)) (var : Var) :
  extends (partition_startup_param b acc var).
Proof.
  unfold partition_startup_param. destruct (is_Parameter var);
    repeat extends_step.
Qed.

#[local] Hint Resolve extends_partition_startup_param : extends.

Lemma extends_copy_initializer (t : gmap string string)
    (p : gmap string (list Z)) (op : Operator) :
  extends (copy_initializer t p op).
Proof.
  unfold copy_initializer. repeat extends_step.
  match goal with |- extends (match ?x with _ => _ end) => destruct x end;
    repeat extends_step.
Qed.

#[local] Hint Resolve extends_copy_initializer : extends.

Lemma extends_forward_transpile (m : Program) (st : option Program) :
  extends (_dist_var_op_forward_transpile K m st).
Proof.
  unfold _dist_var_op_forward_transpile. extends_step; [auto with extends|].
  extends_step.
  { destruct st as [startup|]; repeat extends_step. }
  repeat extends_step.
Qed.

#[local] Hint Resolve extends_forward_transpile : extends.

Lemma extends_transpile_forward (m st : Program) :
  extends (transpile_forward K m st).
Proof.
  unfold transpile_forward, transpile_forward_impl. repeat extends_step.
  match goal with |- extends (if ?x then _ else _) => destruct x end;
      [apply extends_raise|apply extends_ret].
Qed.

#[local] Hint Resolve extends_transpile_forward : extends.

Lemma extends_serial_varname2dist_var (n : string) :
  extends (_serial_varname2dist_var n).
Proof. unfold _serial_varname2dist_var. repeat extends_step. Qed.

#[local] Hint Resolve extends_serial_varname2dist_var : extends.

Lemma extends_transpile_backward_op (t : gmap nat Operator) (op : Operator) :
  extends (transpile_backward_op K t op).
Proof.
  unfold transpile_backward_op. extends_step; [auto with extends|].
  match goal with |- extends (match ?x with _ => _ end) => destruct x end;
    repeat extends_step.
Qed.

#[local] Hint Resolve extends_transpile_backward_op : extends.

Lemma extends_translate (l : option (list Var)) :
  extends
    (match l with
     | Some (p :: ps) =>
         l' <- mapM (fun param => _serial_varname2dist_var (name param)) (p :: ps) ;;
         ret (Some l')
     | other => ret other
     end).
Proof.
  destruct l as [[|p ps]|]; try apply extends_ret.
  repeat extends_step.
Qed.

#[local] Hint Resolve extends_translate : extends.

Lemma extends_backward_transpile (l : Var) (m st : Program)
    (pl ngs : option (list Var)) (cb : option (list Callback)) :
  extends (_dist_var_op_backward_transpile K l m st pl ngs cb).
Proof.
  unfold _dist_var_op_backward_transpile. extends_step; [auto with extends|].
  match goal with |- extends (if ?x then _ else _) => destruct x end;
    [|apply extends_raise].
  extends_step; [apply extends_serial_varname2dist_var|].
  extends_step; [auto with extends|].
  extends_step; [apply extends_translate|].
  extends_step; [apply extends_translate|].
  repeat extends_step.
Qed.

#[local] Hint Resolve extends_backward_transpile : extends.

Lemma extends_apply_backward (l : Var) (m st : Program)
    (pl ngs : option (list Var)) (cb : option (list Callback)) :
  extends (apply_backward K l m st pl ngs cb).
Proof.
  unfold apply_backward, apply_backward_impl.
  extends_step; [apply extends_backward_transpile|].
  repeat extends_step.
  match goal with |- extends (if ?x then _ else _) => destruct x end;
    [apply extends_raise|apply extends_ret].
Qed.

#[local] Hint Resolve extends_apply_backward : extends.

Lemma grows_run_step (s : Step) (w : World) :
  grows (self w) (self (run_step K s w)).
Proof.
  destruct s; simpl.
  - apply extends_transpile_forward.
  - apply extends_forward_transpile.
  - apply extends_transpile_op.
  - apply extends_partition_input_var.
  - apply extends_partition_output_var.
  - apply extends_partition_op.
  - apply extends_apply_backward.
Qed.

Lemma grows_run_steps (steps : list Step) (w : World) :
  grows (self w) (self (run_steps K steps w)).
Proof.
  revert w. induction steps as [|s steps IH]; intros w; simpl.
  - apply grows_refl.
  - apply (grows_trans _ _ _ (grows_run_step s w)). apply IH.
Qed.

End ExtendsPhases.

(** C3: the renaming table is append-only within a session: an entry that
    maps a serial name to a distributed name is still there, unchanged, after
    any further sequence of partitioning steps (forward phases, the units of
    work of a forward phase, backward phases), whether they return or
    raise. *)
Theorem renaming_table_append_only (K : Collaborators) (steps : list Step)
    (w : World) (serial_name dist_name : string) :
  renaming_table w !! serial_name = Some dist_name ->
  renaming_table (run_steps K steps w) !! serial_name = Some dist_name.
Proof.
  intros Hentry. destruct (grows_run_steps K steps w) as [_ Hkeep].
  specialize (Hkeep serial_name). unfold renaming_table in *.
  rewrite Hentry in Hkeep. exact Hkeep.
Qed.

Lemma renaming_table_append_only_witness :
  renaming_table Demo.forwarded !! "w" = Some "w" /\
  renaming_table
    (run_steps Demo.K
       [TranspileForward Demo.serial_main Demo.serial_startup;
        ApplyBackward Demo.loss Demo.serial_main Demo.serial_startup
          None None None;
        PartitionOutputVar (global_block Demo.serial_main) "w"]
       Demo.forwarded) !! "w" = Some "w".
Proof.
  split; [vm_compute; reflexivity|].
  apply (renaming_table_append_only Demo.K _ Demo.forwarded "w" "w").
  vm_compute. reflexivity.
Defined.

(** ** Distributed names *)

Lemma append_empty (s : string) : String.append s "" = s.
Proof.
  induction s as [|c s IH]; [reflexivity|].
  change (String c (String.append s "") = String c s). rewrite IH. reflexivity.
Qed.

Lemma find_var_set_var (vs : list (string * Var)) (v : Var) :
  find_var (set_var vs v) (name v) = Some v.
Proof.
  induction vs as [|[k u] vs IH]; simpl.
  - rewrite String.eqb_refl. reflexivity.
  - destruct (String.eqb k (name v)) eqn:Hk; simpl; rewrite Hk;
      [reflexivity|exact IH].
Qed.

(** What [create_var] leaves behind when the destination program exists. *)
Lemma create_var_spec (d : Dst) (ty : VarType) (nm : string) (shp : list Z)
    (dt : option DType) (lod : option Z) (pers : bool) (clip : option Z)
    (stop is_d opt : bool) (kw : option ParameterKwargs) (e : Env) :
  is_Some (dst_program d e) ->
  let v := {| desc_id := next_desc_id e; name := nm; type := ty; shape := shp;
              dtype := dt; lod_level := lod; persistable := pers;
              error_clip := clip; stop_gradient := stop; is_data := is_d;
              belong_to_optimizer := opt; parameter := kw |} in
  exists e',
    create_var d ty nm shp dt lod pers clip stop is_d opt kw e = (e', inr v) /\
    dst_var d e' nm = Some v /\
    auto_parallel_context e' = auto_parallel_context e.
Proof.
  intros [p Hp] v.
  unfold create_var, bind, fresh_id, update_dst, modify, ret.
  destruct d; simpl in *.
  - eexists. split; [reflexivity|]. split; [|reflexivity].
    unfold dst_var. simpl. apply (find_var_set_var _ v).
  - eexists. split; [reflexivity|]. split; [|reflexivity].
    unfold dst_var. simpl. rewrite Hp. simpl. apply (find_var_set_var _ v).
Qed.

Lemma copy_dist_attr_frame (src_var v : Var) (e e' : Env) (r : Result unit) :
  copy_dist_attr src_var v e = (e', r) ->
  dist_main_program e' = dist_main_program e /\
  dist_startup_program e' = dist_startup_program e.
Proof.
  unfold copy_dist_attr, bind, gets. simpl.
  destruct (get_tensor_distributed_attr_for_program _ _); simpl;
    intros H; injection H as <- _; split; reflexivity.
Qed.

Lemma dst_var_frame (d : Dst) (e e' : Env) (n : string) :
  dist_main_program e' = dist_main_program e ->
  dist_startup_program e' = dist_startup_program e ->
  dst_var d e' n = dst_var d e n.
Proof.
  intros Hm Hs. unfold dst_var, dst_program. destruct d; rewrite ?Hm, ?Hs; reflexivity.
Qed.

(** A successful [_partition_var] registers, under the destination name, a
    variable of that name. *)
Lemma partition_var_registers (b : Block) (d : Dst) (n dn : string) (e e' : Env) :
  is_Some (dst_program d e) ->
  _partition_var b d n dn e = (e', inr tt) ->
  exists v, dst_var d e' dn = Some v /\ name v = dn.
Proof.
  intros Hdst. unfold _partition_var, bind, liftR, gets. simpl.
  destruct (block_var b n) as [f|src_var]; simpl; [discriminate|].
  destruct (is_READER src_var).
  - destruct (create_var_spec d (type src_var) dn [] None None true None
                true false false None e Hdst) as [e1 [Hc [Hv _]]].
    rewrite Hc. simpl. intros H. injection H as <-. eexists. split; [exact Hv|reflexivity].
  - destruct (_get_dist_shape src_var _) as [f|target_shape]; simpl; [discriminate|].
    destruct (is_Parameter src_var) eqn:Hp.
    + unfold _partition_parameter, is_Parameter in *.
      destruct (parameter src_var) as [kw|]; [|discriminate]. unfold bind.
      destruct (create_var_spec d (type src_var) dn target_shape (dtype src_var)
                  (lod_level src_var) true (error_clip src_var)
                  (stop_gradient src_var) (is_data src_var)
                  (belong_to_optimizer src_var) (Some kw) e Hdst)
        as [e1 [Hc [Hv _]]].
      rewrite Hc. intros H. destruct (copy_dist_attr_frame _ _ _ _ _ H) as [Hm Hs].
      eexists. split; [rewrite (dst_var_frame d _ _ dn Hm Hs); exact Hv|reflexivity].
    + unfold _partition_intermediate_var, bind.
      destruct (create_var_spec d (type src_var) dn target_shape (dtype src_var)
                  (lod_level src_var) (persistable src_var) (error_clip src_var)
                  (stop_gradient src_var) (is_data src_var)
                  (belong_to_optimizer src_var) None e Hdst)
        as [e1 [Hc [Hv _]]].
      rewrite Hc. intros H. destruct (copy_dist_attr_frame _ _ _ _ _ H) as [Hm Hs].
      eexists. split; [rewrite (dst_var_frame d _ _ dn Hm Hs); exact Hv|reflexivity].
Qed.

Lemma partition_output_var_fresh_name (b : Block) (n : string) (w w' : World) :
  _dist_varname_suffix (self w) = "" ->
  renaming_table w !! n = None ->
  partition_output_var b n w = (w', inr tt) ->
  renaming_table w' !! n = Some n /\
  exists v, dst_var DstMain (env w') n = Some v /\ name v = n.
Proof.
  intros Hsuf Hn. unfold renaming_table in Hn.
  unfold partition_output_var, bind, gets, liftEnv, modify. simpl.
  rewrite Hn, Hsuf, append_empty. simpl.
  destruct (_partition_var b DstMain n n (env w)) as [e' [f|[]]] eqn:Hpv; simpl;
    [discriminate|].
  intros H. injection H as <-. split.
  - unfold renaming_table. simpl. apply lookup_insert_eq.
  - simpl. apply (partition_var_registers b DstMain n n (env w) e'); [|exact Hpv].
    eexists. reflexivity.
Qed.

Lemma partition_input_var_fresh_name (b : Block) (n : string) (w w' : World) :
  _dist_varname_suffix (self w) = "" ->
  renaming_table w !! n = None ->
  has_var b n = true ->
  partition_input_var b n w = (w', inr tt) ->
  renaming_table w' !! n = Some n /\
  exists v, dst_var DstMain (env w') n = Some v /\ name v = n.
Proof.
  intros Hsuf Hn Hhas. unfold renaming_table in Hn.
  unfold partition_input_var, bind, gets, liftEnv, modify. simpl.
  rewrite Hn, Hsuf, append_empty, Hhas. simpl.
  destruct (_partition_var b DstMain n n (env w)) as [e' [f|[]]] eqn:Hpv; simpl;
    [discriminate|].
  intros H. injection H as <-. split.
  - unfold renaming_table. simpl. apply lookup_insert_eq.
  - simpl. apply (partition_var_registers b DstMain n n (env w) e'); [|exact Hpv].
    eexists. reflexivity.
Qed.

(** C10: the distributed-name suffix set by the constructor is the empty
    string, and it stays so; hence, at any point of a session started on a
    fresh partitioner, every entry of the renaming table maps a name to
    itself, and a variable the forward loop partitions is created in the
    destination main program under its serial name and recorded as mapped to
    that same name. *)
Theorem distributed_names_equal_serial_names (K : Collaborators)
    (dist_strategy : DistributedStrategy) (rank_id : Z) (e : Env)
    (steps : list Step) :
  let w := run_steps K steps {| self := __init__ dist_strategy rank_id; env := e |} in
  _dist_varname_suffix (__init__ dist_strategy rank_id) = "" /\
  _dist_varname_suffix (self w) = "" /\
  (forall k v : string, renaming_table w !! k = Some v -> v = k) /\
  (forall (b : Block) (n : string) (w' : World),
      renaming_table w !! n = None ->
      partition_output_var b n w = (w', inr tt) \/
      (has_var b n = true /\ partition_input_var b n w = (w', inr tt)) ->
      renaming_table w' !! n = Some n /\
      exists v, dst_var DstMain (env w') n = Some v /\ name v = n).
Proof.
  intros w.
  destruct (grows_run_steps K steps
              {| self := __init__ dist_strategy rank_id; env := e |})
    as [Hconfig Hentries].
  fold w in Hconfig, Hentries. simpl in Hconfig, Hentries.
  assert (Hsuf : _dist_varname_suffix (self w) = "").
  { unfold config in Hconfig. simpl in Hconfig. congruence. }
  split; [reflexivity|]. split; [exact Hsuf|]. split.
  - intros k v Hk. specialize (Hentries k). rewrite lookup_empty in Hentries.
    unfold renaming_table in Hk. rewrite Hk in Hentries.
    destruct Hentries as [Hnone|Hsome]; [discriminate|].
    rewrite append_empty in Hsome. congruence.
  - intros b n w' Hn [Hout|[Hhas Hin]].
    + apply (partition_output_var_fresh_name b n w w' Hsuf Hn Hout).
    + apply (partition_input_var_fresh_name b n w w' Hsuf Hn Hhas Hin).
Qed.

Lemma distributed_names_equal_serial_names_witness :
  (renaming_table
     (run_steps Demo.K [TranspileForward Demo.serial_main Demo.serial_startup]
        Demo.fresh)
     !! "loss" = Some "loss" /\
   "loss" = "loss") /\
  (renaming_table Demo.fresh !! "x" = None /\
   renaming_table
     (fst (partition_output_var (global_block Demo.serial_main) "x" Demo.fresh))
     !! "x" = Some "x").
Proof.
  split.
  - split; [vm_compute; reflexivity|].
    apply (proj1 (proj2 (proj2
      (distributed_names_equal_serial_names Demo.K {| sharding := false |} 0
         Demo.env0 [TranspileForward Demo.serial_main Demo.serial_startup])))
      "loss" "loss").
    vm_compute. reflexivity.
  - split; [vm_compute; reflexivity|].
    apply (proj2 (proj2 (proj2
      (distributed_names_equal_serial_names Demo.K {| sharding := false |} 0
         Demo.env0 [])))
      (global_block Demo.serial_main) "x").
    + vm_compute. reflexivity.
    + left. vm_compute. reflexivity.
Defined.

(** ** The forward phase under the sharding flag *)

Lemma config_sharding (p p' : Partitioner) :
  config p' = config p -> sharding (_dist_strategy p') = sharding (_dist_strategy p).
Proof. unfold config. intros H. injection H as -> _ _ _. reflexivity. Qed.

(** The fault does not precede the forward work: on the demo
    program the phase raises [NotSupported] only after it has partitioned
    every variable and operator (the renaming table and the destination
    program are filled), and on an unannotated program it raises
    [IncompleteAnnotation] instead. *)
Lemma sharding_fault_follows_partitioning :
  sharding (_dist_strategy (self Demo.fresh_sharding)) = true /\
  snd (transpile_forward Demo.K Demo.serial_main Demo.serial_startup
         Demo.fresh_sharding) = inl NotSupported /\
  renaming_table Demo.fresh_sharding !! "w" = None /\
  renaming_table
    (fst (transpile_forward Demo.K Demo.serial_main Demo.serial_startup
            Demo.fresh_sharding)) !! "w" = Some "w" /\
  length (ops (global_block (dist_main_program (env
    (fst (transpile_forward Demo.K Demo.serial_main Demo.serial_startup
            Demo.fresh_sharding)))))) = 2%nat /\
  transpile_forward Demo.K Demo.serial_main Demo.serial_startup
    Demo.fresh_sharding <> (Demo.fresh_sharding, inl NotSupported) /\
  snd (transpile_forward Demo.K Demo.unannotated_main Demo.serial_startup
         Demo.fresh_sharding) = inl IncompleteAnnotation.
Proof.
  split; [reflexivity|]. split; [vm_compute; reflexivity|].
  split; [vm_compute; reflexivity|]. split; [vm_compute; reflexivity|].
  split; [vm_compute; reflexivity|]. split; [|vm_compute; reflexivity].
  intros H.
  assert (Hw : renaming_table
                 (fst (transpile_forward Demo.K Demo.serial_main
                         Demo.serial_startup Demo.fresh_sharding)) !! "w"
               = Some "w") by (vm_compute; reflexivity).
  rewrite H in Hw. vm_compute in Hw. discriminate Hw.
Qed.

(** C4, as the code has it: with the sharding flag set, [transpile_forward]
    never returns; it runs the annotation gate and the whole variable and
    operator partitioning first (either of which may raise its own fault),
    and raises [NotSupported] only when these have completed, with their
    effects on the world in place. *)
Theorem sharding_forward_faults_after_partitioning (K : Collaborators)
    (w : World) (main startup : Program) :
  sharding (_dist_strategy (self w)) = true ->
  transpile_forward K main startup w =
    (if _is_valid_annotated_program (auto_parallel_context (env w)) main then
       match _dist_var_op_forward_transpile K main (Some startup) w with
       | (w1, inl f) => (w1, inl f)
       | (w1, inr _) => (w1, inl NotSupported)
       end
     else (w, inl IncompleteAnnotation)) /\
  forall progs, snd (transpile_forward K main startup w) <> inr progs.
Proof.
  intros Hsh.
  assert (Heq : transpile_forward K main startup w =
    (if _is_valid_annotated_program (auto_parallel_context (env w)) main then
       match _dist_var_op_forward_transpile K main (Some startup) w with
       | (w1, inl f) => (w1, inl f)
       | (w1, inr _) => (w1, inl NotSupported)
       end
     else (w, inl IncompleteAnnotation))).
  { unfold transpile_forward, transpile_forward_impl, bind, gets. simpl.
    destruct (_is_valid_annotated_program _ main); simpl; [|reflexivity].
    pose proof (extends_forward_transpile K main (Some startup) w) as [Hc _].
    destruct (_dist_var_op_forward_transpile K main (Some startup) w)
      as [w1 [f|progs]]; simpl in *; [reflexivity|].
    rewrite (config_sharding _ _ Hc), Hsh. reflexivity. }
  split; [exact Heq|].
  intros progs. rewrite Heq.
  destruct (_is_valid_annotated_program _ main); simpl; [|discriminate].
  destruct (_dist_var_op_forward_transpile K main (Some startup) w)
    as [w1 [f|p]]; simpl; discriminate.
Qed.

Lemma sharding_forward_faults_after_partitioning_witness :
  sharding (_dist_strategy (self Demo.fresh_sharding)) = true /\
  forall progs,
    snd (transpile_forward Demo.K Demo.serial_main Demo.serial_startup
           Demo.fresh_sharding) <> inr progs.
Proof.
  split; [reflexivity|].
  refine (proj2
    (sharding_forward_faults_after_partitioning Demo.K Demo.fresh_sharding
       Demo.serial_main Demo.serial_startup _)).
  reflexivity.
Defined.

(** ** The backward phase *)

(** C5: on a fresh partitioner the renaming table is empty, so the lookup of
    any name (the loss, a parameter) raises [LookupFailure], and so does the
    backward phase, whatever its arguments: it never returns. *)
Theorem backward_before_forward_is_lookup_failure (K : Collaborators)
    (dist_strategy : DistributedStrategy) (rank_id : Z) (e : Env) :
  let w := {| self := __init__ dist_strategy rank_id; env := e |} in
  renaming_table w = ∅ /\
  (forall n : string, _serial_varname2dist_var n w = (w, inl LookupFailure)) /\
  (forall serial_loss main startup pl ngs cb,
      _dist_var_op_backward_transpile K serial_loss main startup pl ngs cb w
      = (w, inl LookupFailure)) /\
  (forall serial_loss main startup pl ngs cb,
      apply_backward K serial_loss main startup pl ngs cb w
      = (w, inl LookupFailure)).
Proof.
  intros w.
  assert (Hlookup : forall n, _serial_varname2dist_var n w = (w, inl LookupFailure)).
  { intros n. unfold _serial_varname2dist_var, bind, gets. simpl.
    rewrite lookup_empty. reflexivity. }
  assert (Htranspile : forall serial_loss main startup pl ngs cb,
             _dist_var_op_backward_transpile K serial_loss main startup pl ngs cb w
             = (w, inl LookupFailure)).
  { intros. unfold _dist_var_op_backward_transpile, bind at 1, gets at 1. simpl.
    unfold bind at 1. rewrite Hlookup. reflexivity. }
  split; [reflexivity|]. split; [exact Hlookup|]. split; [exact Htranspile|].
  intros. unfold apply_backward, apply_backward_impl, bind.
  rewrite Htranspile. reflexivity.
Qed.

Lemma is_scalar_shape_false (s : list Z) : s <> [1] -> is_scalar_shape s = false.
Proof.
  intros Hs. destruct s as [|d [|d' s]]; try reflexivity. simpl.
  destruct (Z.eqb_spec d 1) as [->|_]; [contradiction|reflexivity].
Qed.

(** The submitted loss is not what is validated: a loss of shape
    [4], split four ways, has a distributed counterpart of shape [1] and the
    backward phase returns; and a loss object of shape [8, 1] of the same
    name is accepted as well, its own shape never being read. *)
Lemma non_scalar_serial_loss_accepted :
  shape Demo.loss = [4] /\
  (exists pairs,
      snd (apply_backward Demo.K Demo.loss Demo.serial_main Demo.serial_startup
             None None None Demo.forwarded) = inr pairs) /\
  shape Demo.loss_8_1 = [8; 1] /\
  (exists pairs,
      snd (apply_backward Demo.K Demo.loss_8_1 Demo.serial_main Demo.serial_startup
             None None None Demo.forwarded) = inr pairs).
Proof.
  split; [reflexivity|]. split; [eexists; vm_compute; reflexivity|].
  split; [reflexivity|]. eexists; vm_compute; reflexivity.
Qed.

(** C6, as the code has it: the backward phase validates the translated
    distributed loss, the variable the renaming table and the distributed
    main program give for the name of the submitted loss.  Of the submitted
    loss only the name is read: two loss objects of one name give the same
    run, whatever their shapes.  Unless the shape of the distributed loss is
    [1] the phase raises [InvalidLoss] and changes nothing; when it is [1]
    the check is passed and the transpilation goes on with the lists and the
    autodiff driver.  The driver applies the same check to the distributed
    loss again, and hands it to the autodiff engine when it passes. *)
Theorem backward_validates_distributed_loss (K : Collaborators) (w : World)
    (serial_loss : Var) (main startup : Program) (pl ngs : option (list Var))
    (cb : option (list Callback)) :
  (forall serial_loss' : Var,
      name serial_loss' = name serial_loss ->
      _dist_var_op_backward_transpile K serial_loss' main startup pl ngs cb w
      = _dist_var_op_backward_transpile K serial_loss main startup pl ngs cb w /\
      apply_backward K serial_loss' main startup pl ngs cb w
      = apply_backward K serial_loss main startup pl ngs cb w) /\
  (forall (dist_name : string) (dist_loss : Var),
      _compatible_with_auto_backward (self w) = true ->
      renaming_table w !! name serial_loss = Some dist_name ->
      find_var (vars (global_block (dist_main_program (env w)))) dist_name
      = Some dist_loss ->
      (shape dist_loss <> [1] ->
       _dist_var_op_backward_transpile K serial_loss main startup pl ngs cb w
       = (w, inl InvalidLoss) /\
       apply_backward K serial_loss main startup pl ngs cb w
       = (w, inl InvalidLoss)) /\
      (shape dist_loss = [1] ->
       _dist_var_op_backward_transpile K serial_loss main startup pl ngs cb w
       = backward_transpile_after_loss_check K dist_loss pl ngs cb w /\
       apply_backward K serial_loss main startup pl ngs cb w
       = (params_grads <-
            backward_transpile_after_loss_check K dist_loss None None None ;;
          do_sharding <- gets (fun w => sharding (_dist_strategy (self w))) ;;
          _ <- (if do_sharding then raise PyNameError else ret tt) ;;
          ret params_grads) w)) /\
  (forall (dist_loss : Var) (e : Env) pl' ngs' cb',
      (shape dist_loss <> [1] ->
       _auto_backward K dist_loss pl' ngs' cb' e = (e, inl InvalidLoss)) /\
      (shape dist_loss = [1] ->
       _auto_backward K dist_loss pl' ngs' cb' e
       = append_backward K dist_loss pl'
           (_get_no_grad_set (dist_main_program e) ngs')
           (match cb' with
            | None => [error_clip_callback K]
            | Some cbs => cbs
            end) e)).
Proof.
  split; [|split].
  - intros serial_loss' Hname.
    unfold apply_backward, apply_backward_impl, _dist_var_op_backward_transpile.
    rewrite Hname. split; reflexivity.
  - intros dist_name dist_loss Hcompat Hentry Hvar. unfold renaming_table in Hentry.
    assert (Hlookup : _serial_varname2dist_var (name serial_loss) w
                      = (w, inr dist_loss)).
    { unfold _serial_varname2dist_var, bind, gets, liftR, dict_getitem, has_var,
        block_var. simpl. rewrite Hentry. simpl. rewrite Hvar. reflexivity. }
    split.
    + intros Hshape. pose proof (is_scalar_shape_false _ Hshape) as Hscalar.
      assert (Htranspile : forall pl0 ngs0 cb0,
                 _dist_var_op_backward_transpile K serial_loss main startup
                   pl0 ngs0 cb0 w
                 = (w, inl InvalidLoss)).
      { intros. unfold _dist_var_op_backward_transpile, bind at 1, gets at 1. simpl.
        rewrite Hcompat. unfold bind at 1. rewrite Hlookup.
        unfold bind at 1. rewrite Hscalar. reflexivity. }
      split; [apply Htranspile|].
      unfold apply_backward, apply_backward_impl, bind. rewrite Htranspile.
      reflexivity.
    + intros Hshape.
      assert (Htranspile : forall pl0 ngs0 cb0,
                 _dist_var_op_backward_transpile K serial_loss main startup
                   pl0 ngs0 cb0 w
                 = backward_transpile_after_loss_check K dist_loss pl0 ngs0 cb0 w).
      { intros. unfold _dist_var_op_backward_transpile, bind at 1, gets at 1. simpl.
        rewrite Hcompat. unfold bind at 1. rewrite Hlookup.
        unfold bind at 1. rewrite Hshape. reflexivity. }
      split; [apply Htranspile|].
      unfold apply_backward, apply_backward_impl.
      unfold bind at 1. rewrite Htranspile. reflexivity.
  - intros dist_loss e pl' ngs' cb'. split; intros Hshape.
    + unfold _auto_backward, bind, gets. simpl.
      rewrite (is_scalar_shape_false _ Hshape). reflexivity.
    + unfold _auto_backward, bind, gets. simpl. rewrite Hshape. simpl.
      destruct (append_backward K dist_loss pl' _ _ e) as [e1 [f|r]]; reflexivity.
Qed.

Lemma backward_validates_distributed_loss_witness :
  (shape Demo.loss_8_1 = [8; 1] /\
   apply_backward Demo.K Demo.loss_8_1 Demo.serial_main_rank2 Demo.serial_startup
     None None None Demo.forwarded_rank2
   = (Demo.forwarded_rank2, inl InvalidLoss)) /\
  (shape Demo.loss_8_1 <> shape Demo.loss /\
   apply_backward Demo.K Demo.loss_8_1 Demo.serial_main Demo.serial_startup
     None None None Demo.forwarded
   = apply_backward Demo.K Demo.loss Demo.serial_main Demo.serial_startup
       None None None Demo.forwarded).
Proof.
  split; (split; [simpl; try discriminate; reflexivity|]).
  - refine (proj2 (proj1 (proj1 (proj2
      (backward_validates_distributed_loss Demo.K Demo.forwarded_rank2
         Demo.loss_8_1 Demo.serial_main_rank2 Demo.serial_startup
         None None None)) "loss"
         {| desc_id := 106; name := "loss"; type := LOD_TENSOR; shape := [8; 1];
            dtype := Some FP32; lod_level := Some 0; persistable := false;
            error_clip := None; stop_gradient := false; is_data := false;
            belong_to_optimizer := false; parameter := None |} _ _ _) _)).
    + reflexivity.
    + vm_compute. reflexivity.
    + vm_compute. reflexivity.
    + simpl. discriminate.
  - refine (proj2 (proj1
      (backward_validates_distributed_loss Demo.K Demo.forwarded
         Demo.loss Demo.serial_main Demo.serial_startup None None None)
      Demo.loss_8_1 _)).
    reflexivity.
Defined.

(** ** Operator dispatch *)

(** A missing attribute does not always lead to the fallback: an
    operator whose type has registered implementations and for which the
    store returns no attribute makes the dispatch raise, and the forward step
    on it aborts. *)
Lemma missing_attribute_of_registered_type_aborts :
  get_op_distributed_attr_for_program
    (auto_parallel_context (env Demo.forwarded)) Demo.matmul_unannotated = None /\
  (exists d, lookup_impl Demo.K "default" 0 = inr d) /\
  select_forward_impl Demo.K (auto_parallel_context (env Demo.forwarded))
    Demo.matmul_unannotated = inl PyAttributeError /\
  snd (partition_op Demo.K Demo.matmul_unannotated Demo.forwarded)
  = inl PyAttributeError /\
  snd (transpile_op Demo.K (global_block Demo.serial_main)
         Demo.matmul_unannotated Demo.forwarded)
  = inl PyAttributeError.
Proof.
  split; [vm_compute; reflexivity|]. split; [eexists; reflexivity|].
  split; [vm_compute; reflexivity|]. split; vm_compute; reflexivity.
Qed.

Lemma falls_back_not_implemented (K : Collaborators) (c : DistributedContext)
    (op : Operator) :
  falls_back K c op -> _is_dist_op_forward_implement K c op = inr false.
Proof.
  unfold _is_dist_op_forward_implement.
  intros [Hnone|[[a [Ha Hneg]]|[d [a [impl [Hd [Ha [Hpos [Himpl Hflag]]]]]]]]].
  - rewrite Hnone. reflexivity.
  - destruct (get_distributed_operator K (op_type op)); [|reflexivity].
    rewrite Ha. destruct (Z.leb_spec 0 (o_impl_idx a)); [lia|reflexivity].
  - rewrite Hd, Ha. destruct (Z.leb_spec 0 (o_impl_idx a)); [|lia].
    rewrite Himpl. simpl. rewrite Hflag. reflexivity.
Qed.

(** C7, as the code has it: the forward loop hands an operator to
    implementation 0 of the reserved type "default" when nothing is
    registered for its type (whether or not the store holds an attribute for
    it), when its attribute carries a negative implementation index, or when
    the implementation its index selects does not declare the forward
    transform; the forward step then runs the default transform on the
    renamed slots. *)
Theorem forward_fallback_dispatch (K : Collaborators) (c : DistributedContext)
    (op : Operator) (default_impl : DistributedOperatorImpl) :
  lookup_impl K "default" 0 = inr default_impl ->
  falls_back K c op ->
  _is_dist_op_forward_implement K c op = inr false /\
  select_forward_impl K c op = inr default_impl /\
  forall (w : World) (e1 : Env) (kio : Kwargs * Kwargs) (kwargs : Kwargs),
    prepare_forward_context K (renaming_table w) op (env w) = (e1, inr kio) ->
    auto_parallel_context e1 = c ->
    merge_kwargs (fst kio) (snd kio) = inr kwargs ->
    partition_op K op w
    = liftEnv (forward default_impl (renaming_table w) kwargs)
        {| self := self w; env := e1 |}.
Proof.
  intros Hdefault Hfb.
  pose proof (falls_back_not_implemented K c op Hfb) as Hno.
  assert (Hsel : select_forward_impl K c op = inr default_impl).
  { unfold select_forward_impl. rewrite Hno. simpl. exact Hdefault. }
  split; [exact Hno|]. split; [exact Hsel|].
  intros w e1 kio kwargs Hprep Hctx Hmerge.
  unfold partition_op, bind at 1, gets at 1. simpl.
  unfold bind at 1, liftEnv at 1. unfold renaming_table in Hprep. rewrite Hprep.
  unfold bind at 1, gets at 1. simpl. rewrite Hctx.
  unfold bind at 1, liftR at 1. rewrite Hsel.
  unfold bind at 1, liftR at 1. rewrite Hmerge. reflexivity.
Qed.

Lemma forward_fallback_dispatch_witness :
  falls_back Demo.K (auto_parallel_context (env Demo.forwarded)) Demo.relu_op /\
  get_op_distributed_attr_for_program
    (auto_parallel_context (env Demo.forwarded)) Demo.relu_op = None /\
  select_forward_impl Demo.K (auto_parallel_context (env Demo.forwarded))
    Demo.relu_op = inr Demo.replicate_impl.
Proof.
  assert (Hfb : falls_back Demo.K (auto_parallel_context (env Demo.forwarded))
                  Demo.relu_op) by (left; reflexivity).
  split; [exact Hfb|]. split; [vm_compute; reflexivity|].
  exact (proj1 (proj2
    (forward_fallback_dispatch Demo.K (auto_parallel_context (env Demo.forwarded))
       Demo.relu_op Demo.replicate_impl eq_refl Hfb))).
Defined.

(** ** The lists of the backward phase *)

(** C8 does not hold of the code: [apply_backward] accepts a parameter list, a
    no-grad set and callbacks and hands none of them on, so its outcome does
    not depend on them.  On the demo world, a parameter list naming a
    variable absent from the renaming table and a no-grad set naming [w] give
    the pairs of an unrestricted run, [w] included, where the transpilation
    it wraps raises [LookupFailure] for the list and excludes [w] for the
    set. *)
Theorem apply_backward_drops_its_lists :
  (forall (K : Collaborators) (serial_loss : Var) (main startup : Program)
          (pl ngs : option (list Var)) (cb : option (list Callback)) (w : World),
      apply_backward K serial_loss main startup pl ngs cb w
      = apply_backward K serial_loss main startup None None None w) /\
  renaming_table Demo.forwarded !! name Demo.ghost = None /\
  (exists pairs,
      snd (apply_backward Demo.K Demo.loss Demo.serial_main Demo.serial_startup
             (Some [Demo.ghost]) (Some [Demo.w]) None Demo.forwarded)
      = inr pairs /\
      map (fun pg => name (fst pg)) pairs = ["w"]) /\
  snd (_dist_var_op_backward_transpile Demo.K Demo.loss Demo.serial_main
         Demo.serial_startup (Some [Demo.ghost]) None None Demo.forwarded)
  = inl LookupFailure /\
  snd (_dist_var_op_backward_transpile Demo.K Demo.loss Demo.serial_main
         Demo.serial_startup None (Some [Demo.w]) None Demo.forwarded)
  = inr [].
Proof.
  split; [reflexivity|]. split; [vm_compute; reflexivity|].
  split; [eexists; split; vm_compute; reflexivity|].
  split; vm_compute; reflexivity.
Qed.

(** ** Reader variables *)

(** A reader variable is not recreated with identical metadata: the copy of a reader that has an element type and takes part in
    gradients has no element type and is marked stop-gradient. *)
Lemma reader_metadata_not_identical :
  block_var Demo.reader_block "reader" = inr Demo.reader /\
  type Demo.reader = READER /\
  exists (e' : Env) (v : Var),
    _partition_var Demo.reader_block DstMain "reader" "reader" Demo.env0
    = (e', inr tt) /\
    dst_var DstMain e' "reader" = Some v /\
    stop_gradient Demo.reader = false /\ stop_gradient v = true /\
    dtype Demo.reader = Some FP32 /\ dtype v = None.
Proof.
  split; [reflexivity|]. split; [reflexivity|].
  eexists. eexists. split; [vm_compute; reflexivity|].
  split; [vm_compute; reflexivity|].
  repeat split.
Qed.

(** C9, as the code has it: partitioning a reader variable computes no
    shard shape and neither reads nor registers a distribution attribute; the
    destination variable is created under the destination name with the kind
    of the source, marked persistent and stop-gradient, every other field
    being the constructor's default rather than a copy of the source's. *)
Theorem reader_variable_recreated (src_block : Block) (dst : Dst)
    (src_varname dst_varname : string) (e : Env) (src_var : Var) :
  block_var src_block src_varname = inr src_var ->
  type src_var = READER ->
  is_Some (dst_program dst e) ->
  exists e' : Env,
    _partition_var src_block dst src_varname dst_varname e = (e', inr tt) /\
    dst_var dst e' dst_varname =
      Some {| desc_id := next_desc_id e; name := dst_varname;
              type := type src_var; shape := []; dtype := None;
              lod_level := None; persistable := true; error_clip := None;
              stop_gradient := true; is_data := false;
              belong_to_optimizer := false; parameter := None |} /\
    auto_parallel_context e' = auto_parallel_context e.
Proof.
  intros Hvar Hty Hdst.
  destruct (create_var_spec dst (type src_var) dst_varname [] None None true
              None true false false None e Hdst) as [e' [Hc [Hv Hctx]]].
  exists e'. split; [|split; [exact Hv|exact Hctx]].
  unfold _partition_var, bind, liftR. rewrite Hvar.
  unfold is_READER. rewrite Hty. rewrite Hty in Hc. rewrite Hc. reflexivity.
Qed.

Lemma reader_variable_recreated_witness :
  block_var Demo.reader_block "reader" = inr Demo.reader /\
  exists e' : Env,
    _partition_var Demo.reader_block DstMain "reader" "reader_copy" Demo.env0
    = (e', inr tt) /\
    dst_var DstMain e' "reader_copy" =
      Some {| desc_id := 100; name := "reader_copy";
              type := READER; shape := []; dtype := None;
              lod_level := None; persistable := true; error_clip := None;
              stop_gradient := true; is_data := false;
              belong_to_optimizer := false; parameter := None |} /\
    auto_parallel_context e' = auto_parallel_context Demo.env0.
Proof.
  split; [reflexivity|].
  apply (reader_variable_recreated Demo.reader_block DstMain "reader"
           "reader_copy" Demo.env0 Demo.reader).
  - reflexivity.
  - reflexivity.
  - eexists. reflexivity.
Defined.

(** * Further properties *)

(** ** More on shape partitioning *)

Lemma py_getitem_out_of_range {A} (l : list A) (i : Z) :
  i < - Z.of_nat (length l) \/ Z.of_nat (length l) <= i ->
  py_getitem l i = inl PyIndexError.
Proof.
  intros Hout. unfold py_getitem.
  destruct (Z.ltb_spec i 0) as [Hneg|Hpos].
  - destruct (Z.ltb_spec (i + Z.of_nat (length l)) 0) as [_|Hge]; [reflexivity|lia].
  - destruct (Z.ltb_spec i 0) as [?|_]; [lia|].
    destruct (Z.leb_spec (Z.of_nat (length l)) i) as [_|?]; [reflexivity|lia].
Qed.

Lemma py_getitem_in_range {A} (l : list A) (i : Z) :
  0 <= i < Z.of_nat (length l) ->
  exists x, l !! Z.to_nat i = Some x /\ py_getitem l i = inr x.
Proof.
  intros Hin.
  destruct (lookup_lt_is_Some_2 l (Z.to_nat i)) as [x Hx]; [lia|].
  exists x. split; [exact Hx|].
  rewrite <- (Z2Nat.id i) by lia. apply py_getitem_nat. exact Hx.
Qed.

Lemma mapR_seq_lookup {B} (f : nat -> Result B) (l : list B) (k : nat) :
  (forall (i : nat) x, l !! i = Some x -> f (k + i)%nat = inr x) ->
  mapR f (seq k (length l)) = inr l.
Proof.
  revert k. induction l as [|y l IH]; intros k Hf; simpl; [reflexivity|].
  rewrite <- (Nat.add_0_r k) at 1. rewrite (Hf 0%nat y eq_refl). simpl.
  rewrite (IH (S k)); [reflexivity|].
  intros i x Hi. rewrite Nat.add_succ_comm. apply (Hf (S i) x Hi).
Qed.

(** When the dimensions before [idx] succeed and the dimension [idx] raises,
    the comprehension raises that fault. *)
Lemma mapR_seq_first_fault {B} (f : nat -> Result B) (n idx : nat) (e : Fault) :
  (idx < n)%nat ->
  (forall j, (j < idx)%nat -> exists y, f j = inr y) ->
  f idx = inl e ->
  mapR f (seq 0 n) = inl e.
Proof.
  intros Hlt Hbefore Hat.
  assert (Hgen : forall m k, (k <= idx)%nat -> (idx < k + m)%nat ->
                             mapR f (seq k m) = inl e).
  { induction m as [|m IH]; intros k Hk Hm; [lia|]. simpl.
    destruct (decide (k = idx)) as [->|Hne].
    - rewrite Hat. reflexivity.
    - destruct (Hbefore k) as [y Hy]; [lia|]. rewrite Hy. simpl.
      rewrite (IH (S k)); [reflexivity|lia|lia]. }
  apply Hgen; lia.
Qed.

(** X1: whatever [_get_dist_shape] returns is sound: ranks agree, the rank is
    kept, and every dimension is either kept (wildcard or mapping -1) or is
    the exact quotient of the global size by a non-zero extent that divides
    it. *)
Theorem get_dist_shape_sound (var : Var) (a : TensorDistributedAttribute)
    (new_shape : list Z) :
  _get_dist_shape var (Some a) = inr new_shape ->
  length (shape var) = length (t_dims_mapping a) /\
  length new_shape = length (shape var) /\
  forall (idx : nat) (s m : Z),
    shape var !! idx = Some s -> t_dims_mapping a !! idx = Some m ->
    (s = -1 \/ m = -1 -> new_shape !! idx = Some s) /\
    (s <> -1 -> m <> -1 ->
     exists e, py_getitem (t_topology a) m = inr e /\ e <> 0 /\ s mod e = 0 /\
               new_shape !! idx = Some (s / e) /\ (s / e) * e = s).
Proof.
  intros Hok.
  assert (Hlen : length (shape var) = length (t_dims_mapping a)).
  { unfold _get_dist_shape in Hok.
    destruct (Nat.eqb_spec (length (shape var)) (length (t_dims_mapping a)));
      [assumption|discriminate Hok]. }
  split; [exact Hlen|].
  rewrite (get_dist_shape_unfold _ _ Hlen) in Hok.
  destruct (mapR_inr _ _ _ Hok) as [Hlr Hall].
  split; [rewrite Hlr; apply length_seq|].
  intros idx s m Hs Hm.
  assert (Hseq : seq 0 (length (shape var)) !! idx = Some idx).
  { apply lookup_seq. split; [reflexivity|]. apply (lookup_lt_Some _ _ _ Hs). }
  destruct (Hall idx idx Hseq) as [y [Hy Hfy]].
  rewrite (dist_dim_eq _ _ _ _ _ _ Hs Hm) in Hfy. split.
  - intros [-> | ->].
    + simpl in Hfy. congruence.
    + destruct (s =? -1); simpl in Hfy; congruence.
  - intros Hs1 Hm1.
    destruct (Z.eqb_spec s (-1)); [contradiction|].
    destruct (Z.eqb_spec m (-1)); [contradiction|].
    destruct (py_getitem (t_topology a) m) as [f|e]; simpl in Hfy; [discriminate|].
    unfold py_mod, py_floordiv in Hfy.
    destruct (Z.eqb_spec e 0) as [|He0]; simpl in Hfy; [discriminate|].
    destruct (Z.eqb_spec (s mod e) 0) as [Hmod|]; simpl in Hfy; [|discriminate].
    exists e. split; [reflexivity|]. split; [exact He0|]. split; [exact Hmod|].
    split; [congruence|].
    pose proof (Z.div_mod s e He0). lia.
Qed.

Lemma get_dist_shape_sound_witness :
  length [64; 64] = length (shape Scenario.param_256_64).
Proof.
  exact (proj1 (proj2
    (get_dist_shape_sound Scenario.param_256_64 Scenario.split_dim0_mesh4
       [64; 64] eq_refl))).
Defined.

(** X2: a variable none of whose dimensions is distributed (each is a
    wildcard or mapped to -1) keeps its shape exactly, whatever the mesh
    holds. *)
Theorem get_dist_shape_replicated (var : Var) (a : TensorDistributedAttribute) :
  length (shape var) = length (t_dims_mapping a) ->
  (forall (idx : nat) (s m : Z),
      shape var !! idx = Some s -> t_dims_mapping a !! idx = Some m ->
      s = -1 \/ m = -1) ->
  _get_dist_shape var (Some a) = inr (shape var).
Proof.
  intros Hlen Hrep. rewrite (get_dist_shape_unfold _ _ Hlen).
  apply mapR_seq_lookup. intros i s Hs. simpl.
  destruct (lookup_lt_is_Some_2 (t_dims_mapping a) i) as [m Hm].
  { rewrite <- Hlen. apply (lookup_lt_Some _ _ _ Hs). }
  apply (dist_dim_keep _ _ _ _ _ _ Hs Hm). apply (Hrep i s m Hs Hm).
Qed.

(** X3: the dimensions are examined in order and the first one that cannot
    be partitioned decides the fault, whatever the later ones hold: a mesh
    axis out of range is an [IndexError], an extent of zero a
    [ZeroDivisionError], an extent that does not divide the size an
    [UnevenPartition]. *)
Theorem get_dist_shape_first_fault (var : Var) (a : TensorDistributedAttribute)
    (idx : nat) (s m : Z) :
  length (shape var) = length (t_dims_mapping a) ->
  shape var !! idx = Some s -> t_dims_mapping a !! idx = Some m ->
  s <> -1 -> m <> -1 ->
  (forall (j : nat) (sj mj : Z),
      (j < idx)%nat ->
      shape var !! j = Some sj -> t_dims_mapping a !! j = Some mj ->
      sj = -1 \/ mj = -1 \/
      exists e, py_getitem (t_topology a) mj = inr e /\ e <> 0 /\ sj mod e = 0) ->
  (m < - Z.of_nat (length (t_topology a)) \/ Z.of_nat (length (t_topology a)) <= m ->
   _get_dist_shape var (Some a) = inl PyIndexError) /\
  (py_getitem (t_topology a) m = inr 0 ->
   _get_dist_shape var (Some a) = inl PyZeroDivisionError) /\
  (forall e, py_getitem (t_topology a) m = inr e -> e <> 0 -> s mod e <> 0 ->
             _get_dist_shape var (Some a) = inl UnevenPartition).
Proof.
  intros Hlen Hs Hm Hs1 Hm1 Hbefore.
  rewrite (get_dist_shape_unfold _ _ Hlen).
  assert (Hlt : (idx < length (shape var))%nat) by apply (lookup_lt_Some _ _ _ Hs).
  assert (Hprefix : forall j, (j < idx)%nat ->
            exists y, dist_dim (shape var) (t_dims_mapping a) (t_topology a) j = inr y).
  { intros j Hj.
    destruct (lookup_lt_is_Some_2 (shape var) j) as [sj Hsj]; [lia|].
    destruct (lookup_lt_is_Some_2 (t_dims_mapping a) j) as [mj Hmj]; [lia|].
    destruct (Z.eq_dec sj (-1)) as [Hk|Hsj1].
    { exists sj. apply (dist_dim_keep _ _ _ _ _ _ Hsj Hmj). auto. }
    destruct (Z.eq_dec mj (-1)) as [Hk|Hmj1].
    { exists sj. apply (dist_dim_keep _ _ _ _ _ _ Hsj Hmj). auto. }
    destruct (Hbefore j sj mj Hj Hsj Hmj) as [?|[?|[e [He [He0 Hmod]]]]];
      [contradiction|contradiction|].
    exists (sj / e). apply (dist_dim_even _ _ _ _ _ _ _ Hsj Hmj Hsj1 Hmj1 He He0 Hmod). }
  assert (Hat : dist_dim (shape var) (t_dims_mapping a) (t_topology a) idx =
                (e <-r py_getitem (t_topology a) m ;;
                 r <-r py_mod s e ;;
                 _ <-r assertR (r =? 0) UnevenPartition ;;
                 e' <-r py_getitem (t_topology a) m ;;
                 py_floordiv s e')).
  { rewrite (dist_dim_eq _ _ _ _ _ _ Hs Hm).
    destruct (Z.eqb_spec s (-1)); [contradiction|].
    destruct (Z.eqb_spec m (-1)); [contradiction|reflexivity]. }
  split; [|split].
  - intros Hout. apply (mapR_seq_first_fault _ _ idx _ Hlt Hprefix).
    rewrite Hat, (py_getitem_out_of_range _ _ Hout). reflexivity.
  - intros Hzero. apply (mapR_seq_first_fault _ _ idx _ Hlt Hprefix).
    rewrite Hat, Hzero. reflexivity.
  - intros e He He0 Hmod. apply (mapR_seq_first_fault _ _ idx _ Hlt Hprefix).
    apply (dist_dim_uneven _ _ _ _ _ _ _ Hs Hm Hs1 Hm1 He He0 Hmod).
Qed.

Lemma get_dist_shape_replicated_witness :
  _get_dist_shape Scenario2.t_8_6 (Some Scenario2.replicated) = inr [8; 6].
Proof.
  apply (get_dist_shape_replicated Scenario2.t_8_6 Scenario2.replicated);
    [reflexivity|].
  intros [|[|idx]] s m Hs Hm; simpl in Hs, Hm.
  - injection Hm as <-. right. reflexivity.
  - injection Hm as <-. right. reflexivity.
  - discriminate Hs.
Defined.

Lemma get_dist_shape_first_fault_witness :
  _get_dist_shape Scenario2.t_8_6 (Some Scenario2.axis_missing) = inl PyIndexError /\
  _get_dist_shape Scenario2.t_8_6 (Some Scenario2.axis_empty)
  = inl PyZeroDivisionError /\
  _get_dist_shape Scenario2.t_8_6 (Some Scenario2.axis_uneven) = inl UnevenPartition.
Proof.
  assert (Hbefore : forall mesh : list Z,
             py_getitem mesh 0 = inr 4 ->
             forall (j : nat) (sj mj : Z),
               (j < 1)%nat ->
               shape Scenario2.t_8_6 !! j = Some sj ->
               [0; 1] !! j = Some mj ->
               sj = -1 \/ mj = -1 \/
               exists e, py_getitem mesh mj = inr e /\ e <> 0 /\ sj mod e = 0).
  { intros mesh Hmesh [|j] sj mj Hj Hsj Hmj; [|lia]. simpl in Hsj, Hmj.
    injection Hsj as <-. injection Hmj as <-. right. right. exists 4.
    split; [exact Hmesh|]. split; [lia|reflexivity]. }
  split; [|split].
  - refine (proj1 (get_dist_shape_first_fault Scenario2.t_8_6
                     Scenario2.axis_missing 1%nat 6 1 eq_refl eq_refl eq_refl
                     _ _ (Hbefore [4] eq_refl)) _); simpl; lia.
  - refine (proj1 (proj2 (get_dist_shape_first_fault Scenario2.t_8_6
                     Scenario2.axis_empty 1%nat 6 1 eq_refl eq_refl eq_refl
                     _ _ (Hbefore [4; 0] eq_refl))) _); [lia|lia|reflexivity].
  - refine (proj2 (proj2 (get_dist_shape_first_fault Scenario2.t_8_6
                     Scenario2.axis_uneven 1%nat 6 1 eq_refl eq_refl eq_refl
                     _ _ (Hbefore [4; 4] eq_refl))) 4 _ _ _);
      [lia|lia|reflexivity|lia|vm_compute; discriminate].
Defined.

(** ** Distributed or not *)

Lemma anyR_total {A} (test : A -> Result bool) (l : list A) :
  (forall x, x ∈ l -> exists b, test x = inr b) ->
  exists b, anyR test l = inr b /\
            (b = true <-> exists x, x ∈ l /\ test x = inr true).
Proof.
  induction l as [|x l IH]; intros Htot; simpl.
  - exists false. split; [reflexivity|]. split; [discriminate|].
    intros [x [Hx _]]. inversion Hx.
  - destruct (Htot x) as [b Hb]; [left|]. rewrite Hb. simpl. destruct b.
    + exists true. split; [reflexivity|]. split; [|reflexivity].
      intros _. exists x. split; [left|exact Hb].
    + destruct IH as [b' [Hb' Hiff]]; [intros y Hy; apply Htot; right; exact Hy|].
      exists b'. split; [exact Hb'|]. rewrite Hiff. split.
      * intros [y [Hy Hty]]. exists y. split; [right; exact Hy|exact Hty].
      * intros [y [Hy Hty]]. apply elem_of_cons in Hy as [-> | Hy]; [congruence|].
        exists y. split; assumption.
Qed.

Lemma well_formed_dim (a : TensorDistributedAttribute) (idx : nat) (m : Z) :
  well_formed_attr a ->
  t_dims_mapping a !! idx = Some m ->
  m = -1 \/
  exists e, 0 <= m /\ t_topology a !! Z.to_nat m = Some e /\
            py_getitem (t_topology a) m = inr e /\ 0 < e.
Proof.
  intros [Hmap Hmesh] Hm.
  destruct (Hmap m) as [Hrep|Hax]; [apply list_elem_of_lookup; eauto|left; exact Hrep|].
  right. destruct (py_getitem_in_range (t_topology a) m Hax) as [e [He Hget]].
  exists e. split; [lia|]. split; [exact He|]. split; [exact Hget|].
  apply Hmesh. apply list_elem_of_lookup. eauto.
Qed.

Lemma is_distributed_dim_eq (a : TensorDistributedAttribute) (idx : nat) (m : Z) :
  well_formed_attr a ->
  t_dims_mapping a !! idx = Some m ->
  (m = -1 /\ is_distributed_dim (t_dims_mapping a) (t_topology a) idx = inr false) \/
  (exists e, 0 <= m /\ t_topology a !! Z.to_nat m = Some e /\ 0 < e /\
             py_getitem (t_topology a) m = inr e /\
             is_distributed_dim (t_dims_mapping a) (t_topology a) idx = inr (1 <? e)).
Proof.
  intros Hwf Hm. unfold is_distributed_dim.
  rewrite (py_getitem_nat _ _ _ Hm). simpl.
  destruct (well_formed_dim a idx m Hwf Hm) as [->|[e [Hpos [He [Hget Hext]]]]].
  - left. split; reflexivity.
  - right. exists e. repeat (split; [assumption|]).
    destruct (Z.leb_spec 0 m); [|lia]. rewrite Hget. reflexivity.
Qed.

(** X4: on a well-formed attribute [_is_distributed] returns, and it answers
    yes exactly when some dimension is mapped to a mesh axis of extent
    greater than one. *)
Theorem is_distributed_spec (a : TensorDistributedAttribute) :
  well_formed_attr a ->
  exists b : bool,
    _is_distributed a = inr b /\
    (b = true <->
     exists (idx : nat) (m e : Z),
       t_dims_mapping a !! idx = Some m /\ 0 <= m /\
       t_topology a !! Z.to_nat m = Some e /\ 1 < e).
Proof.
  intros Hwf. unfold _is_distributed.
  destruct (anyR_total (is_distributed_dim (t_dims_mapping a) (t_topology a))
              (seq 0 (length (t_dims_mapping a)))) as [b [Hb Hiff]].
  { intros idx Hin. apply elem_of_seq in Hin as [_ Hlt]. simpl in Hlt.
    destruct (lookup_lt_is_Some_2 (t_dims_mapping a) idx Hlt) as [m Hm].
    destruct (is_distributed_dim_eq a idx m Hwf Hm)
      as [[_ Hd]|[e [_ [_ [_ [_ Hd]]]]]]; eauto. }
  exists b. split; [exact Hb|]. rewrite Hiff. split.
  - intros [idx [Hin Hd]]. apply elem_of_seq in Hin as [_ Hlt]. simpl in Hlt.
    destruct (lookup_lt_is_Some_2 (t_dims_mapping a) idx Hlt) as [m Hm].
    destruct (is_distributed_dim_eq a idx m Hwf Hm)
      as [[_ Hd']|[e [Hpos [He [_ [_ Hd']]]]]]; rewrite Hd' in Hd.
    + discriminate.
    + injection Hd as Hlt1. apply Z.ltb_lt in Hlt1.
      exists idx, m, e. repeat (split; [assumption|]). exact Hlt1.
  - intros [idx [m [e [Hm [Hpos [He Hgt]]]]]].
    exists idx. split.
    + apply elem_of_seq. split; [lia|]. simpl. apply (lookup_lt_Some _ _ _ Hm).
    + destruct (is_distributed_dim_eq a idx m Hwf Hm)
        as [[-> _]|[e' [_ [He' [_ [_ Hd']]]]]]; [lia|].
      rewrite Hd'. assert (e' = e) as -> by congruence.
      destruct (Z.ltb_spec 1 e); [reflexivity|lia].
Qed.

Lemma is_distributed_spec_witness :
  well_formed_attr Scenario.split_dim0_mesh4 /\
  exists b : bool, _is_distributed Scenario.split_dim0_mesh4 = inr b /\ b = true.
Proof.
  assert (Hwf : well_formed_attr Scenario.split_dim0_mesh4).
  { split; intros z Hz; simpl in Hz;
      repeat (apply elem_of_cons in Hz as [-> | Hz]); try inversion Hz; simpl; lia. }
  split; [exact Hwf|].
  destruct (is_distributed_spec _ Hwf) as [b [Hb Hiff]].
  exists b. split; [exact Hb|]. apply Hiff.
  exists 0%nat, 0, 4. repeat split; lia.
Defined.

(** X5: a variable that [_is_var_distributed] reports as not distributed
    keeps its shape under [_get_dist_shape], provided its attribute is well
    formed and has the rank of the variable. *)
Theorem not_distributed_keeps_shape (c : DistributedContext) (var : Var)
    (a : TensorDistributedAttribute) :
  get_tensor_distributed_attr_for_program c var = Some a ->
  well_formed_attr a ->
  length (shape var) = length (t_dims_mapping a) ->
  _is_var_distributed c var = inr false ->
  _get_dist_shape var (get_tensor_distributed_attr_for_program c var)
  = inr (shape var).
Proof.
  intros Hattr Hwf Hlen Hnot. unfold _is_var_distributed in Hnot.
  rewrite Hattr in Hnot |- *. unfold _is_distributed in Hnot.
  destruct (anyR_total (is_distributed_dim (t_dims_mapping a) (t_topology a))
              (seq 0 (length (t_dims_mapping a)))) as [b [Hb Hiff]].
  { intros idx Hin. apply elem_of_seq in Hin as [_ Hlt]. simpl in Hlt.
    destruct (lookup_lt_is_Some_2 (t_dims_mapping a) idx Hlt) as [m Hm].
    destruct (is_distributed_dim_eq a idx m Hwf Hm)
      as [[_ Hd]|[e [_ [_ [_ [_ Hd]]]]]]; eauto. }
  assert (b = false) as -> by congruence.
  rewrite (get_dist_shape_unfold _ _ Hlen).
  apply mapR_seq_lookup. intros i s Hs. simpl.
  destruct (lookup_lt_is_Some_2 (t_dims_mapping a) i) as [m Hm].
  { rewrite <- Hlen. apply (lookup_lt_Some _ _ _ Hs). }
  destruct (is_distributed_dim_eq a i m Hwf Hm)
    as [[Hrep _]|[e [Hpos [He [Hext [Hget Hd]]]]]].
  - apply (dist_dim_keep _ _ _ _ _ _ Hs Hm). right. exact Hrep.
  - assert (He1 : e = 1).
    { destruct (Z.ltb_spec 1 e) as [Hgt|Hle]; [|lia].
      assert (false = true); [|discriminate].
      apply Hiff. exists i. split; [|exact Hd].
      apply elem_of_seq. split; [lia|]. simpl. apply (lookup_lt_Some _ _ _ Hm). }
    subst e. destruct (Z.eq_dec s (-1)) as [Hs1|Hs1].
    { apply (dist_dim_keep _ _ _ _ _ _ Hs Hm). left. exact Hs1. }
    rewrite (dist_dim_even _ _ _ _ _ _ 1 Hs Hm Hs1 ltac:(lia) Hget ltac:(lia)
               (Z.mod_1_r s)).
    rewrite Z.div_1_r. reflexivity.
Qed.

Lemma not_distributed_keeps_shape_witness :
  _is_var_distributed Scenario2.single_process_context Scenario2.t_8_6 = inr false /\
  _get_dist_shape Scenario2.t_8_6
    (get_tensor_distributed_attr_for_program Scenario2.single_process_context
       Scenario2.t_8_6)
  = inr [8; 6].
Proof.
  split; [vm_compute; reflexivity|].
  apply (not_distributed_keeps_shape Scenario2.single_process_context
           Scenario2.t_8_6 Scenario2.single_process).
  - vm_compute. reflexivity.
  - split; intros z Hz; simpl in Hz;
      repeat (apply elem_of_cons in Hz as [-> | Hz]); try inversion Hz; simpl; lia.
  - reflexivity.
  - vm_compute. reflexivity.
Defined.

(** ** Partitioning one variable *)

Lemma create_var_total (d : Dst) (ty : VarType) (nm : string) (shp : list Z)
    (dt : option DType) (lod : option Z) (pers : bool) (clip : option Z)
    (stop is_d opt : bool) (kw : option ParameterKwargs) (e : Env) :
  exists e',
    create_var d ty nm shp dt lod pers clip stop is_d opt kw e
    = (e', inr {| desc_id := next_desc_id e; name := nm; type := ty; shape := shp;
                  dtype := dt; lod_level := lod; persistable := pers;
                  error_clip := clip; stop_gradient := stop; is_data := is_d;
                  belong_to_optimizer := opt; parameter := kw |}) /\
    auto_parallel_context e' = auto_parallel_context e.
Proof.
  unfold create_var, bind, fresh_id, update_dst, modify, ret.
  destruct d; simpl; eexists; split; reflexivity.
Qed.

Lemma copy_dist_attr_spec (src_var v : Var) (a : TensorDistributedAttribute) (e : Env) :
  get_tensor_distributed_attr_for_program (auto_parallel_context e) src_var = Some a ->
  copy_dist_attr src_var v e
  = (with_context
       (set_tensor_distributed_attr_for_program v
          {| t_topology := t_topology a; t_dims_mapping := t_dims_mapping a;
             _owner_tensor := desc_id v; _owner_context := _owner_context a |}) e,
     inr tt).
Proof.
  intros Ha. unfold copy_dist_attr, bind, gets, modify. simpl. rewrite Ha. reflexivity.
Qed.

Lemma is_READER_false (v : Var) : type v <> READER -> is_READER v = false.
Proof. unfold is_READER. destruct (type v); congruence. Qed.

(** X6: partitioning a dense tensor (a variable of type [LOD_TENSOR], an
    ordinary tensor or a parameter) whose attribute is in the store and whose
    shape can be partitioned creates under the destination name a variable
    with the local shard shape and with the type, element type, LoD level,
    error clip, stop-gradient, data and optimizer flags and parameter
    metadata of the source (and its persistence, for a variable that is not a
    parameter); it registers for the new variable an attribute with the mesh
    and dimension mapping of the source, owned by the new variable, and
    changes no other attribute.  The statement is made of dense tensors
    because the framework's [lod_level] accessor raises on a
    [SELECTED_ROWS] variable and its [shape] accessor on a [RAW] or
    [STEP_SCOPES] one, where the record fields read here are total. *)
Theorem partition_var_tensor (src_block : Block) (dst : Dst)
    (src_varname dst_varname : string) (e : Env) (src_var : Var)
    (a : TensorDistributedAttribute) (target_shape : list Z) :
  block_var src_block src_varname = inr src_var ->
  type src_var = LOD_TENSOR ->
  get_tensor_distributed_attr_for_program (auto_parallel_context e) src_var = Some a ->
  _get_dist_shape src_var (Some a) = inr target_shape ->
  is_Some (dst_program dst e) ->
  exists (e' : Env) (v : Var),
    _partition_var src_block dst src_varname dst_varname e = (e', inr tt) /\
    dst_var dst e' dst_varname = Some v /\
    (name v = dst_varname /\ shape v = target_shape /\
     desc_id v = next_desc_id e) /\
    (type v = LOD_TENSOR /\ dtype v = dtype src_var /\
     lod_level v = lod_level src_var /\ error_clip v = error_clip src_var /\
     stop_gradient v = stop_gradient src_var /\ is_data v = is_data src_var /\
     belong_to_optimizer v = belong_to_optimizer src_var /\
     parameter v = parameter src_var /\
     (parameter src_var = None -> persistable v = persistable src_var)) /\
    get_tensor_distributed_attr_for_program (auto_parallel_context e') v
    = Some {| t_topology := t_topology a; t_dims_mapping := t_dims_mapping a;
              _owner_tensor := desc_id v; _owner_context := _owner_context a |} /\
    (forall u : Var,
        desc_id u <> next_desc_id e ->
        get_tensor_distributed_attr_for_program (auto_parallel_context e') u
        = get_tensor_distributed_attr_for_program (auto_parallel_context e) u) /\
    _op_distributed_attr_map_for_program (auto_parallel_context e')
    = _op_distributed_attr_map_for_program (auto_parallel_context e).
Proof.
  intros Hvar Hdense Hattr Hshape Hdst.
  assert (Hty : type src_var <> READER) by (rewrite Hdense; discriminate).
  rewrite <- Hdense.
  unfold _partition_var, bind, liftR, gets. simpl.
  rewrite Hvar, (is_READER_false _ Hty), Hattr, Hshape. simpl.
  assert (Hfinish : forall pers kw,
    (kw = parameter src_var) ->
    (parameter src_var = None -> pers = persistable src_var) ->
    exists (e' : Env) (v : Var),
      (var <- create_var dst (type src_var) dst_varname target_shape (dtype src_var)
                (lod_level src_var) pers (error_clip src_var)
                (stop_gradient src_var) (is_data src_var)
                (belong_to_optimizer src_var) kw ;;
       copy_dist_attr src_var var) e = (e', inr tt) /\
      dst_var dst e' dst_varname = Some v /\
      (name v = dst_varname /\ shape v = target_shape /\
       desc_id v = next_desc_id e) /\
      (type v = type src_var /\ dtype v = dtype src_var /\
       lod_level v = lod_level src_var /\ error_clip v = error_clip src_var /\
       stop_gradient v = stop_gradient src_var /\ is_data v = is_data src_var /\
       belong_to_optimizer v = belong_to_optimizer src_var /\
       parameter v = parameter src_var /\
       (parameter src_var = None -> persistable v = persistable src_var)) /\
      get_tensor_distributed_attr_for_program (auto_parallel_context e') v
      = Some {| t_topology := t_topology a; t_dims_mapping := t_dims_mapping a;
                _owner_tensor := desc_id v; _owner_context := _owner_context a |} /\
      (forall u : Var,
          desc_id u <> next_desc_id e ->
          get_tensor_distributed_attr_for_program (auto_parallel_context e') u
          = get_tensor_distributed_attr_for_program (auto_parallel_context e) u) /\
      _op_distributed_attr_map_for_program (auto_parallel_context e')
      = _op_distributed_attr_map_for_program (auto_parallel_context e)).
  { intros pers kw Hkw Hpers.
    destruct (create_var_spec dst (type src_var) dst_varname target_shape
                (dtype src_var) (lod_level src_var) pers (error_clip src_var)
                (stop_gradient src_var) (is_data src_var)
                (belong_to_optimizer src_var) kw e Hdst) as [e1 [Hc [Hv Hctx]]].
    unfold bind. rewrite Hc.
    rewrite (copy_dist_attr_spec src_var _ a e1) by (rewrite Hctx; exact Hattr).
    eexists. eexists. split; [reflexivity|]. split.
    { rewrite <- Hv. apply dst_var_frame; reflexivity. }
    split; [repeat split|]. split; [repeat split; assumption|]. split.
    { unfold get_tensor_distributed_attr_for_program. simpl. apply lookup_insert_eq. }
    split; [|simpl; rewrite Hctx; reflexivity].
    intros u Hu. unfold get_tensor_distributed_attr_for_program. simpl.
    rewrite lookup_insert_ne by (simpl; congruence). rewrite Hctx. reflexivity. }
  destruct (is_Parameter src_var) eqn:Hp.
  - unfold _partition_parameter, is_Parameter in *.
    destruct (parameter src_var) as [kw|] eqn:Hkw; [|discriminate].
    apply Hfinish; [reflexivity|discriminate].
  - unfold _partition_intermediate_var, is_Parameter in *.
    destruct (parameter src_var) as [kw|] eqn:Hkw; [discriminate|].
    apply Hfinish; [reflexivity|reflexivity].
Qed.

Lemma partition_var_tensor_witness :
  exists (e' : Env) (v : Var),
    _partition_var (global_block Demo.serial_main) DstMain "w" "w" Demo.env0
    = (e', inr tt) /\
    dst_var DstMain e' "w" = Some v /\
    shape v = [64; 64].
Proof.
  destruct (partition_var_tensor (global_block Demo.serial_main) DstMain "w" "w"
              Demo.env0 Demo.w (Demo.tensor_attr 2 [0; -1]) [64; 64])
    as [e' [v [Hrun [Hv [[_ [Hshape _]] _]]]]].
  - reflexivity.
  - reflexivity.
  - vm_compute. reflexivity.
  - reflexivity.
  - eexists. reflexivity.
  - exists e', v. split; [exact Hrun|]. split; [exact Hv|exact Hshape].
Defined.

Lemma mapR_inl {A B} (f : A -> Result B) (l : list A) (e : Fault) :
  mapR f l = inl e -> exists x, x ∈ l /\ f x = inl e.
Proof.
  induction l as [|a l IH]; simpl; [discriminate|].
  destruct (f a) as [e'|y] eqn:Hfa; simpl.
  - intros H. injection H as <-. exists a. split; [left|exact Hfa].
  - destruct (mapR f l) as [e'|ys]; simpl; [|discriminate].
    intros H. injection H as <-. destruct (IH eq_refl) as [x [Hx Hfx]].
    exists x. split; [right; exact Hx|exact Hfx].
Qed.

Lemma py_getitem_fault {A} (l : list A) (i : Z) (f : Fault) :
  py_getitem l i = inl f -> f = PyIndexError.
Proof.
  unfold py_getitem. destruct (_ || _); [congruence|].
  destruct (l !! _); congruence.
Qed.

Lemma dist_dim_fault (var_shape mapping mesh : list Z) (idx : nat) (f : Fault) :
  dist_dim var_shape mapping mesh idx = inl f -> shape_fault f.
Proof.
  unfold dist_dim, shape_fault.
  destruct (py_getitem var_shape _) as [f0|s] eqn:Hs; simpl.
  { intros H. injection H as <-. left. apply (py_getitem_fault _ _ _ Hs). }
  destruct (s =? -1); [discriminate|].
  destruct (py_getitem mapping _) as [f0|m] eqn:Hm; simpl.
  { intros H. injection H as <-. left. apply (py_getitem_fault _ _ _ Hm). }
  destruct (m =? -1); [discriminate|].
  destruct (py_getitem mesh m) as [f0|e] eqn:He; simpl.
  { intros H. injection H as <-. left. apply (py_getitem_fault _ _ _ He). }
  unfold py_mod, py_floordiv. destruct (e =? 0); simpl.
  { intros H. injection H as <-. right. left. reflexivity. }
  destruct (s mod e =? 0); simpl; [discriminate|].
  intros H. injection H as <-. right. right. reflexivity.
Qed.

Lemma get_dist_shape_fault (var : Var) (a : TensorDistributedAttribute) (f : Fault) :
  _get_dist_shape var (Some a) = inl f -> f = ShapeMismatch \/ shape_fault f.
Proof.
  unfold _get_dist_shape. destruct (Nat.eqb _ _); simpl.
  - intros H. apply mapR_inl in H as [idx [_ H]]. right.
    apply (dist_dim_fault _ _ _ _ _ H).
  - intros H. injection H as <-. left. reflexivity.
Qed.

(** X7: on a source block whose variable of that name, if any, is a dense
    tensor ([LOD_TENSOR]) or a reader, [_partition_var] is all or nothing:
    when it raises, the environment is exactly as before (no variable
    created, no attribute registered), and the fault is a [ValueError] (name
    unknown to the source block) or, on a dense tensor, an [AttributeError]
    (no attribute in the store), a [ShapeMismatch] or a fault of the shape
    loop; on a reader it does not raise.  Variables of the other types are
    left out: the framework's [lod_level] and [shape] accessors raise on
    them, where the record fields read here are total. *)
Theorem partition_var_atomic (src_block : Block) (dst : Dst)
    (src_varname dst_varname : string) (e e' : Env) (f : Fault) :
  (forall src_var,
      block_var src_block src_varname = inr src_var ->
      type src_var = LOD_TENSOR \/ type src_var = READER) ->
  _partition_var src_block dst src_varname dst_varname e = (e', inl f) ->
  e' = e /\
  ((f = PyValueError /\ has_var src_block src_varname = false) \/
   (exists src_var,
       block_var src_block src_varname = inr src_var /\
       type src_var = LOD_TENSOR /\
       ((f = PyAttributeError /\
         get_tensor_distributed_attr_for_program (auto_parallel_context e) src_var
         = None) \/
        f = ShapeMismatch \/ shape_fault f))).
Proof.
  unfold _partition_var, bind, liftR, gets, has_var, block_var. simpl.
  destruct (find_var (vars src_block) src_varname) as [src_var|]; simpl.
  2:{ intros _ H. injection H as <- <-. split; [reflexivity|].
      left. split; reflexivity. }
  intros Hkind. specialize (Hkind src_var eq_refl).
  destruct (is_READER src_var) eqn:Hreader.
  { destruct (create_var_total dst (type src_var) dst_varname [] None None true
                None true false false None e) as [e1 [Hc _]].
    rewrite Hc. discriminate. }
  assert (Hty : type src_var = LOD_TENSOR).
  { unfold is_READER in Hreader. destruct Hkind as [Hk|Hk]; [exact Hk|].
    rewrite Hk in Hreader. discriminate. }
  destruct (get_tensor_distributed_attr_for_program _ src_var) as [a|] eqn:Hattr.
  2:{ simpl. intros H. injection H as <- <-. split; [reflexivity|]. right.
      exists src_var. split; [reflexivity|]. split; [exact Hty|]. left.
      split; [reflexivity|exact Hattr]. }
  destruct (_get_dist_shape src_var (Some a)) as [f0|target_shape] eqn:Hshape; simpl.
  { intros H. injection H as <- <-. split; [reflexivity|]. right.
    exists src_var. split; [reflexivity|]. split; [exact Hty|]. right.
    apply (get_dist_shape_fault _ _ _ Hshape). }
  assert (Hnever : forall pers kw,
    snd ((var <- create_var dst (type src_var) dst_varname target_shape
                   (dtype src_var) (lod_level src_var) pers (error_clip src_var)
                   (stop_gradient src_var) (is_data src_var)
                   (belong_to_optimizer src_var) kw ;;
          copy_dist_attr src_var var) e) = inr tt).
  { intros pers kw.
    destruct (create_var_total dst (type src_var) dst_varname target_shape
                (dtype src_var) (lod_level src_var) pers (error_clip src_var)
                (stop_gradient src_var) (is_data src_var)
                (belong_to_optimizer src_var) kw e) as [e1 [Hc Hctx]].
    unfold bind. rewrite Hc.
    rewrite (copy_dist_attr_spec src_var _ a e1) by (rewrite Hctx; exact Hattr).
    reflexivity. }
  destruct (is_Parameter src_var) eqn:Hp.
  - unfold _partition_parameter, is_Parameter in *.
    destruct (parameter src_var) as [kw|]; [|discriminate].
    intros H. specialize (Hnever true (Some kw)). rewrite H in Hnever. discriminate.
  - unfold _partition_intermediate_var.
    intros H. specialize (Hnever (persistable src_var) None).
    rewrite H in Hnever. discriminate.
Qed.

Lemma partition_var_atomic_witness :
  _partition_var Scenario.block_255 DstMain "w" "w" Scenario.env_255
  = (Scenario.env_255, inl UnevenPartition) /\
  Scenario.env_255 = Scenario.env_255.
Proof.
  assert (Hrun : _partition_var Scenario.block_255 DstMain "w" "w" Scenario.env_255
                 = (Scenario.env_255, inl UnevenPartition))
    by (vm_compute; reflexivity).
  split; [exact Hrun|].
  refine (proj1 (partition_var_atomic Scenario.block_255 DstMain "w" "w"
                   Scenario.env_255 Scenario.env_255 UnevenPartition _ Hrun)).
  intros src_var Hvar. vm_compute in Hvar. injection Hvar as <-.
  left. reflexivity.
Defined.

(** ** Invariants of the partitioner through the phases *)

Lemma bind_inr {S A B} (c : M S A) (k : A -> M S B) (s s' : S) (b : B) :
  bind c k s = (s', inr b) ->
  exists s1 a, c s = (s1, inr a) /\ k a s1 = (s', inr b).
Proof.
  unfold bind. destruct (c s) as [s1 [f|a]]; [discriminate|].
  intros H. exists s1, a. split; [reflexivity|exact H].
Qed.

Section Respects.

Context (R : Partitioner -> Partitioner -> Prop).
Context (R_refl : forall p, R p p).
Context (R_trans : forall p q r, R p q -> R q r -> R p r).

Lemma respects_ret {A} (a : A) : respects R (ret a).
Proof. intros w. apply R_refl. Qed.

Lemma respects_raise {A} (f : Fault) : respects R (@raise World A f).
Proof. intros w. apply R_refl. Qed.

Lemma respects_gets {A} (f : World -> A) : respects R (gets f).
Proof. intros w. apply R_refl. Qed.

Lemma respects_liftR {A} (r : Result A) : respects R (liftR r).
Proof. intros w. apply R_refl. Qed.

Lemma respects_liftEnv {A} (c : M Env A) : respects R (liftEnv c).
Proof.
  intros w. unfold liftEnv. destruct (c (env w)) as [e' r]. apply R_refl.
Qed.

Lemma respects_assert (b : bool) (f : Fault) : respects R (assert_ b f).
Proof. destruct b; [apply respects_ret|apply respects_raise]. Qed.

Lemma respects_bind {A B} (c : M World A) (k : A -> M World B) :
  respects R c -> (forall a, respects R (k a)) -> respects R (bind c k).
Proof.
  intros Hc Hk w. unfold bind. specialize (Hc w).
  destruct (c w) as [w' [f|a]]; simpl in *; [exact Hc|].
  apply (R_trans _ _ _ Hc). apply Hk.
Qed.

Lemma respects_for_each {A} (body : A -> M World unit) (l : list A) :
  (forall x, x ∈ l -> respects R (body x)) -> respects R (for_each body l).
Proof.
  induction l as [|x l IH]; intros Hbody; simpl.
  - apply respects_ret.
  - apply respects_bind; [apply Hbody; left|].
    intros _. apply IH. intros y Hy. apply Hbody. right. exact Hy.
Qed.

Lemma respects_foldM {A B} (body : B -> A -> M World B) (l : list A) (acc : B) :
  (forall b x, respects R (body b x)) -> respects R (foldM body l acc).
Proof.
  intros Hbody. revert acc. induction l as [|x l IH]; intros acc; simpl.
  - apply respects_ret.
  - apply respects_bind; [apply Hbody|intros acc'; apply IH].
Qed.

Lemma respects_mapM {A B} (f : A -> M World B) (l : list A) :
  (forall x, respects R (f x)) -> respects R (mapM f l).
Proof.
  intros Hf. induction l as [|x l IH]; simpl.
  - apply respects_ret.
  - apply respects_bind; [apply Hf|]. intros y.
    apply respects_bind; [exact IH|]. intros ys. apply respects_ret.
Qed.

Create HintDb respects.

#[local] Hint Resolve respects_ret respects_raise respects_gets respects_liftR
  respects_liftEnv respects_assert : respects.

(** Solves [respects] goals on straight-line monadic code. *)
Ltac respects_step :=
  first
    [ solve [auto with respects]
    | apply respects_bind; [|intros ?]
    | apply respects_foldM; intros ? ?
    | apply respects_mapM; intros ? ].

Context (K : Collaborators).

Lemma respects_partition_op (op : Operator) : respects R (partition_op K op).
Proof. unfold partition_op. repeat respects_step. Qed.

Lemma respects_partition_startup_param (b : Block)
    (acc : gmap string string * gmap string (list Z)) (var : Var) :
  respects R (partition_startup_param b acc var).
Proof.
  unfold partition_startup_param. destruct (is_Parameter var);
    repeat respects_step.
Qed.

Lemma respects_copy_initializer (t : gmap string string)
    (p : gmap string (list Z)) (op : Operator) :
  respects R (copy_initializer t p op).
Proof.
  unfold copy_initializer. repeat respects_step.
  match goal with |- respects R (match ?x with _ => _ end) => destruct x end;
    repeat respects_step.
Qed.

#[local] Hint Resolve respects_partition_op respects_partition_startup_param
  respects_copy_initializer : respects.

(** The forward transpilation respects a relation that the partitioning of
    every name the serial operators refer to respects. *)
Lemma respects_forward_transpile (m : Program) (st : option Program) :
  (forall n, referenced (global_block m) n ->
             respects R (partition_input_var (global_block m) n) /\
             respects R (partition_output_var (global_block m) n)) ->
  respects R (_dist_var_op_forward_transpile K m st).
Proof.
  intros Hnames. unfold _dist_var_op_forward_transpile.
  respects_step; [auto with respects|].
  respects_step.
  { destruct st as [startup|]; repeat respects_step.
    apply respects_for_each. intros x _. auto with respects. }
  repeat respects_step.
  apply respects_for_each. intros op Hop. unfold transpile_op.
  apply respects_bind.
  { apply respects_for_each. intros n Hn. apply Hnames. exists op. auto. }
  intros _. apply respects_bind; [|intros _; auto with respects].
  apply respects_for_each. intros n Hn. apply Hnames. exists op. auto.
Qed.

Lemma respects_transpile_forward (m st : Program) :
  (forall n, referenced (global_block m) n ->
             respects R (partition_input_var (global_block m) n) /\
             respects R (partition_output_var (global_block m) n)) ->
  respects R (transpile_forward K m st).
Proof.
  intros Hnames. unfold transpile_forward, transpile_forward_impl.
  respects_step; [auto with respects|].
  respects_step; [auto with respects|].
  respects_step; [apply (respects_forward_transpile _ _ Hnames)|].
  respects_step; [auto with respects|].
  match goal with |- respects R (if ?x then _ else _) => destruct x end;
    [apply respects_raise|apply respects_ret].
Qed.

Lemma respects_serial_varname2dist_var (n : string) :
  respects R (_serial_varname2dist_var n).
Proof. unfold _serial_varname2dist_var. repeat respects_step. Qed.

#[local] Hint Resolve respects_serial_varname2dist_var : respects.

Lemma respects_transpile_backward_op (t : gmap nat Operator) (op : Operator) :
  respects R (transpile_backward_op K t op).
Proof.
  unfold transpile_backward_op. respects_step; [auto with respects|].
  match goal with |- respects R (match ?x with _ => _ end) => destruct x end;
    repeat respects_step.
Qed.

Lemma respects_translate (l : option (list Var)) :
  respects R
    (match l with
     | Some (p :: ps) =>
         l' <- mapM (fun param => _serial_varname2dist_var (name param)) (p :: ps) ;;
         ret (Some l')
     | other => ret other
     end).
Proof. destruct l as [[|p ps]|]; repeat respects_step. Qed.

Lemma respects_backward_transpile (l : Var) (m st : Program)
    (pl ngs : option (list Var)) (cb : option (list Callback)) :
  respects R (_dist_var_op_backward_transpile K l m st pl ngs cb).
Proof.
  unfold _dist_var_op_backward_transpile. respects_step; [auto with respects|].
  match goal with |- respects R (if ?x then _ else _) => destruct x end;
    [|apply respects_raise].
  respects_step; [auto with respects|].
  respects_step; [auto with respects|].
  respects_step; [apply respects_translate|].
  respects_step; [apply respects_translate|].
  repeat respects_step.
  apply respects_for_each. intros x _. apply respects_transpile_backward_op.
Qed.

Lemma respects_apply_backward (l : Var) (m st : Program)
    (pl ngs : option (list Var)) (cb : option (list Callback)) :
  respects R (apply_backward K l m st pl ngs cb).
Proof.
  unfold apply_backward, apply_backward_impl.
  respects_step; [apply respects_backward_transpile|].
  repeat respects_step.
  match goal with |- respects R (if ?x then _ else _) => destruct x end;
    [apply respects_raise|apply respects_ret].
Qed.

Lemma respects_apply_optimize (complete_update_annotation : M Env unit)
    (optimizer : Optimizer) (params_grads : list (Var * Var)) :
  respects R (apply_optimize complete_update_annotation optimizer params_grads).
Proof.
  unfold apply_optimize, apply_optimize_impl, _optimize_transpile.
  respects_step; [auto with respects|].
  respects_step.
  { match goal with |- respects R (if ?x then _ else _) => destruct x end;
      [apply respects_raise|apply respects_ret]. }
  repeat respects_step.
Qed.

End Respects.

(** ** The keys of the renaming table *)

Lemma grows_keeps_key (p p' : Partitioner) (k : string) :
  grows p p' ->
  is_Some (_serial2dist_varname_mapping p !! k) ->
  is_Some (_serial2dist_varname_mapping p' !! k).
Proof.
  intros [_ Hg] [v Hv]. specialize (Hg k). rewrite Hv in Hg. eauto.
Qed.

Lemma partition_input_var_covers (b : Block) (n : string) (w w1 : World) :
  partition_input_var b n w = (w1, inr tt) ->
  is_Some (renaming_table w1 !! n).
Proof.
  unfold partition_input_var, bind, gets, modify, renaming_table. simpl.
  destruct (_serial2dist_varname_mapping (self w) !! n) as [v|] eqn:Hn; simpl.
  - intros H. injection H as <-. rewrite Hn. eauto.
  - destruct (has_var b n).
    + unfold liftEnv.
      destruct (_partition_var b DstMain n _ (env w)) as [e' [f|[]]]; simpl;
        [discriminate|].
      intros H. injection H as <-. simpl. rewrite lookup_insert_eq. eauto.
    + match goal with |- context [assert_ ?c _ _] => destruct c end; simpl;
        [|discriminate].
      intros H. injection H as <-. simpl. rewrite lookup_insert_eq. eauto.
Qed.

Lemma partition_output_var_covers (b : Block) (n : string) (w w1 : World) :
  partition_output_var b n w = (w1, inr tt) ->
  is_Some (renaming_table w1 !! n).
Proof.
  unfold partition_output_var, bind, gets, modify, renaming_table. simpl.
  destruct (_serial2dist_varname_mapping (self w) !! n) as [v|] eqn:Hn; simpl.
  - intros H. injection H as <-. rewrite Hn. eauto.
  - unfold liftEnv.
    destruct (_partition_var b DstMain n _ (env w)) as [e' [f|[]]]; simpl;
      [discriminate|].
    intros H. injection H as <-. simpl. rewrite lookup_insert_eq. eauto.
Qed.

(** A loop of steps that grow the partitioner and each leave their own name
    in the table leaves every name of the list in the table. *)
Lemma for_each_covers (body : string -> M World unit) (names : list string)
    (w w' : World) :
  (forall n, extends (body n)) ->
  (forall n w0 w1, body n w0 = (w1, inr tt) -> is_Some (renaming_table w1 !! n)) ->
  for_each body names w = (w', inr tt) ->
  forall n, n ∈ names -> is_Some (renaming_table w' !! n).
Proof.
  intros Hext Hstep. revert w. induction names as [|x names IH]; intros w Hrun n Hn.
  - inversion Hn.
  - simpl in Hrun. apply bind_inr in Hrun as [w1 [[] [Hx Hrest]]].
    apply elem_of_cons in Hn as [-> | Hn].
    + pose proof (extends_for_each body names Hext w1) as Hg.
      rewrite Hrest in Hg. simpl in Hg.
      apply (grows_keeps_key _ _ _ Hg). apply (Hstep x w w1 Hx).
    + apply (IH w1 Hrest n Hn).
Qed.

Lemma transpile_op_covers (K : Collaborators) (b : Block) (op : Operator)
    (w w' : World) :
  transpile_op K b op w = (w', inr tt) ->
  forall n, n ∈ input_arg_names op \/ n ∈ output_arg_names op ->
            is_Some (renaming_table w' !! n).
Proof.
  unfold transpile_op. intros Hrun n Hn.
  apply bind_inr in Hrun as [w1 [[] [Hin Hrun]]].
  apply bind_inr in Hrun as [w2 [[] [Hout Hop]]].
  pose proof (extends_partition_op K op w2) as Hg3. rewrite Hop in Hg3. simpl in Hg3.
  apply (grows_keeps_key _ _ _ Hg3).
  destruct Hn as [Hn|Hn].
  - pose proof (extends_for_each (partition_output_var b) (output_arg_names op)
                  (extends_partition_output_var b) w1) as Hg2.
    rewrite Hout in Hg2. simpl in Hg2. apply (grows_keeps_key _ _ _ Hg2).
    apply (for_each_covers _ _ _ _ (extends_partition_input_var b)
             (partition_input_var_covers b) Hin n Hn).
  - apply (for_each_covers _ _ _ _ (extends_partition_output_var b)
             (partition_output_var_covers b) Hout n Hn).
Qed.

Lemma ops_loop_covers (K : Collaborators) (b : Block) (l : list Operator)
    (w w' : World) :
  for_each (transpile_op K b) l w = (w', inr tt) ->
  forall op n, op ∈ l -> n ∈ input_arg_names op \/ n ∈ output_arg_names op ->
               is_Some (renaming_table w' !! n).
Proof.
  revert w. induction l as [|x l IH]; intros w Hrun op n Hop Hn.
  - inversion Hop.
  - simpl in Hrun. apply bind_inr in Hrun as [w1 [[] [Hx Hrest]]].
    apply elem_of_cons in Hop as [-> | Hop].
    + pose proof (extends_for_each (transpile_op K b) l
                    (extends_transpile_op K b) w1) as Hg.
      rewrite Hrest in Hg. simpl in Hg.
      apply (grows_keeps_key _ _ _ Hg). apply (transpile_op_covers K b x w w1 Hx n Hn).
    + apply (IH w1 Hrest op n Hop Hn).
Qed.

Lemma forward_transpile_covers (K : Collaborators) (m : Program)
    (st : option Program) (w w' : World) (progs : Program * option Program) :
  _dist_var_op_forward_transpile K m st w = (w', inr progs) ->
  forall k, referenced (global_block m) k -> is_Some (renaming_table w' !! k).
Proof.
  unfold _dist_var_op_forward_transpile. intros Hrun k [op [Hop Hk]].
  apply bind_inr in Hrun as [w1 [[] [_ Hrun]]].
  apply bind_inr in Hrun as [w2 [[] [_ Hrun]]].
  apply bind_inr in Hrun as [w3 [r [Hr Hrun]]].
  unfold gets in Hr. injection Hr as <- <-.
  apply bind_inr in Hrun as [w4 [[] [_ Hrun]]].
  apply bind_inr in Hrun as [w5 [[] [Hloop Hrun]]].
  unfold gets in Hrun. injection Hrun as <- _.
  apply (ops_loop_covers K _ _ _ _ Hloop op k Hop Hk).
Qed.

Lemma within_refl (N : string -> Prop) (p : Partitioner) : within N p p.
Proof. intros k Hk. left. exact Hk. Qed.

Lemma within_trans (N : string -> Prop) (p q r : Partitioner) :
  within N p q -> within N q r -> within N p r.
Proof.
  intros H1 H2 k Hk. destruct (H2 k Hk) as [Hq|HN]; [|right; exact HN].
  apply (H1 k Hq).
Qed.

Lemma within_insert (N : string -> Prop) (w w0 : World) (n v : string) :
  N n -> self w0 = self w ->
  within N (self w)
    (self (set_mapping (<[n := v]> (_serial2dist_varname_mapping (self w0))) w0)).
Proof.
  intros HN Hself k. simpl. rewrite Hself.
  destruct (decide (n = k)) as [<-|Hne]; [right; exact HN|].
  rewrite lookup_insert_ne by exact Hne. left. assumption.
Qed.

Lemma within_partition_input_var (N : string -> Prop) (b : Block) (n : string) :
  N n -> respects (within N) (partition_input_var b n).
Proof.
  intros HN w. unfold partition_input_var, bind, gets, modify. simpl.
  destruct (_serial2dist_varname_mapping (self w) !! n) as [v|]; simpl.
  - apply within_refl.
  - destruct (has_var b n).
    + unfold liftEnv.
      destruct (_partition_var b DstMain n _ (env w)) as [e' [f|[]]]; simpl.
      * apply within_refl.
      * apply (within_insert N w {| self := self w; env := e' |} n _ HN eq_refl).
    + match goal with |- context [assert_ ?c _ _] => destruct c end; simpl.
      * apply (within_insert N w w n _ HN eq_refl).
      * apply within_refl.
Qed.

Lemma within_partition_output_var (N : string -> Prop) (b : Block) (n : string) :
  N n -> respects (within N) (partition_output_var b n).
Proof.
  intros HN w. unfold partition_output_var, bind, gets, modify. simpl.
  destruct (_serial2dist_varname_mapping (self w) !! n) as [v|]; simpl.
  - apply within_refl.
  - unfold liftEnv.
    destruct (_partition_var b DstMain n _ (env w)) as [e' [f|[]]]; simpl.
    + apply within_refl.
    + apply (within_insert N w {| self := self w; env := e' |} n _ HN eq_refl).
Qed.

Lemma forward_keys_within (K : Collaborators) (m : Program) :
  (forall st, respects (within (referenced (global_block m)))
                (_dist_var_op_forward_transpile K m st)) /\
  (forall startup, respects (within (referenced (global_block m)))
                     (transpile_forward K m startup)).
Proof.
  set (N := referenced (global_block m)).
  assert (Hnames : forall n, N n ->
             respects (within N) (partition_input_var (global_block m) n) /\
             respects (within N) (partition_output_var (global_block m) n)).
  { intros n Hn. split;
      [apply within_partition_input_var|apply within_partition_output_var]; exact Hn. }
  split.
  - intros st. apply (respects_forward_transpile (within N) (within_refl N)
                        (within_trans N) K m st Hnames).
  - intros startup. apply (respects_transpile_forward (within N) (within_refl N)
                             (within_trans N) K m startup Hnames).
Qed.

(** X8: once the forward transpilation has returned, the keys of the renaming
    table are the keys it had before together with exactly the names the
    operators of the serial main program refer to: every referenced name is
    mapped, and a variable that is declared but referenced by no operator is
    not.  When it raises, the second half still holds: no other key is ever
    added.  The same holds of the forward phase as a whole. *)
Theorem renaming_table_keys (K : Collaborators) (m : Program)
    (st : option Program) (w : World) :
  (forall k,
      is_Some (renaming_table (fst (_dist_var_op_forward_transpile K m st w)) !! k) ->
      is_Some (renaming_table w !! k) \/ referenced (global_block m) k) /\
  (forall w' progs,
      _dist_var_op_forward_transpile K m st w = (w', inr progs) ->
      forall k, is_Some (renaming_table w' !! k) <->
                is_Some (renaming_table w !! k) \/ referenced (global_block m) k) /\
  (forall startup w' progs,
      transpile_forward K m startup w = (w', inr progs) ->
      forall k, is_Some (renaming_table w' !! k) <->
                is_Some (renaming_table w !! k) \/ referenced (global_block m) k).
Proof.
  set (N := referenced (global_block m)).
  assert (Hnames : forall n, N n ->
             respects (within N) (partition_input_var (global_block m) n) /\
             respects (within N) (partition_output_var (global_block m) n)).
  { intros n Hn. split;
      [apply within_partition_input_var|apply within_partition_output_var]; exact Hn. }
  assert (Hupper : forall st0,
             respects (within N) (_dist_var_op_forward_transpile K m st0)).
  { intros st0.
    apply (respects_forward_transpile (within N) (within_refl N) (within_trans N)
             K m st0 Hnames). }
  split; [exact (Hupper st w)|]. split.
  - intros w' progs Hrun k. split.
    + intros Hk. pose proof (Hupper st w k) as Hu. rewrite Hrun in Hu. apply (Hu Hk).
    + intros [Hk|Hk].
      * pose proof (extends_forward_transpile K m st w) as Hg. rewrite Hrun in Hg.
        apply (grows_keeps_key _ _ _ Hg Hk).
      * apply (forward_transpile_covers K m st w w' progs Hrun k Hk).
  - intros startup w' progs Hrun k. split.
    + intros Hk.
      pose proof (respects_transpile_forward (within N) (within_refl N)
                    (within_trans N) K m startup Hnames w k) as Hu.
      rewrite Hrun in Hu. apply (Hu Hk).
    + intros [Hk|Hk].
      * pose proof (extends_transpile_forward K m startup w) as Hg. rewrite Hrun in Hg.
        apply (grows_keeps_key _ _ _ Hg Hk).
      * unfold transpile_forward, transpile_forward_impl in Hrun.
        apply bind_inr in Hrun as [w1 [c [Hc Hrun]]].
        unfold gets in Hc. injection Hc as <- <-.
        apply bind_inr in Hrun as [w2 [[] [Hgate Hrun]]].
        assert (w2 = w) as ->.
        { unfold assert_ in Hgate. destruct (_is_valid_annotated_program _ m);
            [unfold ret in Hgate; congruence|discriminate]. }
        apply bind_inr in Hrun as [w3 [p [Hfwd Hrun]]].
        apply bind_inr in Hrun as [w4 [sh [Hsh Hrun]]].
        unfold gets in Hsh. injection Hsh as <- <-.
        destruct (sharding _); [discriminate|].
        unfold ret in Hrun. injection Hrun as <- _.
        apply (forward_transpile_covers K m _ w w3 p Hfwd k Hk).
Qed.

Lemma renaming_table_keys_witness :
  is_Some (renaming_table Demo.forwarded !! "loss").
Proof.
  refine (proj2 (proj2 (proj2
    (renaming_table_keys Demo.K Demo.serial_main None Demo.fresh))
      Demo.serial_startup Demo.forwarded _ _ "loss") _).
  - vm_compute. reflexivity.
  - right. exists Demo.mean_op. split.
    + simpl. right. left.
    + right. simpl. left.
Defined.

(** ** Names outside the block, names already mapped *)

Lemma has_var_false (b : Block) (n : string) :
  has_var b n = false -> block_var b n = inl PyValueError.
Proof.
  unfold has_var, block_var. destruct (find_var (vars b) n); [discriminate|reflexivity].
Qed.

(** X9: a name an operator refers to that the serial block does not declare
    and the table does not hold: as an input it is accepted only when it is
    the block-external queue name, and then it is mapped without any variable
    being created, so that a later lookup of it for the backward phase finds
    no distributed variable; any other input name is a [ConsistencyFault];
    as an output it is a [ValueError] whatever the name.  The faults leave
    the world untouched. *)
Theorem block_external_names (b : Block) (n : string) (w : World) :
  has_var b n = false ->
  renaming_table w !! n = None ->
  (n = "lod_tensor_blocking_queue_0" ->
   let new_varname := String.append n (_dist_varname_suffix (self w)) in
   let w' := set_mapping (<[n := new_varname]> (renaming_table w)) w in
   partition_input_var b n w = (w', inr tt) /\
   env w' = env w /\
   (has_var (global_block (dist_main_program (env w))) new_varname = false ->
    _serial_varname2dist_var n w' = (w', inl DistVarNotFound))) /\
  (n <> "lod_tensor_blocking_queue_0" ->
   partition_input_var b n w = (w, inl ConsistencyFault)) /\
  partition_output_var b n w = (w, inl PyValueError).
Proof.
  intros Hhas Hn. unfold renaming_table in *. split; [|split].
  - intros ->. simpl. split; [|split; [reflexivity|]].
    + unfold partition_input_var, bind, gets, modify. simpl.
      rewrite Hn, Hhas. reflexivity.
    + intros Hdist. unfold _serial_varname2dist_var, bind, gets, liftR, dict_getitem.
      simpl. rewrite lookup_insert_eq. simpl. rewrite Hdist. reflexivity.
  - intros Hne. unfold partition_input_var, bind, gets. simpl.
    rewrite Hn, Hhas. unfold in_names. simpl.
    destruct (String.eqb_spec n "lod_tensor_blocking_queue_0"); [contradiction|].
    reflexivity.
  - unfold partition_output_var, bind, gets, liftEnv. simpl. rewrite Hn.
    unfold _partition_var, bind, liftR. rewrite (has_var_false _ _ Hhas).
    destruct w; reflexivity.
Qed.

Lemma block_external_names_witness :
  partition_output_var (global_block Demo.serial_main)
    "lod_tensor_blocking_queue_0" Demo.fresh
  = (Demo.fresh, inl PyValueError) /\
  snd (partition_input_var (global_block Demo.serial_main)
         "lod_tensor_blocking_queue_0" Demo.fresh) = inr tt.
Proof.
  pose proof (block_external_names (global_block Demo.serial_main)
                "lod_tensor_blocking_queue_0" Demo.fresh eq_refl eq_refl)
    as [Hin [_ Hout]].
  split; [exact Hout|].
  destruct (Hin eq_refl) as [Hrun _]. rewrite Hrun. reflexivity.
Defined.

Lemma apply_backward_unmapped_loss (K : Collaborators) (w : World) (loss : Var)
    (main startup : Program) (pl ngs : option (list Var))
    (cb : option (list Callback)) :
  _compatible_with_auto_backward (self w) = true ->
  renaming_table w !! name loss = None ->
  apply_backward K loss main startup pl ngs cb w = (w, inl LookupFailure).
Proof.
  intros Hcompat Hn. unfold renaming_table in Hn.
  unfold apply_backward, apply_backward_impl, _dist_var_op_backward_transpile,
    _serial_varname2dist_var, bind, gets. simpl.
  rewrite Hcompat. simpl. rewrite Hn. reflexivity.
Qed.

(** X10: a loss that the serial main program declares but that no operator
    refers to cannot be differentiated: after a forward phase that returned
    on a fresh partitioner, the backward phase raises [LookupFailure] for it
    and changes nothing. *)
Theorem unreferenced_loss_is_lookup_failure (K : Collaborators)
    (dist_strategy : DistributedStrategy) (rank_id : Z) (e : Env)
    (main startup : Program) (w' : World) (progs : Program * option Program)
    (loss : Var) (pl ngs : option (list Var)) (cb : option (list Callback)) :
  transpile_forward K main startup
    {| self := __init__ dist_strategy rank_id; env := e |} = (w', inr progs) ->
  ~ referenced (global_block main) (name loss) ->
  apply_backward K loss main startup pl ngs cb w' = (w', inl LookupFailure).
Proof.
  intros Hrun Hunref.
  set (w := {| self := __init__ dist_strategy rank_id; env := e |}) in *.
  apply apply_backward_unmapped_loss.
  - pose proof (extends_transpile_forward K main startup w) as [Hc _].
    rewrite Hrun in Hc. simpl in Hc. unfold config in Hc. simpl in Hc. congruence.
  - destruct (renaming_table w' !! name loss) as [v|] eqn:Hv; [|reflexivity].
    exfalso.
    pose proof (proj2 (forward_keys_within K main) startup w (name loss)) as Hup.
    rewrite Hrun in Hup.
    destruct (Hup (mk_is_Some _ _ Hv)) as [[v0 Hv0]|Href].
    + unfold renaming_table, w in Hv0. simpl in Hv0. rewrite lookup_empty in Hv0.
      discriminate.
    + contradiction.
Qed.

Lemma unreferenced_loss_is_lookup_failure_witness :
  apply_backward Demo.K Demo.ghost Demo.serial_main Demo.serial_startup
    None None None Demo.forwarded
  = (Demo.forwarded, inl LookupFailure).
Proof.
  refine (unreferenced_loss_is_lookup_failure Demo.K {| sharding := false |} 0
            Demo.env0 Demo.serial_main Demo.serial_startup Demo.forwarded _
            Demo.ghost None None None _ _).
  - vm_compute. reflexivity.
  - intros [op [Hop Hk]]. simpl in Hop.
    repeat (apply elem_of_cons in Hop as [-> | Hop]); [| |inversion Hop];
      simpl in Hk; destruct Hk as [Hk|Hk];
      repeat (apply elem_of_cons in Hk as [Hk | Hk]; [discriminate Hk|]);
      inversion Hk.
Defined.

Lemma mapped_names_skipped (b : Block) (names : list string) (w : World) :
  (forall n, n ∈ names -> is_Some (renaming_table w !! n)) ->
  for_each (partition_input_var b) names w = (w, inr tt) /\
  for_each (partition_output_var b) names w = (w, inr tt).
Proof.
  induction names as [|x names IH]; intros Hall; [split; reflexivity|].
  destruct (Hall x) as [v Hv]; [left|]. unfold renaming_table in Hv.
  destruct IH as [IHin IHout]; [intros n Hn; apply Hall; right; exact Hn|].
  split; simpl; unfold bind.
  - unfold partition_input_var at 1, bind, gets. simpl. rewrite Hv. simpl.
    exact IHin.
  - unfold partition_output_var at 1, bind, gets. simpl. rewrite Hv. simpl.
    exact IHout.
Qed.

(** X11: each name is partitioned once: after a forward transpilation that
    returned, the two variable loops of any operator of the serial main
    program return without changing anything when they are run again, on any
    block; names already in the renaming table are skipped without a look at
    the block. *)
Theorem names_are_partitioned_once (K : Collaborators) (m : Program)
    (st : option Program) (w w' : World) (progs : Program * option Program)
    (b' : Block) (op : Operator) :
  _dist_var_op_forward_transpile K m st w = (w', inr progs) ->
  op ∈ ops (global_block m) ->
  for_each (partition_input_var b') (input_arg_names op) w' = (w', inr tt) /\
  for_each (partition_output_var b') (output_arg_names op) w' = (w', inr tt).
Proof.
  intros Hrun Hop.
  pose proof (forward_transpile_covers K m st w w' progs Hrun) as Hcov.
  split.
  - apply (mapped_names_skipped b' _ w'). intros n Hn. apply Hcov. exists op. auto.
  - apply (mapped_names_skipped b' _ w'). intros n Hn. apply Hcov. exists op. auto.
Qed.

Lemma names_are_partitioned_once_witness :
  for_each (partition_input_var {| vars := []; ops := [] |})
    (input_arg_names Demo.matmul_op) Demo.forwarded
  = (Demo.forwarded, inr tt).
Proof.
  refine (proj1 (names_are_partitioned_once Demo.K Demo.serial_main
                   (Some Demo.serial_startup) Demo.fresh Demo.forwarded _
                   {| vars := []; ops := [] |} Demo.matmul_op _ _)).
  - vm_compute. reflexivity.
  - simpl. left.
Defined.

(** X12: what the forward loop partitions, the backward phase finds: right
    after a name that was not in the table has been partitioned, the lookup
    of that name returns the distributed variable, which is registered in the
    destination main program under the serial name followed by the suffix. *)
Theorem partitioned_variable_is_found (b : Block) (n : string) (w w' : World) :
  renaming_table w !! n = None ->
  partition_output_var b n w = (w', inr tt) \/
  (has_var b n = true /\ partition_input_var b n w = (w', inr tt)) ->
  exists v : Var,
    _serial_varname2dist_var n w' = (w', inr v) /\
    name v = String.append n (_dist_varname_suffix (self w)) /\
    dst_var DstMain (env w') (name v) = Some v.
Proof.
  intros Hn Hrun. unfold renaming_table in Hn.
  assert (Hpv : exists e',
             _partition_var b DstMain n
               (String.append n (_dist_varname_suffix (self w))) (env w)
             = (e', inr tt) /\
             w' = set_mapping
                    (<[n := String.append n (_dist_varname_suffix (self w))]>
                       (_serial2dist_varname_mapping (self w)))
                    {| self := self w; env := e' |}).
  { destruct Hrun as [Hrun|[Hhas Hrun]].
    - unfold partition_output_var, bind, gets, liftEnv, modify in Hrun.
      simpl in Hrun. rewrite Hn in Hrun. simpl in Hrun.
      destruct (_partition_var b DstMain n _ (env w)) as [e' [f|[]]]; simpl in Hrun;
        [discriminate|].
      exists e'. split; [reflexivity|]. congruence.
    - unfold partition_input_var, bind, gets, liftEnv, modify in Hrun.
      simpl in Hrun. rewrite Hn, Hhas in Hrun. simpl in Hrun.
      destruct (_partition_var b DstMain n _ (env w)) as [e' [f|[]]]; simpl in Hrun;
        [discriminate|].
      exists e'. split; [reflexivity|]. congruence. }
  destruct Hpv as [e' [Hpv ->]].
  destruct (partition_var_registers b DstMain n
              (String.append n (_dist_varname_suffix (self w))) (env w) e')
    as [v [Hv Hname]]; [eexists; reflexivity|exact Hpv|].
  exists v. split; [|split; [exact Hname|rewrite Hname; exact Hv]].
  unfold dst_var in Hv. simpl in Hv.
  unfold _serial_varname2dist_var, bind, gets, liftR, dict_getitem, has_var,
    block_var. simpl.
  rewrite lookup_insert_eq. simpl. rewrite Hv. reflexivity.
Qed.

Lemma partitioned_variable_is_found_witness :
  exists v : Var,
    snd (_serial_varname2dist_var "x"
           (fst (partition_output_var (global_block Demo.serial_main) "x"
                   Demo.fresh))) = inr v /\
    name v = "x".
Proof.
  destruct (partitioned_variable_is_found (global_block Demo.serial_main) "x"
              Demo.fresh
              (fst (partition_output_var (global_block Demo.serial_main) "x"
                      Demo.fresh)))
    as [v [Hrun [Hname _]]].
  - vm_compute. reflexivity.
  - left. vm_compute. reflexivity.
  - exists v. rewrite Hrun. split; [reflexivity|exact Hname].
Defined.

(** ** The validation gate *)

Lemma forallb_is_Some {A B} (f : A -> option B) (l : list A) :
  forallb (fun o => bool_decide (is_Some o)) (map f l) = true <->
  forall x, x ∈ l -> is_Some (f x).
Proof.
  induction l as [|a l IH]; simpl.
  - split; [intros _ x Hx; inversion Hx|reflexivity].
  - rewrite andb_true_iff, bool_decide_eq_true, IH. split.
    + intros [Ha Hl] x Hx. apply elem_of_cons in Hx as [-> | Hx]; auto.
    + intros H. split; [apply H; left|intros x Hx; apply H; right; exact Hx].
Qed.

(** X13: the forward phase runs its gate before anything else: it raises
    [IncompleteAnnotation] and leaves the world untouched exactly when some
    operator or some variable of the serial main program has no attribute in
    the store; the startup program is not examined by the gate. *)
Theorem validation_gate (K : Collaborators) (w : World) (main startup : Program) :
  let c := auto_parallel_context (env w) in
  (_is_valid_annotated_program c main = true <->
   (forall op, op ∈ ops (global_block main) ->
               is_Some (get_op_distributed_attr_for_program c op)) /\
   (forall v, v ∈ list_vars main ->
              is_Some (get_tensor_distributed_attr_for_program c v))) /\
  (_is_valid_annotated_program c main = false ->
   transpile_forward K main startup w = (w, inl IncompleteAnnotation)) /\
  (_is_valid_annotated_program c main = true ->
   transpile_forward K main startup w
   = (progs <- _dist_var_op_forward_transpile K main (Some startup) ;;
      if sharding (_dist_strategy (self w)) then raise NotSupported else ret progs) w).
Proof.
  intros c. split; [|split].
  - unfold _is_valid_annotated_program. rewrite andb_true_iff.
    rewrite !forallb_is_Some. reflexivity.
  - intros Hgate. unfold transpile_forward, transpile_forward_impl, bind, gets.
    simpl. fold c. rewrite Hgate. reflexivity.
  - intros Hgate. unfold transpile_forward, transpile_forward_impl, bind, gets.
    simpl. fold c. rewrite Hgate. simpl.
    pose proof (extends_forward_transpile K main (Some startup) w) as [Hc _].
    destruct (_dist_var_op_forward_transpile K main (Some startup) w)
      as [w1 [f|progs]]; simpl in *; [reflexivity|].
    rewrite (config_sharding _ _ Hc). reflexivity.
Qed.

Lemma validation_gate_witness :
  transpile_forward Demo.K Demo.unannotated_main Demo.serial_startup Demo.fresh
  = (Demo.fresh, inl IncompleteAnnotation).
Proof.
  refine (proj1 (proj2 (validation_gate Demo.K Demo.fresh Demo.unannotated_main
                          Demo.serial_startup)) _).
  vm_compute. reflexivity.
Defined.

(** ** The later phases *)

(** X14: the backward and the optimize phase never write the partitioner:
    its renaming table, suffix, strategy, rank and compatibility flag are the
    same after the call, whether it returned or raised. *)
Theorem later_phases_keep_partitioner (K : Collaborators)
    (complete_update_annotation : M Env unit) (w : World) :
  (forall (loss : Var) (main startup : Program) (pl ngs : option (list Var))
          (cb : option (list Callback)),
      self (fst (apply_backward K loss main startup pl ngs cb w)) = self w /\
      self (fst (_dist_var_op_backward_transpile K loss main startup pl ngs cb w))
      = self w) /\
  (forall (optimizer : Optimizer) (params_grads : list (Var * Var)),
      self (fst (apply_optimize complete_update_annotation optimizer params_grads w))
      = self w).
Proof.
  assert (Hrefl : forall p : Partitioner, p = p) by reflexivity.
  assert (Htrans : forall p q r : Partitioner, p = q -> q = r -> p = r)
    by (intros; congruence).
  split.
  - intros. split; symmetry.
    + apply (respects_apply_backward eq Hrefl Htrans K).
    + apply (respects_backward_transpile eq Hrefl Htrans K).
  - intros. symmetry. apply (respects_apply_optimize eq Hrefl Htrans).
Qed.

(** X15: with the sharding flag set the later phases cannot return either:
    the backward phase runs its whole transpilation and then raises a
    [NameError], its sharding hook being called on names that are bound
    nowhere; the optimize phase raises a [NameError] before the optimizer is
    called, leaving the world untouched. *)
Theorem sharding_breaks_later_phases (K : Collaborators)
    (complete_update_annotation : M Env unit) (w : World) :
  sharding (_dist_strategy (self w)) = true ->
  (forall (loss : Var) (main startup : Program) (pl ngs : option (list Var))
          (cb : option (list Callback)),
      apply_backward K loss main startup pl ngs cb w =
        match _dist_var_op_backward_transpile K loss main startup None None None w with
        | (w1, inl f) => (w1, inl f)
        | (w1, inr _) => (w1, inl PyNameError)
        end) /\
  (forall (optimizer : Optimizer) (params_grads : list (Var * Var)),
      apply_optimize complete_update_annotation optimizer params_grads w
      = (w, inl PyNameError)).
Proof.
  intros Hsh. split.
  - intros. unfold apply_backward, apply_backward_impl, bind, gets. simpl.
    pose proof (respects_backward_transpile eq (fun p => eq_refl)
                  (fun p q r (H1 : p = q) (H2 : q = r) => eq_trans H1 H2)
                  K loss main startup None None None w) as Hself.
    destruct (_dist_var_op_backward_transpile K loss main startup None None None w)
      as [w1 [f|pairs]]; simpl in *; [reflexivity|].
    rewrite <- Hself, Hsh. reflexivity.
  - intros. unfold apply_optimize, apply_optimize_impl, bind, gets. simpl.
    rewrite Hsh. reflexivity.
Qed.

Lemma sharding_breaks_later_phases_witness :
  apply_optimize (ret tt) (fun pairs => ret []) [] Demo.fresh_sharding
  = (Demo.fresh_sharding, inl PyNameError).
Proof.
  refine (proj2 (sharding_breaks_later_phases Demo.K (ret tt)
                   Demo.fresh_sharding _) (fun pairs => ret []) []).
  reflexivity.
Defined.

(** X16: gradient operators without a forward cross-reference are left
    alone: a loop over operators none of which the cross-reference knows
    returns with the world unchanged; and a cross-reference to an operator
    that is not among the recorded forward operators is a [KeyError]. *)
Theorem gradient_ops_without_cross_reference (K : Collaborators)
    (forward_op_id2forward_op : gmap nat Operator) (w : World) :
  (forall backward_ops : list Operator,
      (forall op, op ∈ backward_ops -> cross_reference w !! op_id op = None) ->
      for_each (transpile_backward_op K forward_op_id2forward_op) backward_ops w
      = (w, inr tt)) /\
  (forall (backward_op : Operator) (forward_op_id : nat),
      cross_reference w !! op_id backward_op = Some forward_op_id ->
      forward_op_id2forward_op !! forward_op_id = None ->
      transpile_backward_op K forward_op_id2forward_op backward_op w
      = (w, inl PyKeyError)).
Proof.
  unfold cross_reference. split.
  - induction backward_ops as [|op l IH]; intros Hnone; [reflexivity|].
    simpl. unfold bind at 1.
    unfold transpile_backward_op at 1, bind, gets. simpl.
    rewrite (Hnone op) by left. simpl.
    apply IH. intros op' Hop'. apply Hnone. right. exact Hop'.
  - intros backward_op forward_op_id Hx Hf.
    unfold transpile_backward_op, bind, gets, liftR. simpl. rewrite Hx, Hf.
    reflexivity.
Qed.

Lemma gradient_ops_without_cross_reference_witness :
  for_each (transpile_backward_op Demo.K ∅) [Demo.matmul_op; Demo.mean_op]
    Demo.forwarded
  = (Demo.forwarded, inr tt).
Proof.
  refine (proj1 (gradient_ops_without_cross_reference Demo.K ∅ Demo.forwarded)
            [Demo.matmul_op; Demo.mean_op] _).
  intros op Hop.
  repeat (apply elem_of_cons in Hop as [-> | Hop]);
    [vm_compute; reflexivity|vm_compute; reflexivity|inversion Hop].
Defined.

(** ** The scan for the first backward operator *)

Lemma scan_first_backward_gen (K : Collaborators) (l : list Operator) (idx : Z)
    (acc : gmap nat Operator) :
  let r := scan_first_backward K l idx acc in
  exists stop : option nat,
    match stop with
    | None => fst r = -1 /\ forall op, op ∈ l -> op_role op <> OpRole_Backward K
    | Some j =>
        fst r = idx + Z.of_nat j /\
        (exists op, l !! j = Some op /\ op_role op = OpRole_Backward K) /\
        (forall (j' : nat) op', (j' < j)%nat -> l !! j' = Some op' ->
                                op_role op' <> OpRole_Backward K)
    end /\
    let scanned := match stop with None => l | Some j => take (S j) l end in
    (forall id op, snd r !! id = Some op ->
                   acc !! id = Some op \/
                   (op ∈ scanned /\ is_forward_op K op = true /\ op_id op = id)) /\
    (forall op, op ∈ scanned -> is_forward_op K op = true ->
                is_Some (snd r !! op_id op)) /\
    (forall id, is_Some (acc !! id) -> is_Some (snd r !! id)).
Proof.
  revert idx acc. induction l as [|op l IH]; intros idx acc; simpl.
  - exists None. simpl. split; [split; [reflexivity|intros op Hop; inversion Hop]|].
    split; [intros id op H; left; exact H|].
    split; [intros op Hop; inversion Hop|intros id H; exact H].
  - set (seen := if is_forward_op K op then <[op_id op := op]> acc else acc).
    assert (Hseen_from : forall id o, seen !! id = Some o ->
               acc !! id = Some o \/
               (o = op /\ is_forward_op K op = true /\ op_id op = id)).
    { intros id o. unfold seen. destruct (is_forward_op K op); [|auto].
      destruct (decide (op_id op = id)) as [<-|Hne].
      - rewrite lookup_insert_eq. intros H. injection H as <-. right. auto.
      - rewrite lookup_insert_ne by exact Hne. auto. }
    assert (Hseen_op : is_forward_op K op = true -> is_Some (seen !! op_id op)).
    { intros Hf. unfold seen. rewrite Hf, lookup_insert_eq. eauto. }
    assert (Hseen_acc : forall id, is_Some (acc !! id) -> is_Some (seen !! id)).
    { intros id H. unfold seen. destruct (is_forward_op K op); [|exact H].
      destruct (decide (op_id op = id)) as [<-|Hne].
      - rewrite lookup_insert_eq. eauto.
      - rewrite lookup_insert_ne by exact Hne. exact H. }
    destruct (Z.eqb_spec (op_role op) (OpRole_Backward K)) as [Hrole|Hrole].
    + exists (Some 0%nat). simpl. split.
      { split; [lia|]. split; [exists op; auto|intros j' op' Hj; lia]. }
      split.
      { intros id o Ho. destruct (Hseen_from id o Ho) as [?|[-> [? ?]]]; [auto|].
        right. split; [left|auto]. }
      split; [|exact Hseen_acc].
      intros o Ho Hf. apply list_elem_of_singleton in Ho as ->. apply Hseen_op, Hf.
    + destruct (IH (idx + 1) seen) as [stop [Hstop [Hfrom [Hcov Hkeep]]]].
      exists (match stop with None => None | Some j => Some (S j) end).
      split.
      { destruct stop as [j|].
        - destruct Hstop as [Hidx [Hop Hbefore]]. split; [lia|]. split; [exact Hop|].
          intros [|j'] op' Hj Hl; simpl in Hl.
          + injection Hl as <-. exact Hrole.
          + apply (Hbefore j' op'); [lia|exact Hl].
        - destruct Hstop as [Hidx Hno]. split; [exact Hidx|].
          intros o Ho. apply elem_of_cons in Ho as [-> | Ho]; [exact Hrole|].
          apply Hno, Ho. }
      assert (Hscanned :
        match (match stop with None => None | Some j => Some (S j) end) with
        | None => op :: l
        | Some j => take (S j) (op :: l)
        end = op :: match stop with None => l | Some j => take (S j) l end).
      { destruct stop; reflexivity. }
      simpl in Hscanned |- *. rewrite Hscanned. split.
      { intros id o Ho. destruct (Hfrom id o Ho) as [Hs|[Hin [Hf Hid]]].
        - destruct (Hseen_from id o Hs) as [?|[-> [? ?]]]; [auto|].
          right. split; [left|auto].
        - right. split; [right; exact Hin|auto]. }
      split.
      { intros o Ho Hf. apply elem_of_cons in Ho as [-> | Ho].
        - apply Hkeep, Hseen_op, Hf.
        - apply (Hcov o Ho Hf). }
      intros id H. apply Hkeep, Hseen_acc, H.
Qed.

(** X17: the scan that opens the backward loop finds the first operator with
    the backward role: its result is -1 exactly when no operator has that
    role, and otherwise the index of an operator with that role before which
    none has it; the table it builds holds exactly forward operators (by
    role) met up to that index (all of them when there is none), each under
    its own id, and one for every such operator. *)
Theorem scan_first_backward_spec (K : Collaborators) (l : list Operator) :
  let r := scan_first_backward K l 0 ∅ in
  let scanned := if fst r =? -1 then l else take (S (Z.to_nat (fst r))) l in
  (fst r = -1 <-> forall op, op ∈ l -> op_role op <> OpRole_Backward K) /\
  (fst r <> -1 ->
   0 <= fst r < Z.of_nat (length l) /\
   (exists op, l !! Z.to_nat (fst r) = Some op /\ op_role op = OpRole_Backward K) /\
   (forall (j : nat) op, (j < Z.to_nat (fst r))%nat -> l !! j = Some op ->
                         op_role op <> OpRole_Backward K)) /\
  (forall id op, snd r !! id = Some op ->
                 op ∈ scanned /\ is_forward_op K op = true /\ op_id op = id) /\
  (forall op, op ∈ scanned -> is_forward_op K op = true ->
              is_Some (snd r !! op_id op)).
Proof.
  intros r scanned.
  destruct (scan_first_backward_gen K l 0 ∅) as [stop [Hstop [Hfrom [Hcov _]]]].
  fold r in Hstop, Hfrom, Hcov.
  assert (Hscanned : scanned = match stop with None => l | Some j => take (S j) l end).
  { unfold scanned. destruct stop as [j|].
    - destruct Hstop as [Hidx _]. rewrite Hidx.
      destruct (Z.eqb_spec (0 + Z.of_nat j) (-1)); [lia|].
      replace (Z.to_nat (0 + Z.of_nat j)) with j by lia. reflexivity.
    - destruct Hstop as [-> _]. reflexivity. }
  rewrite Hscanned. split; [|split; [|split]].
  - destruct stop as [j|].
    + destruct Hstop as [Hidx [[op [Hop Hrole]] _]]. split; [lia|].
      intros Hno. exfalso. apply (Hno op); [|exact Hrole].
      apply list_elem_of_lookup. eauto.
    + destruct Hstop as [Hidx Hno]. split; [intros _; exact Hno|intros _; exact Hidx].
  - intros Hne. destruct stop as [j|]; [|destruct Hstop; contradiction].
    destruct Hstop as [Hidx [[op [Hop Hrole]] Hbefore]].
    replace (Z.to_nat (fst r)) with j by lia. split; [|split].
    + pose proof (lookup_lt_Some _ _ _ Hop). lia.
    + exists op. auto.
    + exact Hbefore.
  - intros id op Ho. destruct (Hfrom id op Ho) as [Hempty|H]; [|exact H].
    rewrite lookup_empty in Hempty. discriminate.
  - exact Hcov.
Qed.

Lemma scan_first_backward_spec_witness :
  exists op,
    [Demo.matmul_op; Demo.mean_op; Scenario2.mean_grad_op]
      !! Z.to_nat (fst (scan_first_backward Demo.K
                          [Demo.matmul_op; Demo.mean_op; Scenario2.mean_grad_op]
                          0 ∅)) = Some op /\
    op_role op = OpRole_Backward Demo.K.
Proof.
  refine (proj1 (proj2 (proj1 (proj2
    (scan_first_backward_spec Demo.K
       [Demo.matmul_op; Demo.mean_op; Scenario2.mean_grad_op])) _))).
  vm_compute. discriminate.
Defined.

(** ** The no-grad set *)

(** X18: the no-grad set handed to the autodiff engine holds exactly the
    names of the variables the caller listed and the names of the parameters
    of the program that are not trainable: a frozen parameter is excluded
    from differentiation whatever the caller passes. *)
Theorem no_grad_set_members (program : Program) (no_grad_set : option (list Var))
    (n : string) :
  n ∈ _get_no_grad_set program no_grad_set <->
  (exists l v, no_grad_set = Some l /\ v ∈ l /\ name v = n) \/
  (exists v kw, v ∈ list_vars program /\ parameter v = Some kw /\
                trainable kw = false /\ name v = n).
Proof.
  unfold _get_no_grad_set, _get_no_grad_set_name, all_parameters, list_vars.
  rewrite elem_of_union. split.
  - intros [Hl|Hp].
    + destruct no_grad_set as [l|].
      * apply elem_of_list_to_set, list_elem_of_In, in_map_iff in Hl
          as [v [Hname Hv]].
        left. exists l, v. split; [reflexivity|].
        split; [apply list_elem_of_In; exact Hv|exact Hname].
      * inversion Hl.
    + apply elem_of_list_to_set, list_elem_of_In, in_map_iff in Hp
        as [v [Hname Hv]].
      apply list_elem_of_In, list_elem_of_filter in Hv as [Hnt Hv].
      apply list_elem_of_filter in Hv as [Hpar Hv].
      unfold not_trainable in Hnt. destruct (parameter v) as [kw|] eqn:Hkw;
        [|discriminate].
      right. exists v, kw. split; [exact Hv|]. split; [exact Hkw|].
      split; [|exact Hname]. destruct (trainable kw); [discriminate|reflexivity].
  - intros [[l [v [-> [Hv Hname]]]]|[v [kw [Hv [Hkw [Htr Hname]]]]]].
    + left. apply elem_of_list_to_set, list_elem_of_In, in_map_iff.
      exists v. split; [exact Hname|apply list_elem_of_In; exact Hv].
    + right. apply elem_of_list_to_set, list_elem_of_In, in_map_iff.
      exists v. split; [exact Hname|].
      apply list_elem_of_In, list_elem_of_filter. split.
      * unfold not_trainable. rewrite Hkw, Htr. reflexivity.
      * apply list_elem_of_filter. split; [|exact Hv].
        unfold is_Parameter. rewrite Hkw. reflexivity.
Qed.

(** ** Backward dispatch *)




(** ** Startup initializers *)

Lemma partition_startup_param_locals (b : Block)
    (acc acc' : gmap string string * gmap string (list Z)) (var : Var)
    (w w' : World) :
  partition_startup_param b acc var w = (w', inr acc') ->
  (startup_locals_ok acc -> startup_locals_ok acc') /\
  (forall k, is_Some (fst acc' !! k) <->
             is_Some (fst acc !! k) \/ (is_Parameter var = true /\ name var = k)).
Proof.
  unfold partition_startup_param. destruct (is_Parameter var).
  - intros Hrun.
    apply bind_inr in Hrun as [w1 [mv [_ Hrun]]].
    apply bind_inr in Hrun as [w2 [da [_ Hrun]]].
    apply bind_inr in Hrun as [w3 [ts [_ Hrun]]].
    apply bind_inr in Hrun as [w4 [suffix [_ Hrun]]].
    apply bind_inr in Hrun as [w5 [[] [_ Hrun]]].
    unfold ret in Hrun. injection Hrun as _ <-. simpl. split.
    + intros Hok k v Hk. simpl in *.
      destruct (decide (name var = k)) as [<-|Hne].
      * rewrite lookup_insert_eq in Hk. injection Hk as <-.
        rewrite lookup_insert_eq. eauto.
      * rewrite lookup_insert_ne in Hk by exact Hne.
        destruct (decide (String.append (name var) suffix = v)) as [<-|Hne'].
        -- rewrite lookup_insert_eq. eauto.
        -- rewrite lookup_insert_ne by exact Hne'. apply (Hok k v Hk).
    + intros k. destruct (decide (name var = k)) as [<-|Hne].
      * rewrite lookup_insert_eq. split; [intros _; right; auto|eauto].
      * rewrite lookup_insert_ne by exact Hne. split; [auto|].
        intros [H|[_ H]]; [exact H|contradiction].
  - unfold ret. intros Hrun. injection Hrun as _ <-. split; [auto|].
    intros k. split; [auto|]. intros [H|[H _]]; [exact H|discriminate].
Qed.

Lemma startup_params_locals (b : Block) (vs : list Var)
    (acc acc' : gmap string string * gmap string (list Z)) (w w' : World) :
  foldM (partition_startup_param b) vs acc w = (w', inr acc') ->
  (startup_locals_ok acc -> startup_locals_ok acc') /\
  (forall k, is_Some (fst acc' !! k) <->
             is_Some (fst acc !! k) \/
             exists v, v ∈ vs /\ is_Parameter v = true /\ name v = k).
Proof.
  revert acc w. induction vs as [|x vs IH]; intros acc w Hrun; simpl in Hrun.
  - unfold ret in Hrun. injection Hrun as _ <-. split; [auto|].
    intros k. split; [auto|]. intros [H|[v [Hv _]]]; [exact H|inversion Hv].
  - apply bind_inr in Hrun as [w1 [acc1 [Hx Hrest]]].
    destruct (partition_startup_param_locals _ _ _ _ _ _ Hx) as [Hok1 Hkeys1].
    destruct (IH acc1 w1 Hrest) as [Hok Hkeys].
    split; [auto|]. intros k. rewrite Hkeys, Hkeys1. split.
    + intros [[H|[Hp Hn]]|[v [Hv H]]].
      * left. exact H.
      * right. exists x. split; [left|auto].
      * right. exists v. split; [right; exact Hv|exact H].
    + intros [H|[v [Hv [Hp Hn]]]]; [auto|].
      apply elem_of_cons in Hv as [-> | Hv]; [auto|].
      right. exists v. auto.
Qed.

(** X20: once the parameter loop of the startup handling has returned, its
    [temp_varname_map] has exactly the names of the parameters of the startup
    program as keys, and every name it maps to has a shape recorded.  So an
    initializer with other than one output fails the first assertion, an
    initializer whose output is not such a parameter is a [KeyError] (both
    leave the world untouched), and the second assertion of the initializer
    loop can never fail. *)
Theorem startup_initializer_faults (b : Block) (vs : list Var) (w w' : World)
    (t : gmap string string) (p : gmap string (list Z)) :
  foldM (partition_startup_param b) vs (∅, ∅) w = (w', inr (t, p)) ->
  (forall k, is_Some (t !! k) <->
             exists v, v ∈ vs /\ is_Parameter v = true /\ name v = k) /\
  forall (op : Operator) (w0 : World),
    (length (output_arg_names op) <> 1%nat ->
     copy_initializer t p op w0 = (w0, inl InitializerFault)) /\
    (forall o, output_arg_names op = [o] ->
               ~ (exists v, v ∈ vs /\ is_Parameter v = true /\ name v = o) ->
               copy_initializer t p op w0 = (w0, inl PyKeyError)) /\
    (forall o, output_arg_names op = [o] ->
               snd (copy_initializer t p op w0) <> inl InitializerFault).
Proof.
  intros Hrun.
  destruct (startup_params_locals _ _ _ _ _ _ Hrun) as [Hok Hkeys].
  assert (Hinv : startup_locals_ok (t, p)).
  { apply Hok. intros k v Hk. simpl in Hk. rewrite lookup_empty in Hk. discriminate. }
  assert (Hkeys' : forall k, is_Some (t !! k) <->
             exists v, v ∈ vs /\ is_Parameter v = true /\ name v = k).
  { intros k. rewrite (Hkeys k). simpl. split; [|auto].
    intros [[v Hv]|H]; [rewrite lookup_empty in Hv; discriminate|exact H]. }
  split; [exact Hkeys'|].
  intros op w0. split; [|split].
  - intros Hlen. unfold copy_initializer, bind at 1.
    destruct (Nat.eqb_spec (length (output_arg_names op)) 1); [contradiction|].
    reflexivity.
  - intros o Ho Hnot. unfold copy_initializer. rewrite Ho. simpl.
    unfold bind, liftR, dict_getitem, ret. simpl.
    destruct (t !! o) as [v|] eqn:Hto; [|reflexivity].
    exfalso. apply Hnot, Hkeys'. eauto.
  - intros o Ho. unfold copy_initializer. rewrite Ho. simpl.
    unfold bind at 1. simpl. unfold bind at 1, liftR at 1. simpl.
    unfold bind at 1, liftR at 1, dict_getitem at 1.
    destruct (t !! o) as [new|] eqn:Hto; [|simpl; discriminate].
    destruct (Hinv o new Hto) as [shp Hshp]. simpl in Hshp.
    unfold bind at 1. rewrite Hshp. simpl.
    unfold bind at 1, liftEnv at 1, fresh_id. simpl.
    unfold bind at 1, liftR at 1, dict_getitem. rewrite Hshp.
    unfold bind at 1, liftEnv at 1, update_dst, modify. simpl.
    unfold bind at 1, liftEnv at 1, dst_block. simpl.
    destruct (dist_startup_program (env w0)) as [sp|]; simpl; [|discriminate].
    unfold bind at 1, liftR at 1.
    destruct (block_var _ o) as [f|output_var] eqn:Hbv.
    { unfold block_var in Hbv. destruct (find_var _ o); [discriminate|].
      injection Hbv as <-. simpl. discriminate. }
    unfold bind, gets. simpl.
    destruct (get_tensor_distributed_attr_for_program _ output_var); simpl;
      discriminate.
Qed.

Lemma startup_initializer_faults_witness :
  copy_initializer {[ "w" := "w" ]} {[ "w" := [64; 64] ]} Demo.mean_op Demo.fresh
  = (Demo.fresh, inl PyKeyError).
Proof.
  refine (proj1 (proj2 (proj2
    (startup_initializer_faults (global_block Demo.serial_main)
       (list_vars Demo.serial_startup) Demo.fresh
       (fst (foldM (partition_startup_param (global_block Demo.serial_main))
               (list_vars Demo.serial_startup) (∅, ∅) Demo.fresh))
       {[ "w" := "w" ]} {[ "w" := [64; 64] ]} _)
    Demo.mean_op Demo.fresh)) "loss" eq_refl _).
  - vm_compute. reflexivity.
  - intros [v [Hv [_ Hname]]]. simpl in Hv.
    apply list_elem_of_singleton in Hv as ->. discriminate Hname.
Defined.

(** ** Replicating an operator *)

Lemma map_slots_ext (f g : string -> string) (slots : list (string * list string)) :
  (forall x, x ∈ concat (map snd slots) -> f x = g x) ->
  map_slots f slots = map_slots g slots.
Proof.
  induction slots as [|[k names] slots IH]; intros Hfg; [reflexivity|].
  simpl in *. f_equal.
  - f_equal. apply map_ext_in. intros x Hx. apply Hfg.
    apply elem_of_app. left. apply list_elem_of_In. exact Hx.
  - apply IH. intros x Hx. apply Hfg. apply elem_of_app. right. exact Hx.
Qed.

Lemma map_slots_compose (f g : string -> string) (slots : list (string * list string)) :
  map_slots g (map_slots f slots) = map_slots (fun x => g (f x)) slots.
Proof.
  unfold map_slots. rewrite map_map. apply map_ext. intros [k names]. simpl.
  rewrite map_map. reflexivity.
Qed.

(** Renaming the names of a list one after the other amounts to renaming
    them all at once when the table does not interfere on the list. *)
Lemma sequential_renaming (m : gmap string string) (slots : list (string * list string))
    (all done todo : list string) :
  non_interfering m all ->
  all = (done ++ todo)%list ->
  (forall x, x ∈ concat (map snd slots) -> x ∈ all) ->
  fold_left (fun s n => _rename_input n (image m n) s) todo
    (map_slots (fun x => if decide (x ∈ done) then image m x else x) slots)
  = map_slots (image m) slots.
Proof.
  intros Hni. revert done. induction todo as [|n todo IH]; intros done Hall Hin.
  - simpl. apply map_slots_ext. intros x Hx.
    destruct (decide (x ∈ done)) as [|Hnot]; [reflexivity|].
    exfalso. apply Hnot. rewrite app_nil_r in Hall. subst all. apply Hin, Hx.
  - simpl.
    change (_rename_input n (image m n)) with
      (map_slots (fun x => if String.eqb x n then image m n else x)).
    rewrite map_slots_compose.
    rewrite <- (IH (done ++ [n])%list);
      [|rewrite <- app_assoc; exact Hall|exact Hin].
    f_equal. apply map_slots_ext. intros x Hx.
    assert (Hn : n ∈ all) by (subst all; apply elem_of_app; right; left).
    destruct (decide (x ∈ done)) as [Hd|Hd].
    + destruct (decide (x ∈ (done ++ [n])%list)) as [_|Hnot];
        [|exfalso; apply Hnot, elem_of_app; left; exact Hd].
      destruct (String.eqb_spec (image m x) n) as [Heq|Hne]; [|reflexivity].
      assert (Hx' : x ∈ all) by (apply Hin, Hx).
      assert (Himg : image m x = x) by (apply Hni; [exact Hx'|rewrite Heq; exact Hn]).
      congruence.
    + destruct (String.eqb_spec x n) as [->|Hne].
      * destruct (decide (n ∈ (done ++ [n])%list)) as [_|Hnot]; [reflexivity|].
        exfalso. apply Hnot, elem_of_app. right. left.
      * destruct (decide (x ∈ (done ++ [n])%list)) as [Hin'|_]; [|reflexivity].
        exfalso. apply elem_of_app in Hin' as [Hin'|Hin']; [contradiction|].
        apply list_elem_of_singleton in Hin'. contradiction.
Qed.

Lemma modify_last_op_add_op (f : Operator -> Operator) (op : Operator) (p : Program) :
  modify_last_op f (add_op op p) = add_op (f op) p.
Proof.
  unfold modify_last_op, add_op. simpl. f_equal. f_equal.
  rewrite length_app. simpl.
  replace (Nat.pred (length (ops (global_block p)) + 1))
    with (length (ops (global_block p)) + 0)%nat by lia.
  rewrite alter_app_r. reflexivity.
Qed.

Lemma update_dst_put (d : Dst) (f : Program -> Program) (q : Program) (e : Env) :
  dst_program d e = Some q ->
  update_dst d f e = (put_dst d (f q) e, inr tt).
Proof.
  destruct d; simpl; unfold modify, put_dst, with_main, with_startup; simpl.
  - intros H. injection H as <-. reflexivity.
  - intros ->. reflexivity.
Qed.

Lemma put_dst_program (d : Dst) (q : Program) (e : Env) :
  dst_program d (put_dst d q e) = Some q.
Proof. destruct d; reflexivity. Qed.

Lemma put_dst_put (d : Dst) (q1 q2 : Program) (e : Env) :
  put_dst d q2 (put_dst d q1 e) = put_dst d q2 e.
Proof. destruct d; reflexivity. Qed.

Lemma put_dst_same (d : Dst) (q : Program) (e : Env) :
  dst_program d e = Some q -> put_dst d q e = e.
Proof.
  destruct e as [c mp sp i]. destruct d; simpl; unfold put_dst, with_main,
    with_startup; simpl; intros H; [injection H as <-|subst sp]; reflexivity.
Qed.

(** The renaming loops of [_insert_src_op], on an environment whose
    destination ends with the descriptor being renamed. *)
Lemma rename_loop (d : Dst) (m : gmap string string)
    (set : (list (string * list string) -> list (string * list string)) ->
           Operator -> Operator)
    (names : list string) (op : Operator) (p : Program) (e : Env) :
  (forall o, set (fun s => s) o = o) ->
  (forall f g o, set g (set f o) = set (fun s => g (f s)) o) ->
  (forall n, n ∈ names -> is_Some (m !! n)) ->
  dst_program d e = Some (add_op op p) ->
  for_each
    (fun local_varname =>
       new <- liftR (dict_getitem m local_varname) ;;
       update_dst d (modify_last_op (set (_rename_input local_varname new))))
    names e
  = (put_dst d
       (add_op (set (fun s => fold_left (fun s n => _rename_input n (image m n) s)
                                 names s) op) p) e,
     inr tt).
Proof.
  intros Hid Hcomp. revert op e.
  induction names as [|n names IH]; intros op e Hall Hdst.
  - simpl. unfold ret. rewrite Hid, (put_dst_same _ _ _ Hdst). reflexivity.
  - simpl. destruct (Hall n) as [v Hv]; [left|].
    unfold bind at 1. unfold bind at 1, liftR, dict_getitem. rewrite Hv.
    rewrite (update_dst_put _ _ _ _ Hdst), modify_last_op_add_op.
    rewrite (IH (set (_rename_input n v) op));
      [|intros k Hk; apply Hall; right; exact Hk|apply put_dst_program].
    assert (Himg : image m n = v) by (unfold image; rewrite Hv; reflexivity).
    rewrite put_dst_put, Hcomp. simpl fold_left. rewrite Himg. reflexivity.
Qed.

Lemma rename_loop_fault (d : Dst) (m : gmap string string)
    (F : string -> string -> Program -> Program) (names : list string) (e : Env) :
  (snd (for_each (fun local_varname =>
                    new <- liftR (dict_getitem m local_varname) ;;
                    update_dst d (F local_varname new)) names e) = inr tt \/
   snd (for_each (fun local_varname =>
                    new <- liftR (dict_getitem m local_varname) ;;
                    update_dst d (F local_varname new)) names e) = inl PyKeyError) /\
  ((exists n, n ∈ names /\ m !! n = None) ->
   snd (for_each (fun local_varname =>
                    new <- liftR (dict_getitem m local_varname) ;;
                    update_dst d (F local_varname new)) names e) = inl PyKeyError).
Proof.
  set (body := fun local_varname =>
                 new <- liftR (dict_getitem m local_varname) ;;
                 update_dst d (F local_varname new)).
  revert e. induction names as [|n names IH]; intros e.
  - split; [left; reflexivity|]. intros [n [Hn _]]. inversion Hn.
  - assert (Hstep : for_each body (n :: names) e =
                    match body n e with
                    | (e1, inl f) => (e1, inl f)
                    | (e1, inr _) => for_each body names e1
                    end) by reflexivity.
    rewrite Hstep.
    assert (Hbody : (m !! n = None /\ body n e = (e, inl PyKeyError)) \/
                    (exists v e1, m !! n = Some v /\ body n e = (e1, inr tt))).
    { unfold body, bind, liftR, dict_getitem. destruct (m !! n) as [v|].
      - right. exists v. destruct d; simpl; unfold modify; eauto.
      - left. split; reflexivity. }
    destruct Hbody as [[Hnone ->]|[v [e1 [Hv ->]]]].
    + split; [right; reflexivity|reflexivity].
    + destruct (IH e1) as [Hcases Hmiss]. split; [exact Hcases|].
      intros [k [Hk Hnone]]. apply Hmiss.
      apply elem_of_cons in Hk as [-> | Hk]; [congruence|eauto].
Qed.

(** X21: [_insert_src_op] replicates an operator: when the table holds every
    name the operator refers to and does not interfere on its input names nor
    on its output names (as a table that maps names to themselves does), the
    destination block gains one operator, a copy of the source with a fresh
    id and every name replaced by its image, and nothing else changes.  When
    the table lacks one of the names, the call raises [KeyError]. *)
Theorem insert_src_op_replicates (src_op : Operator) (dst : Dst)
    (varname_mapping : gmap string string) (e : Env) (p : Program) :
  dst_program dst e = Some p ->
  ((forall n, n ∈ input_arg_names src_op \/ n ∈ output_arg_names src_op ->
              is_Some (varname_mapping !! n)) ->
   non_interfering varname_mapping (input_arg_names src_op) ->
   non_interfering varname_mapping (output_arg_names src_op) ->
   _insert_src_op src_op dst varname_mapping e
   = (put_dst dst
        (add_op {| op_id := next_desc_id e; op_type := op_type src_op;
                   op_role := op_role src_op;
                   inputs := map_slots (image varname_mapping) (inputs src_op);
                   outputs := map_slots (image varname_mapping) (outputs src_op);
                   attr_shape := attr_shape src_op |} p)
        (fst (fresh_id e)),
      inr tt)) /\
  ((exists n, (n ∈ input_arg_names src_op \/ n ∈ output_arg_names src_op) /\
              varname_mapping !! n = None) ->
   snd (_insert_src_op src_op dst varname_mapping e) = inl PyKeyError).
Proof.
  intros Hdst.
  set (e1 := fst (fresh_id e)).
  set (op0 := {| op_id := next_desc_id e; op_type := op_type src_op;
                 op_role := op_role src_op; inputs := inputs src_op;
                 outputs := outputs src_op; attr_shape := attr_shape src_op |}).
  assert (Hdst1 : dst_program dst e1 = Some p) by (destruct dst; exact Hdst).
  assert (Hstart : _insert_src_op src_op dst varname_mapping e =
            (_ <- for_each
                    (fun local_varname =>
                       new <- liftR (dict_getitem varname_mapping local_varname) ;;
                       update_dst dst
                         (modify_last_op (set_inputs (_rename_input local_varname new))))
                    (input_arg_names src_op) ;;
             for_each
               (fun local_varname =>
                  new <- liftR (dict_getitem varname_mapping local_varname) ;;
                  update_dst dst
                    (modify_last_op (set_outputs (_rename_output local_varname new))))
               (output_arg_names src_op))
              (put_dst dst (add_op op0 p) e1)).
  { unfold _insert_src_op. unfold bind at 1. unfold fresh_id at 1.
    unfold bind at 1. fold e1.
    change (next_desc_id e) with (op_id op0).
    rewrite (update_dst_put dst _ p e1 Hdst1). reflexivity. }
  split.
  - intros Hall Hin Hout. rewrite Hstart. unfold bind at 1.
    rewrite (rename_loop dst varname_mapping set_inputs (input_arg_names src_op)
               op0 p (put_dst dst (add_op op0 p) e1));
      [|intros []; reflexivity|intros f g []; reflexivity
       |intros n Hn; apply Hall; left; exact Hn|apply put_dst_program].
    rewrite put_dst_put.
    change (fun local_varname =>
              new <- liftR (dict_getitem varname_mapping local_varname) ;;
              update_dst dst
                (modify_last_op (set_outputs (_rename_output local_varname new))))
      with (fun local_varname =>
              new <- liftR (dict_getitem varname_mapping local_varname) ;;
              update_dst dst
                (modify_last_op (set_outputs (_rename_input local_varname new)))).
    set (op_in := set_inputs
                    (fun s => fold_left
                                (fun s n => _rename_input n (image varname_mapping n) s)
                                (input_arg_names src_op) s) op0).
    rewrite (rename_loop dst varname_mapping set_outputs (output_arg_names src_op)
               op_in p (put_dst dst (add_op op_in p) e1));
      [|intros []; reflexivity|intros f g []; reflexivity
       |intros n Hn; apply Hall; right; exact Hn|apply put_dst_program].
    rewrite put_dst_put. f_equal. f_equal. f_equal.
    unfold op_in, set_outputs, set_inputs, op0. simpl. f_equal.
    + rewrite <- (sequential_renaming varname_mapping (inputs src_op)
                    (input_arg_names src_op) [] (input_arg_names src_op) Hin eq_refl)
        by (intros x Hx; exact Hx).
      f_equal. symmetry. rewrite <- (map_slots_ext (fun x => x)).
      * unfold map_slots. rewrite <- (map_id (inputs src_op)) at 2.
        apply map_ext. intros [k l]. simpl. rewrite map_id. reflexivity.
      * intros x _. destruct (decide (x ∈ [])) as [H|_]; [inversion H|reflexivity].
    + rewrite <- (sequential_renaming varname_mapping (outputs src_op)
                    (output_arg_names src_op) [] (output_arg_names src_op) Hout eq_refl)
        by (intros x Hx; exact Hx).
      f_equal. symmetry. rewrite <- (map_slots_ext (fun x => x)).
      * unfold map_slots. rewrite <- (map_id (outputs src_op)) at 2.
        apply map_ext. intros [k l]. simpl. rewrite map_id. reflexivity.
      * intros x _. destruct (decide (x ∈ [])) as [H|_]; [inversion H|reflexivity].
  - intros [n [Hn Hnone]]. rewrite Hstart. unfold bind at 1.
    pose proof (rename_loop_fault dst varname_mapping
                  (fun a b => modify_last_op (set_inputs (_rename_input a b)))
                  (input_arg_names src_op) (put_dst dst (add_op op0 p) e1))
      as [Hcases Hmiss].
    destruct (for_each _ (input_arg_names src_op) _) as [e2 [f|[]]] eqn:Hloop;
      simpl in *.
    + destruct Hcases as [H|H]; [discriminate|exact H].
    + destruct Hn as [Hn|Hn].
      * assert (Hbad : @inr Fault unit tt = inl PyKeyError) by (apply Hmiss; eauto).
        discriminate.
      * apply (rename_loop_fault dst varname_mapping
                 (fun a b => modify_last_op (set_outputs (_rename_output a b)))
                 (output_arg_names src_op) e2). eauto.
Qed.

Lemma insert_src_op_replicates_witness :
  snd (_insert_src_op Demo.matmul_op DstMain (renaming_table Demo.forwarded)
         (env Demo.forwarded)) = inr tt.
Proof.
  assert (Himage : forall a, a ∈ ["x"; "w"; "y"] ->
                             image (renaming_table Demo.forwarded) a = a).
  { intros a Ha. repeat (apply elem_of_cons in Ha as [-> | Ha]);
      [vm_compute; reflexivity|vm_compute; reflexivity|vm_compute; reflexivity
      |inversion Ha]. }
  rewrite (proj1 (insert_src_op_replicates Demo.matmul_op DstMain
                    (renaming_table Demo.forwarded) (env Demo.forwarded)
                    (dist_main_program (env Demo.forwarded)) eq_refl)).
  - reflexivity.
  - intros n [Hn|Hn]; simpl in Hn;
      repeat (apply elem_of_cons in Hn as [-> | Hn]); try inversion Hn;
        vm_compute; eauto.
  - intros a Ha _. apply Himage. simpl in Ha.
    repeat (apply elem_of_cons in Ha as [-> | Ha]); try inversion Ha;
      repeat constructor.
  - intros a Ha _. apply Himage. simpl in Ha.
    repeat (apply elem_of_cons in Ha as [-> | Ha]); try inversion Ha;
      repeat constructor.
Defined.

(** ** Forward dispatch to a registered implementation *)

(** X22: when an implementation is registered for the type of an operator,
    the operator's attribute carries a non-negative index that selects one
    and that implementation declares the forward transform, the forward loop
    hands the operator to it: the loop body runs its forward transform on the
    slots the helper prepared. *)
Theorem forward_registered_dispatch (K : Collaborators) (c : DistributedContext)
    (op : Operator) (d : DistributedOperator) (a : OperatorDistributedAttribute)
    (impl : DistributedOperatorImpl) :
  get_distributed_operator K (op_type op) = Some d ->
  get_op_distributed_attr_for_program c op = Some a ->
  0 <= o_impl_idx a ->
  get_impl d (o_impl_idx a) = inr impl ->
  _forward_implemented impl = true ->
  _is_dist_op_forward_implement K c op = inr true /\
  select_forward_impl K c op = inr impl /\
  forall (w : World) (e1 : Env) (kio : Kwargs * Kwargs) (kwargs : Kwargs),
    prepare_forward_context K (renaming_table w) op (env w) = (e1, inr kio) ->
    auto_parallel_context e1 = c ->
    merge_kwargs (fst kio) (snd kio) = inr kwargs ->
    partition_op K op w
    = liftEnv (forward impl (renaming_table w) kwargs)
        {| self := self w; env := e1 |}.
Proof.
  intros Hd Ha Hpos Himpl Hflag.
  assert (Hyes : _is_dist_op_forward_implement K c op = inr true).
  { unfold _is_dist_op_forward_implement. rewrite Hd, Ha.
    destruct (Z.leb_spec 0 (o_impl_idx a)); [|lia].
    rewrite Himpl. simpl. rewrite Hflag. reflexivity. }
  assert (Hsel : select_forward_impl K c op = inr impl).
  { unfold select_forward_impl. rewrite Hyes, Ha. simpl.
    unfold lookup_impl. rewrite Hd. exact Himpl. }
  split; [exact Hyes|]. split; [exact Hsel|].
  intros w e1 kio kwargs Hprep Hctx Hmerge.
  unfold partition_op, bind at 1, gets at 1. simpl.
  unfold bind at 1, liftEnv at 1. unfold renaming_table in Hprep. rewrite Hprep.
  unfold bind at 1, gets at 1. simpl. rewrite Hctx.
  unfold bind at 1, liftR at 1. rewrite Hsel.
  unfold bind at 1, liftR at 1. rewrite Hmerge. reflexivity.
Qed.

Lemma forward_registered_dispatch_witness :
  select_forward_impl Demo.K (auto_parallel_context (env Demo.fresh))
    Demo.matmul_op = inr Demo.matmul_impl.
Proof.
  refine (proj1 (proj2
    (forward_registered_dispatch Demo.K (auto_parallel_context (env Demo.fresh))
       Demo.matmul_op {| _impls := [Demo.matmul_impl] |} (Demo.op_attr 10 0)
       Demo.matmul_impl eq_refl _ _ eq_refl eq_refl))).
  - vm_compute. reflexivity.
  - simpl. lia.
Defined.

(** ** Translating the lists of the backward transpilation *)

Lemma bind_eq_inr {S A B} (c : M S A) (k : A -> M S B) (s s1 : S) (a : A) :
  c s = (s1, inr a) -> bind c k s = k a s1.
Proof. intros H. unfold bind. rewrite H. reflexivity. Qed.

Lemma bind_eq_inl {S A B} (c : M S A) (k : A -> M S B) (s s1 : S) (f : Fault) :
  c s = (s1, inl f) -> bind c k s = (s1, inl f).
Proof. intros H. unfold bind. rewrite H. reflexivity. Qed.

Lemma serial_varname2dist_var_found (w : World) (n d : string) (v : Var) :
  renaming_table w !! n = Some d ->
  find_var (vars (dist_block_of w)) d = Some v ->
  _serial_varname2dist_var n w = (w, inr v).
Proof.
  unfold renaming_table, dist_block_of. intros Hn Hv.
  unfold _serial_varname2dist_var, bind, gets, liftR, dict_getitem, has_var,
    block_var. simpl. rewrite Hn. simpl. rewrite Hv. reflexivity.
Qed.

Lemma serial_varname2dist_var_absent (w : World) (n : string) :
  renaming_table w !! n = None ->
  _serial_varname2dist_var n w = (w, inl LookupFailure).
Proof.
  unfold renaming_table. intros Hn.
  unfold _serial_varname2dist_var, bind, gets. simpl. rewrite Hn. reflexivity.
Qed.

Lemma translate_all (w : World) (l : list Var) :
  counterparts_exist w l ->
  (forall p, p ∈ l -> is_Some (renaming_table w !! name p)) ->
  exists vs : list Var,
    mapM (fun param => _serial_varname2dist_var (name param)) l w = (w, inr vs) /\
    length vs = length l /\
    forall (i : nat) p, l !! i = Some p ->
      exists d v, renaming_table w !! name p = Some d /\
                  find_var (vars (dist_block_of w)) d = Some v /\
                  vs !! i = Some v.
Proof.
  induction l as [|x l IH]; intros Hcp Hall.
  - exists []. split; [reflexivity|]. split; [reflexivity|]. intros i p Hi. discriminate.
  - destruct (Hall x) as [d Hd]; [left|].
    destruct (Hcp x d) as [v Hv]; [left|exact Hd|].
    destruct IH as [vs [Hrun [Hlen Hvs]]].
    { intros p d' Hp. apply Hcp. right. exact Hp. }
    { intros p Hp. apply Hall. right. exact Hp. }
    exists (v :: vs). split; [|split; [simpl; congruence|]].
    + simpl. unfold bind at 1.
      rewrite (serial_varname2dist_var_found w (name x) d v Hd Hv).
      unfold bind at 1. rewrite Hrun. reflexivity.
    + intros [|i] p Hi; simpl in Hi.
      * injection Hi as <-. exists d, v. auto.
      * apply (Hvs i p Hi).
Qed.

Lemma translate_absent (w : World) (l : list Var) :
  counterparts_exist w l ->
  (exists p, p ∈ l /\ renaming_table w !! name p = None) ->
  mapM (fun param => _serial_varname2dist_var (name param)) l w
  = (w, inl LookupFailure).
Proof.
  induction l as [|x l IH]; intros Hcp [p [Hp Hnone]]; [inversion Hp|].
  simpl. unfold bind at 1.
  destruct (renaming_table w !! name x) as [d|] eqn:Hd.
  - destruct (Hcp x d) as [v Hv]; [left|exact Hd|].
    rewrite (serial_varname2dist_var_found w (name x) d v Hd Hv).
    unfold bind at 1. rewrite IH; [reflexivity| |].
    + intros q d' Hq. apply Hcp. right. exact Hq.
    + apply elem_of_cons in Hp as [-> | Hp]; [congruence|eauto].
  - rewrite (serial_varname2dist_var_absent w (name x) Hd). reflexivity.
Qed.

Lemma backward_transpile_valid_loss (K : Collaborators) (w : World)
    (serial_loss : Var) (main startup : Program) (pl ngs : option (list Var))
    (cb : option (list Callback)) (dist_name : string) (dist_loss : Var) :
  _compatible_with_auto_backward (self w) = true ->
  renaming_table w !! name serial_loss = Some dist_name ->
  find_var (vars (dist_block_of w)) dist_name = Some dist_loss ->
  shape dist_loss = [1] ->
  _dist_var_op_backward_transpile K serial_loss main startup pl ngs cb w
  = backward_transpile_after_loss_check K dist_loss pl ngs cb w.
Proof.
  intros Hcompat Hloss Hdist Hshape. unfold _dist_var_op_backward_transpile.
  erewrite bind_eq_inr; [|unfold gets; reflexivity]. cbv beta.
  rewrite Hcompat.
  erewrite bind_eq_inr;
    [|apply (serial_varname2dist_var_found w _ _ _ Hloss Hdist)]. cbv beta.
  erewrite bind_eq_inr; [|rewrite Hshape; reflexivity]. cbv beta.
  reflexivity.
Qed.

(** X23: the backward transpilation translates a non-empty parameter list
    through the renaming table and differentiates with the translated list:
    when every listed name is in the table the list becomes the list of the
    distributed counterparts, in order, and it is that list the autodiff
    driver is called with (after the no-grad set has been translated in its
    turn, and before the completion pass and the loop over the gradient
    operators); when a listed name is absent, the transpilation raises
    [LookupFailure] and leaves the world untouched (the distributed loss
    being valid and the mapped names having their counterparts). *)
Theorem parameter_list_is_translated (K : Collaborators) (w : World)
    (serial_loss : Var) (main startup : Program) (p : Var) (ps : list Var)
    (ngs : option (list Var)) (cb : option (list Callback))
    (dist_name : string) (dist_loss : Var) :
  _compatible_with_auto_backward (self w) = true ->
  renaming_table w !! name serial_loss = Some dist_name ->
  find_var (vars (dist_block_of w)) dist_name = Some dist_loss ->
  shape dist_loss = [1] ->
  counterparts_exist w (p :: ps) ->
  ((forall q, q ∈ p :: ps -> is_Some (renaming_table w !! name q)) ->
   exists vs : list Var,
     mapM (fun param => _serial_varname2dist_var (name param)) (p :: ps) w
     = (w, inr vs) /\
     length vs = length (p :: ps) /\
     (forall (i : nat) q, (p :: ps) !! i = Some q ->
        exists d v, renaming_table w !! name q = Some d /\
                    find_var (vars (dist_block_of w)) d = Some v /\
                    vs !! i = Some v) /\
     _dist_var_op_backward_transpile K serial_loss main startup (Some (p :: ps))
       ngs cb w
     = (no_grad_set <- translate_list ngs ;;
        params_and_grads <-
          liftEnv (_auto_backward K dist_loss (Some vs) no_grad_set cb) ;;
        backward_transpile_after_autodiff K params_and_grads) w) /\
  ((exists q, q ∈ p :: ps /\ renaming_table w !! name q = None) ->
   _dist_var_op_backward_transpile K serial_loss main startup (Some (p :: ps))
     ngs cb w
   = (w, inl LookupFailure)).
Proof.
  intros Hcompat Hloss Hdist Hshape Hcp.
  rewrite (backward_transpile_valid_loss K w serial_loss main startup
             (Some (p :: ps)) ngs cb dist_name dist_loss Hcompat Hloss Hdist Hshape).
  unfold backward_transpile_after_loss_check. split.
  - intros Hall.
    destruct (translate_all w (p :: ps) Hcp Hall) as [vs [Hrun [Hlen Hvs]]].
    exists vs. split; [exact Hrun|]. split; [exact Hlen|]. split; [exact Hvs|].
    assert (Htl : translate_list (Some (p :: ps)) w = (w, inr (Some vs))).
    { unfold translate_list. rewrite (bind_eq_inr _ _ _ _ _ Hrun). reflexivity. }
    rewrite (bind_eq_inr _ _ _ _ _ Htl). reflexivity.
  - intros Habsent. apply bind_eq_inl. unfold translate_list. apply bind_eq_inl.
    apply (translate_absent w (p :: ps) Hcp Habsent).
Qed.

Lemma parameter_list_is_translated_witness :
  _dist_var_op_backward_transpile Demo.K Demo.loss Demo.serial_main
    Demo.serial_startup (Some [Demo.w; Demo.ghost]) None None Demo.forwarded
  = (Demo.forwarded, inl LookupFailure).
Proof.
  refine (proj2
    (parameter_list_is_translated Demo.K Demo.forwarded Demo.loss
       Demo.serial_main Demo.serial_startup Demo.w [Demo.ghost] None None "loss"
       {| desc_id := 106; name := "loss"; type := LOD_TENSOR; shape := [1];
          dtype := Some FP32; lod_level := Some 0; persistable := false;
          error_clip := None; stop_gradient := false; is_data := false;
          belong_to_optimizer := false; parameter := None |} _ _ _ _ _) _).
  - reflexivity.
  - vm_compute. reflexivity.
  - vm_compute. reflexivity.
  - reflexivity.
  - intros q d Hq Hd.
    repeat (apply elem_of_cons in Hq as [-> | Hq]); [| |inversion Hq].
    + vm_compute in Hd. injection Hd as <-. vm_compute. eauto.
    + vm_compute in Hd. discriminate Hd.
  - exists Demo.ghost. split; [right; left|vm_compute; reflexivity].
Defined.
